(** * PAI voice notification server: a shallow embedding and its properties

    The development follows [voice-server/server.ts] (the cascading
    ElevenLabs / Piper / macOS variant).  JavaScript strings are sequences of
    UTF-16 code units, so that [length] is the [.length] of the source and
    an emoji outside the BMP is a surrogate pair.  The regular expressions
    of the source are written as terms of a small pattern type and run by a
    backtracking matcher; [replace] with the [g] flag is one left-to-right,
    non-overlapping replacement loop over it.  What the rest of the world
    answers (the ElevenLabs API, child processes, the file system, the clock)
    is an input of the model.

    The definitions come first, then the properties; the claims of the
    specification are the theorems named [C1_...] to [C10_...], and further
    properties read off the source are named [X1_...] to [X30_...]. *)

From Stdlib Require Import ZArith NArith Ascii String Bool Lia PrimFloat.
From stdpp Require Import gmap list strings pretty.

Set Warnings "-register-all".
Local Open Scope N_scope.

(** ** JavaScript strings *)

Abbreviation jstring := (list N).

(** An ASCII literal of the source as a list of code units. *)
Definition lit (s : string) : jstring :=
  (λ a, N_of_ascii a) <$> list_ascii_of_string s.

Module Chr.
Definition lt : N := 60.        (* < *)
Definition gt : N := 62.        (* > *)
Definition semicolon : N := 59.
Definition amp : N := 38.
Definition pipe : N := 124.
Definition backtick : N := 96.
Definition dollar : N := 36.
Definition backslash : N := 92.
Definition star : N := 42.
Definition hash : N := 35.
Definition dot : N := 46.
Definition slash : N := 47.
Definition lbracket : N := 91.
Definition rbracket : N := 93.
Definition underscore : N := 95.
Definition space : N := 32.
Definition newline : N := 10.
End Chr.

(** [\s] of an ECMAScript regular expression, which is also the set that
    [String.prototype.trim] strips: WhiteSpace and LineTerminator. *)
Definition is_space (c : N) : bool :=
  (c =? 9) || (c =? 10) || (c =? 11) || (c =? 12) || (c =? 13) || (c =? 32)
  || (c =? 0xA0) || (c =? 0x1680) || ((0x2000 <=? c) && (c <=? 0x200A))
  || (c =? 0x2028) || (c =? 0x2029) || (c =? 0x202F) || (c =? 0x205F)
  || (c =? 0x3000) || (c =? 0xFEFF).

(** [\w]: [A-Za-z0-9_]. *)
Definition is_word (c : N) : bool :=
  ((65 <=? c) && (c <=? 90)) || ((97 <=? c) && (c <=? 122))
  || ((48 <=? c) && (c <=? 57)) || (c =? Chr.underscore).

(** Lower-casing of one code unit, on the ASCII letters. *)
Definition lower_ascii (c : N) : N :=
  if (65 <=? c) && (c <=? 90) then c + 32 else c.

Definition toLowerCase (s : jstring) : jstring := lower_ascii <$> s.

Fixpoint takeWhile (p : N → bool) (s : jstring) : jstring :=
  match s with
  | c :: t => if p c then c :: takeWhile p t else []
  | [] => []
  end.

Fixpoint dropWhile (p : N → bool) (s : jstring) : jstring :=
  match s with
  | c :: t => if p c then dropWhile p t else s
  | [] => []
  end.

Definition trimStart (s : jstring) : jstring := dropWhile is_space s.
Definition trimEnd (s : jstring) : jstring := rev (dropWhile is_space (rev s)).

(** [s.trim()] *)
Definition trim (s : jstring) : jstring := trimEnd (trimStart s).

(** [s.substring(0, n)] *)
Definition substring0 (n : nat) (s : jstring) : jstring := take n s.

(** [s] starts with [p]. *)
Fixpoint startsWith (p s : jstring) : bool :=
  match p, s with
  | [], _ => true
  | a :: p', b :: s' => (a =? b) && startsWith p' s'
  | _ :: _, [] => false
  end.

(** [s] starts with the lower-case ASCII text [p], letter case ignored: the
    [i] flag.  Without the [u] flag a pattern letter below 128 is matched
    only by its two ASCII cases. *)
Fixpoint startsWith_ci (p s : jstring) : bool :=
  match p, s with
  | [], _ => true
  | a :: p', b :: s' => (a =? lower_ascii b) && startsWith_ci p' s'
  | _ :: _, [] => false
  end.

(** [s.includes(p)] *)
Fixpoint includes (p s : jstring) : bool :=
  startsWith p s ||
  match s with
  | [] => false
  | _ :: t => includes p t
  end.

Fixpoint includes_ci (p s : jstring) : bool :=
  startsWith_ci p s ||
  match s with
  | [] => false
  | _ :: t => includes_ci p t
  end.

(** ** Regular expressions

    The patterns of the server use literals, character classes, sequence,
    alternation, a greedy [+] or [{lo,hi}] over a character class, and
    capture groups.  [exec] is the backtracking matcher of ECMAScript for
    this fragment: it tries the pattern at the start of the text and hands
    the rest of the text and the captures to a continuation; when the
    continuation fails, the greedy repetitions give code units back one by
    one and the alternations try their next branch. *)

Inductive regex :=
| REps                                  (* the empty pattern *)
| RChar (p : N → bool)                  (* one code unit of a class *)
| RSeq (r1 r2 : regex)
| RAlt (r1 r2 : regex)
| RPlus (p : N → bool)                  (* [class+], greedy *)
| RRep (p : N → bool) (lo hi : nat)     (* [class{lo,hi}], greedy *)
| RGroup (r : regex).                   (* [( r )] *)

Fixpoint plus {R} (p : N → bool) (s : jstring) (k : jstring → option R) : option R :=
  match s with
  | c :: t =>
      if p c then
        match plus p t k with
        | Some x => Some x
        | None => k t
        end
      else None
  | [] => None
  end.

Fixpoint rep {R} (p : N → bool) (lo hi : nat) (s : jstring) (k : jstring → option R)
  : option R :=
  match hi with
  | O => if (lo =? 0)%nat then k s else None
  | S hi' =>
      let stop := if (lo =? 0)%nat then k s else None in
      match s with
      | c :: t =>
          if p c then
            match rep p (pred lo) hi' t k with
            | Some x => Some x
            | None => stop
            end
          else stop
      | [] => stop
      end
  end.

Fixpoint exec {R} (r : regex) (s : jstring) (caps : list jstring)
    (k : jstring → list jstring → option R) : option R :=
  match r with
  | REps => k s caps
  | RChar p =>
      match s with
      | c :: t => if p c then k t caps else None
      | [] => None
      end
  | RSeq r1 r2 => exec r1 s caps (λ s1 caps1, exec r2 s1 caps1 k)
  | RAlt r1 r2 =>
      match exec r1 s caps k with
      | Some x => Some x
      | None => exec r2 s caps k
      end
  | RPlus p => plus p s (λ s1, k s1 caps)
  | RRep p lo hi => rep p lo hi s (λ s1, k s1 caps)
  | RGroup r1 =>
      exec r1 s caps (λ s1 caps1, k s1 (caps1 ++ [take (length s - length s1) s]))
  end.

(** A match at the start of [s]: its length and its captures, in the order
    of the groups. *)
Definition match_at (r : regex) (s : jstring) : option (nat * list jstring) :=
  exec r s [] (λ rest caps, Some ((length s - length rest)%nat, caps)).

(** A literal text. *)
Fixpoint literal (text : jstring) : regex :=
  match text with
  | [] => REps
  | c :: t => RSeq (RChar (N.eqb c)) (literal t)
  end.

(** A literal lower-case ASCII text under the [i] flag.  Without the [u]
    flag a pattern letter below 128 is matched only by its two ASCII
    cases. *)
Fixpoint literal_ci (text : jstring) : regex :=
  match text with
  | [] => REps
  | c :: t => RSeq (RChar (λ x, c =? lower_ascii x)) (literal_ci t)
  end.

(** [(a1|a2|...)] over literal texts. *)
Fixpoint alternatives (alts : list jstring) : regex :=
  match alts with
  | [] => RChar (λ _, false)
  | a :: rest => RAlt (literal a) (alternatives rest)
  end.

(** [[^d]] *)
Definition not_char (d : N) : N → bool := λ c, negb (c =? d).

(** ** Global regular-expression replacement

    A [matcher] tries its pattern at the start of the text it is given and
    answers with the length of the match and the text that replaces it.
    [replaceAll] is [s.replace(/re/g, ...)]: the text is scanned from the
    left, the first position where the pattern matches is replaced, and the
    scan goes on after the match.  No pattern of the server matches the
    empty string. *)

Definition matcher := jstring → option (nat * jstring).

Fixpoint replace_from (m : matcher) (skip : nat) (s : jstring) : jstring :=
  match s with
  | [] => []
  | c :: t =>
      match skip with
      | S k => replace_from m k t
      | O =>
          match m s with
          | Some (S k, r) => r ++ replace_from m k t
          | _ => c :: replace_from m 0 t
          end
      end
  end.

Definition replaceAll (m : matcher) (s : jstring) : jstring :=
  replace_from m 0 s.

(** The pattern matches somewhere in [s]. *)
Fixpoint matches_somewhere (m : matcher) (s : jstring) : bool :=
  match s with
  | [] => false
  | _ :: t =>
      match m s with
      | Some (S _, _) => true
      | _ => matches_somewhere m t
      end
  end.

(** The matcher of a pattern with its replacement text, a function of the
    captures. *)
Definition re_replace (r : regex) (replacement : list jstring → jstring) : matcher :=
  λ s, match match_at r s with
       | Some (n, caps) => Some (n, replacement caps)
       | None => None
       end.

(** The replacement [''] *)
Definition erase : list jstring → jstring := λ _, [].
(** The replacement ['$1'] *)
Definition group1 : list jstring → jstring := λ caps, nth 0 caps [].

(** *** The seven patterns of [sanitizeForSpeech] *)

(** The class [[;&|><`$\\]]. *)
Definition is_shell_meta (c : N) : bool :=
  (c =? Chr.semicolon) || (c =? Chr.amp) || (c =? Chr.pipe) || (c =? Chr.gt)
  || (c =? Chr.lt) || (c =? Chr.backtick) || (c =? Chr.dollar)
  || (c =? Chr.backslash).

(** [/<script/gi] *)
Definition rx_script : regex := literal_ci (lit "<script").
(** [/\.\.\//g] *)
Definition rx_dotdot : regex := literal (lit "../").
(** [/[;&|><`$\\]/g] *)
Definition rx_shell_meta : regex := RChar is_shell_meta.
(** [/\*\*([^*]+)\*\*/g] *)
Definition rx_bold : regex :=
  RSeq (literal (lit "**")) (RSeq (RGroup (RPlus (not_char Chr.star))) (literal (lit "**"))).
(** [/\*([^*]+)\*/g] *)
Definition rx_italic : regex :=
  RSeq (literal (lit "*")) (RSeq (RGroup (RPlus (not_char Chr.star))) (literal (lit "*"))).
(** [/`([^`]+)`/g] *)
Definition rx_code : regex :=
  RSeq (literal [Chr.backtick])
    (RSeq (RGroup (RPlus (not_char Chr.backtick))) (literal [Chr.backtick])).
(** [/#{1,6}\s+/g] *)
Definition rx_heading : regex := RSeq (RRep (N.eqb Chr.hash) 1 6) (RPlus is_space).

Definition re_script : matcher := re_replace rx_script erase.
Definition re_dotdot : matcher := re_replace rx_dotdot erase.
Definition re_shell_meta : matcher := re_replace rx_shell_meta erase.
Definition re_bold : matcher := re_replace rx_bold group1.
Definition re_italic : matcher := re_replace rx_italic group1.
Definition re_code : matcher := re_replace rx_code group1.
Definition re_heading : matcher := re_replace rx_heading erase.

(** ** [sanitizeForSpeech] *)

Definition sanitizeForSpeech (input : jstring) : jstring :=
  substring0 500
    (trim
       (replaceAll re_heading
          (replaceAll re_code
             (replaceAll re_italic
                (replaceAll re_bold
                   (replaceAll re_shell_meta
                      (replaceAll re_dotdot
                         (replaceAll re_script input)))))))).

(** *** The patterns in closed form

    What each pattern of the sanitizer matches at a position, without
    search: the proofs go through these, once they are shown to agree with
    [exec]. *)

(** [<script] in any letter case, erased. *)
Definition script_closed : matcher := λ s,
  if startsWith_ci (lit "<script") s then Some (7%nat, []) else None.

(** [../], erased. *)
Definition dotdot_closed : matcher := λ s,
  if startsWith (lit "../") s then Some (3%nat, []) else None.

(** One code unit of the class of shell metacharacters. *)
Definition shell_meta_closed : matcher := λ s,
  match s with
  | c :: _ => if is_shell_meta c then Some (1%nat, []) else None
  | [] => None
  end.

(** [open ([^d]+) close] replaced by [$1], where [open] and [close] are runs
    of the delimiter [d]: the greedy group takes every code unit up to the
    next delimiter, and giving some back never helps, since the code unit
    after a shorter group is not a delimiter. *)
Definition delimited_closed (d : N) (n : nat) : matcher := λ s,
  let fence := replicate n d in
  if startsWith fence s then
    let body := takeWhile (λ c, negb (c =? d)) (drop n s) in
    match body with
    | [] => None
    | _ :: _ =>
        if startsWith fence (drop (n + length body) s)
        then Some ((n + length body + n)%nat, body)
        else None
    end
  else None.

Definition bold_closed : matcher := delimited_closed Chr.star 2.
Definition italic_closed : matcher := delimited_closed Chr.star 1.
Definition code_closed : matcher := delimited_closed Chr.backtick 1.

(** Hashes and white space, erased.  At a position with [k]
    leading hashes the pattern needs [k <= 6]: with more, whatever number of
    hashes [#{1,6}] takes, a hash and not white space follows. *)
Definition heading_closed : matcher := λ s,
  let hashes := takeWhile (N.eqb Chr.hash) s in
  let k := length hashes in
  if (1 <=? k)%nat && (k <=? 6)%nat then
    match takeWhile is_space (drop k s) with
    | [] => None
    | ws => Some ((k + length ws)%nat, [])
    end
  else None.

(** The sanitizer over the closed forms. *)
Definition sanitize_closed (input : jstring) : jstring :=
  substring0 500
    (trim
       (replaceAll heading_closed
          (replaceAll code_closed
             (replaceAll italic_closed
                (replaceAll bold_closed
                   (replaceAll shell_meta_closed
                      (replaceAll dotdot_closed
                         (replaceAll script_closed input)))))))).

(** ** JavaScript values

    What [JSON.parse] can produce, and [undefined] for a missing property.
    Numbers are IEEE doubles. *)

Inductive jsval :=
| VUndefined
| VNull
| VBool (b : bool)
| VNumber (x : float)
| VString (s : jstring)
| VArray (items : list jsval)
| VObject (fields : list (jstring * jsval)).

(** ToBoolean: [undefined], [null], [false], [0], [-0], [NaN] and the empty
    string are falsy. *)
Definition truthy (v : jsval) : bool :=
  match v with
  | VUndefined | VNull => false
  | VBool b => b
  | VNumber x => negb (PrimFloat.eqb x 0%float) && PrimFloat.eqb x x
  | VString s => negb (bool_decide (s = []))
  | VArray _ | VObject _ => true
  end.

Definition is_string (v : jsval) : bool :=
  match v with VString _ => true | _ => false end.

(** [v === false] *)
Definition is_false (v : jsval) : bool :=
  match v with VBool false => true | _ => false end.

(** [a || b] *)
Definition js_or (a b : jsval) : jsval := if truthy a then a else b.

(** ** [validateInput] *)

Record validation := {
  valid : bool;
  error : option jstring;
  sanitized : option jstring
}.

Definition rejected (msg : string) : validation :=
  {| valid := false; error := Some (lit msg); sanitized := None |}.

Definition validateInput (input : jsval) : validation :=
  match input with
  | VString s =>
      if negb (truthy input) then rejected "Invalid input type"
      else if (500 <? length s)%nat then
        rejected "Message too long (max 500 characters)"
      else
        let sanitized := sanitizeForSpeech s in
        if (length sanitized =? 0)%nat then
          rejected "Message contains no valid content after sanitization"
        else {| valid := true; error := None; sanitized := Some sanitized |}
  | _ => rejected "Invalid input type"
  end.

(** ** [extractEmotionalMarker] *)

Module Emoji.
Definition collision : jstring := [0xD83D; 0xDCA5].
Definition party : jstring := [0xD83C; 0xDF89].
Definition bulb : jstring := [0xD83D; 0xDCA1].
Definition palette : jstring := [0xD83C; 0xDFA8].
Definition sparkles : jstring := [0x2728].
Definition chart : jstring := [0xD83D; 0xDCC8].
Definition magnifier : jstring := [0xD83D; 0xDD0D].
Definition bug : jstring := [0xD83D; 0xDC1B].
Definition books : jstring := [0xD83D; 0xDCDA].
Definition thinking : jstring := [0xD83E; 0xDD14].
Definition target : jstring := [0xD83C; 0xDFAF].
Definition warning : jstring := [0x26A0; 0xFE0F].
Definition siren : jstring := [0xD83D; 0xDEA8].
End Emoji.

Definition emojiToEmotion : list (jstring * jstring) :=
  [ (Emoji.collision, lit "excited"); (Emoji.party, lit "celebration");
    (Emoji.bulb, lit "insight"); (Emoji.palette, lit "creative");
    (Emoji.sparkles, lit "success"); (Emoji.chart, lit "progress");
    (Emoji.magnifier, lit "investigating"); (Emoji.bug, lit "debugging");
    (Emoji.books, lit "learning"); (Emoji.thinking, lit "pondering");
    (Emoji.target, lit "focused"); (Emoji.warning, lit "caution");
    (Emoji.siren, lit "urgent") ].

(** The alternation of the pattern, in the order written there (the same
    order as the table). *)
Definition tag_emojis : list jstring := fst <$> emojiToEmotion.

(** [obj[key]] on a record literal. *)
Fixpoint record_get {A} (tbl : list (jstring * A)) (key : jstring) : option A :=
  match tbl with
  | [] => None
  | (k, v) :: rest => if bool_decide (k = key) then Some v else record_get rest key
  end.

(** The groups of a match of the tag pattern: the whole match, the emoji
    and the label ([emotionMatch[0]], [[1]] and [[2]]). *)
Record tag_match := {
  tm_whole : jstring;
  tm_emoji : jstring;
  tm_label : jstring
}.

(** [/\[(e1|...|e13)\s+(\w+)\]/] *)
Definition rx_tag : regex :=
  RSeq (RChar (N.eqb Chr.lbracket))
    (RSeq (RGroup (alternatives tag_emojis))
       (RSeq (RPlus is_space)
          (RSeq (RGroup (RPlus is_word)) (RChar (N.eqb Chr.rbracket))))).

(** The pattern tried at the start of [s]. *)
Definition tag_here (s : jstring) : option tag_match :=
  match match_at rx_tag s with
  | Some (n, [emoji; label]) =>
      Some {| tm_whole := take n s; tm_emoji := emoji; tm_label := label |}
  | _ => None
  end.

(** An alternation of literals: the first alternative that fits. *)
Fixpoint match_alt (alts : list jstring) (s : jstring) : option jstring :=
  match alts with
  | [] => None
  | a :: rest => if startsWith a s then Some a else match_alt rest s
  end.

(** The tag pattern at the start of [s] in closed form.  No emoji is a
    prefix of another, white space and word characters are disjoint and
    [']'] is not a word character, so the greedy choice is the only one. *)
Definition tag_here_closed (s : jstring) : option tag_match :=
  match s with
  | c :: s1 =>
      if c =? Chr.lbracket then
        match match_alt tag_emojis s1 with
        | Some e =>
            let s2 := drop (length e) s1 in
            match takeWhile is_space s2 with
            | [] => None
            | ws =>
                let s3 := drop (length ws) s2 in
                match takeWhile is_word s3 with
                | [] => None
                | label =>
                    match drop (length label) s3 with
                    | c' :: _ =>
                        if c' =? Chr.rbracket then
                          Some {| tm_whole := Chr.lbracket :: e ++ ws ++ label ++ [Chr.rbracket];
                                  tm_emoji := e; tm_label := label |}
                        else None
                    | [] => None
                    end
                end
            end
        | None => None
        end
      else None
  | [] => None
  end.

(** [message.match(re)] without the [g] flag: the leftmost match, with its
    index. *)
Fixpoint match_tag (s : jstring) : option (nat * tag_match) :=
  match tag_here s with
  | Some m => Some (0%nat, m)
  | None =>
      match s with
      | [] => None
      | _ :: t =>
          match match_tag t with
          | Some (i, m) => Some (S i, m)
          | None => None
          end
      end
  end.

(** [s.replace(pat, repl)] with a string pattern: the first occurrence. *)
Fixpoint replaceFirst (pat repl s : jstring) : jstring :=
  if startsWith pat s then repl ++ drop (length pat) s
  else match s with
       | [] => []
       | c :: t => c :: replaceFirst pat repl t
       end.

Record marker_result := {
  cleaned : jstring;
  emotion : option jstring
}.

(** The label is [\w+], so its lower-casing is the ASCII one. *)
Definition extractEmotionalMarker (message : jstring) : marker_result :=
  match match_tag message with
  | Some (_, m) =>
      let emoji := tm_emoji m in
      let emotionName := toLowerCase (tm_label m) in
      if bool_decide (record_get emojiToEmotion emoji = Some emotionName) then
        {| cleaned := trim (replaceFirst (tm_whole m) [] message);
           emotion := Some emotionName |}
      else {| cleaned := message; emotion := None |}
  | None => {| cleaned := message; emotion := None |}
  end.

(** ** Exceptions

    Every value thrown in the server is an [Error] object: a name
    ([Error], [TypeError], [SyntaxError], ...) and a message. *)

Record js_error := {
  err_name : jstring;
  err_message : jstring
}.

(** [new Error(msg)] *)
Definition Error (msg : jstring) : js_error :=
  {| err_name := lit "Error"; err_message := msg |}.

Definition TypeError (msg : jstring) : js_error :=
  {| err_name := lit "TypeError"; err_message := msg |}.

(** [Error.prototype.toString], which is what [`${error}`] renders. *)
Definition error_toString (e : js_error) : jstring :=
  match err_name e, err_message e with
  | [], msg => msg
  | name, [] => name
  | name, msg => name ++ lit ": " ++ msg
  end.

Inductive outcome (A : Type) :=
| Return (a : A)
| Throw (e : js_error).
Arguments Return {A} a.
Arguments Throw {A} e.

#[global] Instance outcome_bind : MBind outcome := λ A B k x,
  match x with
  | Return a => k a
  | Throw e => Throw e
  end.

(** A template literal [`${n}`] for an integer. *)
Definition show_Z (z : Z) : jstring := lit (pretty z).
Definition show_N (n : N) : jstring := lit (pretty n).
(** The exit code of a child process: [null] when a signal ended it. *)
Definition show_code (code : option Z) : jstring :=
  match code with
  | Some z => show_Z z
  | None => lit "null"
  end.

(** ** Configuration and process state *)

Inductive TTSProvider := elevenlabs | piper | macos.

#[global] Instance TTSProvider_eq_dec : EqDecision TTSProvider.
Proof. solve_decision. Defined.

Inductive audio_format := mp3 | wav | aiff.

(** The constants read from the environment when the server starts. *)
Record config := {
  ELEVENLABS_API_KEY : option jstring;   (* [undefined] when unset *)
  TTS_PROVIDER : jstring;
  PIPER_MODEL_PATH : jstring
}.

Definition ELEVENLABS_MAX_FAILS : nat := 3.
Definition RATE_LIMIT : nat := 10.
Definition RATE_WINDOW : Z := 60000.

(** Truthiness of the API key: set and not empty. *)
Definition api_key_set (cfg : config) : bool :=
  match ELEVENLABS_API_KEY cfg with
  | Some (_ :: _) => true
  | _ => false
  end.

Record rate_record := {
  count : nat;
  resetTime : Z
}.

(** The module-level mutable variables, and the error log file as the list
    of the chunks it holds. *)
Record server_state := {
  requestCounts : gmap jstring rate_record;
  elevenLabsFailCount : nat;
  error_log : list jstring
}.

Definition initial_state : server_state :=
  {| requestCounts := ∅; elevenLabsFailCount := 0; error_log := [] |}.

(** ** What the outside world answers

    The replies of the ElevenLabs API, of the child processes and of the file
    system are inputs of the model. *)

Definition audio := list N.

Inductive el_reply :=
| ElAudio (a : audio)                          (* [response.ok], body read *)
| ElAudioLost (err : js_error)                 (* [response.ok], [arrayBuffer()] rejects *)
| ElRefused (status : N) (errorText : jstring) (* not [response.ok] *)
| ElRefusedNoText (status : N) (err : js_error) (* not ok and [text()] rejects *)
| ElUnreachable (err : js_error).               (* [fetch] rejects *)

(** A child process that writes an audio file: it fails to start, or exits
    with a code after writing [stderr]; on code 0 the file is read. *)
Inductive proc_reply :=
| ProcError (err : js_error)
| ProcExit (code : option Z) (stderr : jstring) (file : outcome audio).

Inductive play_reply :=
| PlayWriteFails (err : js_error)     (* [Bun.write] of the temporary file *)
| PlayError (err : js_error)          (* the ['error'] event of afplay *)
| PlayExit (code : option Z).

(** [Bun.write] of the error log (line 417): the text becomes the content
    of the file, or the write is rejected and the file holds what the failed
    write left of it. *)
Inductive log_reply :=
| LogWritten
| LogWriteFails (err : js_error) (remains : list jstring).

Record env := {
  now : Z;                            (* [Date.now()] in [checkRateLimit] *)
  iso_time : jstring;                 (* [new Date().toISOString()] in the catch *)
  piper_model_present : bool;         (* [existsSync(PIPER_MODEL_PATH)] *)
  elevenlabs_reply : el_reply;
  piper_reply : proc_reply;
  say_reply : proc_reply;
  afplay_reply : play_reply;
  log_write : log_reply;
  msg_null_property : jstring;        (* the engine's TypeError text for [null.title] *)
  msg_not_primitive : jsval → jstring;  (* ... for a title without a string form *)
  msg_not_a_function : jsval → jstring  (* ... and for [message.substring] on a non-string *)
}.

(** ** The providers *)

(** Lines 181-191: what [generateSpeechElevenLabs] does when the reply is
    there.  The counter is written before the [throw]. *)
Definition quota_signal (status : N) (errorText : jstring) : bool :=
  (status =? 429) || includes (lit "quota") errorText || includes (lit "limit") errorText.

Definition elevenlabs_settle (r : el_reply) (failCount : nat) : nat * outcome audio :=
  match r with
  | ElUnreachable err => (failCount, Throw err)
  | ElRefusedNoText _ err => (failCount, Throw err)
  | ElRefused status errorText =>
      (if quota_signal status errorText then ELEVENLABS_MAX_FAILS else failCount,
       Throw (Error (lit "ElevenLabs API error: " ++ show_N status ++ lit " - " ++ errorText)))
  | ElAudioLost err => (0%nat, Throw err)
  | ElAudio a => (0%nat, Return a)
  end.

Definition generateSpeechElevenLabs (cfg : config) (r : el_reply) (failCount : nat)
  : nat * outcome audio :=
  if negb (api_key_set cfg) then
    (failCount, Throw (Error (lit "ElevenLabs API key not configured")))
  else elevenlabs_settle r failCount.

Definition code_is_zero (code : option Z) : bool :=
  match code with
  | Some z => (z =? 0)%Z
  | None => false
  end.

Definition generateSpeechPiper (cfg : config) (present : bool) (r : proc_reply)
  : outcome audio :=
  if negb present then
    Throw (Error (lit "Piper model not found at " ++ PIPER_MODEL_PATH cfg))
  else
    match r with
    | ProcError err => Throw (Error (lit "Piper process error: " ++ err_message err))
    | ProcExit code stderr file =>
        if negb (code_is_zero code) then
          Throw (Error (lit "Piper exited with code " ++ show_code code ++ lit ": " ++ stderr))
        else
          match file with
          | Return a => Return a
          | Throw err => Throw (Error (lit "Failed to read Piper output: " ++ err_message err))
          end
    end.

Definition generateSpeechMacOS (r : proc_reply) : outcome audio :=
  match r with
  | ProcError err => Throw (Error (lit "macOS say error: " ++ err_message err))
  | ProcExit code _ file =>
      if negb (code_is_zero code) then
        Throw (Error (lit "macOS say exited with code " ++ show_code code))
      else
        match file with
        | Return a => Return a
        | Throw err => Throw (Error (lit "Failed to read macOS say output: " ++ err_message err))
        end
  end.

(** ** The cascade: [generateSpeech] *)

(** Lines 271-280: the provider list of one call. *)
Definition build_providers (cfg : config) (present : bool) (failCount : nat)
  : list TTSProvider :=
  (if bool_decide (TTS_PROVIDER cfg = lit "elevenlabs") && api_key_set cfg
      && (failCount <? ELEVENLABS_MAX_FAILS)%nat
   then [elevenlabs] else [])
  ++ (if negb (bool_decide (TTS_PROVIDER cfg = lit "macos")) && present
      then [piper] else [])
  ++ [macos].

Record speech := {
  speech_audio : audio;
  speech_provider : TTSProvider;
  speech_format : audio_format
}.

(** The [switch] of the loop body. *)
Definition attempt (cfg : config) (e : env) (p : TTSProvider) (failCount : nat)
  : nat * outcome speech :=
  match p with
  | elevenlabs =>
      let '(n, r) := generateSpeechElevenLabs cfg (elevenlabs_reply e) failCount in
      (n, a ← r; Return {| speech_audio := a; speech_provider := elevenlabs; speech_format := mp3 |})
  | piper =>
      (failCount,
       a ← generateSpeechPiper cfg (piper_model_present e) (piper_reply e);
       Return {| speech_audio := a; speech_provider := piper; speech_format := wav |})
  | macos =>
      (failCount,
       a ← generateSpeechMacOS (say_reply e);
       Return {| speech_audio := a; speech_provider := macos; speech_format := aiff |})
  end.

(** The [catch] of the loop body, on the counter. *)
Definition on_catch (p : TTSProvider) (failCount : nat) : nat :=
  if bool_decide (p = elevenlabs) then S failCount else failCount.

(** The [for] loop and the final [throw lastError || new Error(...)]. *)
Fixpoint cascade (cfg : config) (e : env) (providers : list TTSProvider)
    (lastError : option js_error) (failCount : nat) : nat * outcome speech :=
  match providers with
  | [] =>
      (failCount,
       Throw (match lastError with
              | Some err => err
              | None => Error (lit "All TTS providers failed")
              end))
  | p :: rest =>
      match attempt cfg e p failCount with
      | (n, Return s) => (n, Return s)
      | (n, Throw err) => cascade cfg e rest (Some err) (on_catch p n)
      end
  end.

Definition generateSpeech (cfg : config) (e : env) (failCount : nat)
  : nat * outcome speech :=
  cascade cfg e (build_providers cfg (piper_model_present e) failCount) None failCount.

Definition playAudio (r : play_reply) : outcome unit :=
  match r with
  | PlayWriteFails err => Throw err
  | PlayError err => Throw err
  | PlayExit code =>
      if code_is_zero code then Return tt
      else Throw (Error (lit "afplay exited with code " ++ show_code code))
  end.

(** ** [sendNotification]

    The voice settings and the chime are left out: they parameterise the
    outbound ElevenLabs request and play a sound, [playChime] never rejects,
    and neither touches the state or the response.

    The catch writes the error log with [Bun.write], which has no appending
    mode: the third argument of line 417 is not one of its options, and the
    text replaces what the file held.  The write is not guarded: when it is
    rejected, [sendNotification] throws what the write threw. *)

Definition or_undefined (o : option jstring) : jstring :=
  from_option id (lit "undefined") o.

(** [error?.message || error] inside a template literal. *)
Definition message_or_error (err : js_error) : jstring :=
  match err_message err with
  | [] => error_toString err
  | msg => msg
  end.

(** The chunk written by the [catch] of [sendNotification]. *)
Definition errorLog_entry (iso : jstring) (err : js_error) (safeMessage : jstring)
  : jstring :=
  iso ++ lit " - TTS Error: " ++ message_or_error err
      ++ [Chr.newline] ++ lit "Message: " ++ safeMessage
      ++ [Chr.newline; Chr.newline].

Definition sendNotification (cfg : config) (e : env) (title message : jsval)
    (voiceEnabled : bool) (st : server_state) : server_state * outcome unit :=
  let titleValidation := validateInput title in
  let messageValidation := validateInput message in
  if negb (valid titleValidation) then
    (st, Throw (Error (lit "Invalid title: " ++ or_undefined (error titleValidation))))
  else if negb (valid messageValidation) then
    (st, Throw (Error (lit "Invalid message: " ++ or_undefined (error messageValidation))))
  else
    let safeMessage :=
      cleaned (extractEmotionalMarker (or_undefined (sanitized messageValidation))) in
    if voiceEnabled then
      let '(n, generated) := generateSpeech cfg e (elevenLabsFailCount st) in
      match (result ← generated; playAudio (afplay_reply e)) with
      | Return _ =>
          ({| requestCounts := requestCounts st; elevenLabsFailCount := n;
              error_log := error_log st |}, Return tt)
      | Throw err =>
          let errorLog := errorLog_entry (iso_time e) err safeMessage in
          match log_write e with
          | LogWritten =>
              ({| requestCounts := requestCounts st; elevenLabsFailCount := n;
                  error_log := [errorLog] |}, Return tt)
          | LogWriteFails werr remains =>
              ({| requestCounts := requestCounts st; elevenLabsFailCount := n;
                  error_log := remains |}, Throw werr)
          end
      end
    else (st, Return tt).

(** ** [checkRateLimit] *)

Definition checkRateLimit (now : Z) (ip : jstring)
    (requestCounts : gmap jstring rate_record) : bool * gmap jstring rate_record :=
  match requestCounts !! ip with
  | None =>
      (true, <[ip := {| count := 1; resetTime := (now + RATE_WINDOW)%Z |}]> requestCounts)
  | Some record =>
      if (resetTime record <? now)%Z then
        (true, <[ip := {| count := 1; resetTime := (now + RATE_WINDOW)%Z |}]> requestCounts)
      else if (RATE_LIMIT <=? count record)%nat then (false, requestCounts)
      else
        (true, <[ip := {| count := S (count record); resetTime := resetTime record |}]>
                 requestCounts)
  end.

(** ** The request handler: [fetch] *)

Record request := {
  method : jstring;
  pathname : jstring;
  x_forwarded_for : option jstring;   (* [req.headers.get('x-forwarded-for')] *)
  json_body : outcome jsval           (* [await req.json()] *)
}.

Inductive response_body :=
| NoBody
| TextBody (text : jstring)
| StatusJson (status message : jstring)   (* [{status, message}] *)
| HealthJson (elevenlabs_available : bool) (failCount : nat) (piper_available : bool).

Record response := {
  resp_status : N;
  resp_headers : list (jstring * jstring);
  resp_body : response_body
}.

Definition corsHeaders : list (jstring * jstring) :=
  [ (lit "Access-Control-Allow-Origin", lit "http://localhost");
    (lit "Access-Control-Allow-Methods", lit "GET, POST, OPTIONS");
    (lit "Access-Control-Allow-Headers", lit "Content-Type") ].

Definition jsonHeaders : list (jstring * jstring) :=
  corsHeaders ++ [ (lit "Content-Type", lit "application/json") ].

(** [data.key] for a value parsed from JSON. *)
Definition get_prop (e : env) (data : jsval) (key : string) : outcome jsval :=
  match data with
  | VObject fields => Return (from_option id VUndefined (record_get fields (lit key)))
  | VNull | VUndefined => Throw (TypeError (msg_null_property e))
  | _ => Return VUndefined
  end.

(** ToString of a value parsed from JSON throws: an object with an own
    property [toString], which is never a function and hides the inherited
    one while the inherited [valueOf] gives the object back; and an array,
    which joins the string forms of its items, when one of them throws. *)
Fixpoint throws_on_ToString (v : jsval) : bool :=
  match v with
  | VObject fields => bool_decide (is_Some (record_get fields (lit "toString")))
  | VArray items => existsb throws_on_ToString items
  | _ => false
  end.

(** The first part of the [try] of the [/notify] branch, lines 465-475: the
    arguments of [sendNotification].  The template literal of the log line
    converts the title to a string and then calls [message.substring]. *)
Definition notify_args (e : env) (req : request) : outcome (jsval * jsval * bool) :=
  data ← json_body req;
  title0 ← get_prop e data "title";
  message0 ← get_prop e data "message";
  enabled0 ← get_prop e data "voice_enabled";
  voice_id ← get_prop e data "voice_id";
  voice_name ← get_prop e data "voice_name";
  let title := js_or title0 (VString (lit "PAI Notification")) in
  let message := js_or message0 (VString (lit "Task completed")) in
  let voiceEnabled := negb (is_false enabled0) in
  let voiceId := js_or (js_or voice_id voice_name) VNull in
  if truthy voiceId && negb (is_string voiceId) then
    Throw (Error (lit "Invalid voice_id"))
  else if throws_on_ToString title then
    (* [${title}] in the log line *)
    Throw (TypeError (msg_not_primitive e title))
  else if negb (is_string message) then
    (* [message.substring(0, 50)] in the log line *)
    Throw (TypeError (msg_not_a_function e message))
  else Return (title, message, voiceEnabled).

(** The body of the [try] of the [/notify] branch. *)
Definition notify (cfg : config) (e : env) (req : request) (st : server_state)
  : server_state * outcome unit :=
  match notify_args e req with
  | Throw err => (st, Throw err)
  | Return (title, message, voiceEnabled) =>
      sendNotification cfg e title message voiceEnabled st
  end.

Definition error_status (err : js_error) : N :=
  if includes (lit "Invalid") (err_message err) then 400 else 500.

(** [req.headers.get('x-forwarded-for') || 'localhost'] *)
Definition client_ip (req : request) : jstring :=
  match x_forwarded_for req with
  | Some (c :: s) => c :: s
  | _ => lit "localhost"
  end.

Definition fetch (cfg : config) (e : env) (req : request) (st : server_state)
  : response * server_state :=
  let clientIp := client_ip req in
  if bool_decide (method req = lit "OPTIONS") then
    ({| resp_status := 204; resp_headers := corsHeaders; resp_body := NoBody |}, st)
  else
    let '(allowed, counts) := checkRateLimit (now e) clientIp (requestCounts st) in
    let st1 := {| requestCounts := counts;
                  elevenLabsFailCount := elevenLabsFailCount st;
                  error_log := error_log st |} in
    if negb allowed then
      ({| resp_status := 429; resp_headers := jsonHeaders;
          resp_body := StatusJson (lit "error") (lit "Rate limit exceeded") |}, st1)
    else if bool_decide (pathname req = lit "/notify")
            && bool_decide (method req = lit "POST") then
      match notify cfg e req st1 with
      | (st2, Return _) =>
          ({| resp_status := 200; resp_headers := jsonHeaders;
              resp_body := StatusJson (lit "success") (lit "Notification sent") |}, st2)
      | (st2, Throw err) =>
          ({| resp_status := error_status err; resp_headers := jsonHeaders;
              resp_body :=
                StatusJson (lit "error")
                  (match err_message err with
                   | [] => lit "Internal server error"
                   | msg => msg
                   end) |}, st2)
      end
    else if bool_decide (pathname req = lit "/health") then
      ({| resp_status := 200; resp_headers := jsonHeaders;
          resp_body := HealthJson (api_key_set cfg) (elevenLabsFailCount st1)
                         (piper_model_present e) |}, st1)
    else
      ({| resp_status := 200; resp_headers := corsHeaders;
          resp_body :=
            TextBody (lit "PAI Voice Server - POST to /notify (Cascading TTS: ElevenLabs "
                      ++ [0x2192] ++ lit " Piper " ++ [0x2192] ++ lit " macOS)") |},
       st1).

(** The server handling a sequence of requests one after the other. *)
Fixpoint serve (cfg : config) (reqs : list (env * request)) (st : server_state)
  : list response * server_state :=
  match reqs with
  | [] => ([], st)
  | (e, req) :: rest =>
      let '(r, st1) := fetch cfg e req st in
      let '(rs, st2) := serve cfg rest st1 in
      (r :: rs, st2)
  end.

(** ** Overlapping calls of [generateSpeech]

    [fetch] above runs one request to its end.  The runtime serves requests
    concurrently: a handler gives way at every [await] and another one runs
    meanwhile.  [requestCounts] is only touched before the first [await] of
    a handler, so overlapping does not show on it, and the error log is no
    part of the steps below.  [elevenLabsFailCount] is read when a call of
    [generateSpeech] builds its provider list, written when the reply of
    ElevenLabs is there (lines 181-190) and incremented by the [catch] of
    the loop (line 305).
    These three are the atomic steps below; Piper and macOS never touch the
    counter.  The test of the API key in [generateSpeechElevenLabs] runs
    before the first [await], in the step that builds the list, and passes
    whenever ElevenLabs is in the list. *)

Module Overlap.

Inductive phase :=
| Fetching   (* ElevenLabs is first in the list; its reply is awaited *)
| Thrown     (* [generateSpeechElevenLabs] has thrown; the [catch] is due *)
| Local.     (* ElevenLabs not in the list, or done with *)

#[global] Instance phase_eq_dec : EqDecision phase.
Proof. solve_decision. Defined.

Record world := {
  failCount : nat;
  calls : gmap nat phase
}.

Inductive event :=
| Enter (id : nat) (piper_present : bool)  (* a call of [generateSpeech] starts *)
| Reply (id : nat) (r : el_reply)          (* the awaited reply arrives *)
| Catch (id : nat).                        (* the [catch] of the loop runs *)

Definition first_phase (providers : list TTSProvider) : phase :=
  match providers with
  | elevenlabs :: _ => Fetching
  | _ => Local
  end.

Definition step (cfg : config) (w : world) (ev : event) : option world :=
  match ev with
  | Enter id present =>
      match calls w !! id with
      | Some _ => None
      | None =>
          Some {| failCount := failCount w;
                  calls := <[id := first_phase (build_providers cfg present (failCount w))]>
                             (calls w) |}
      end
  | Reply id r =>
      match calls w !! id with
      | Some Fetching =>
          let '(n, res) := elevenlabs_settle r (failCount w) in
          Some {| failCount := n;
                  calls := <[id := match res with
                                    | Return _ => Local
                                    | Throw _ => Thrown
                                    end]> (calls w) |}
      | _ => None
      end
  | Catch id =>
      match calls w !! id with
      | Some Thrown =>
          Some {| failCount := on_catch elevenlabs (failCount w);
                  calls := <[id := Local]> (calls w) |}
      | _ => None
      end
  end.

Fixpoint run (cfg : config) (evs : list event) (w : world) : option world :=
  match evs with
  | [] => Some w
  | ev :: rest =>
      match step cfg w ev with
      | Some w' => run cfg rest w'
      | None => None
      end
  end.

(** No call is waiting for a reply of ElevenLabs. *)
Definition quiet (w : world) : Prop :=
  ∀ id, calls w !! id ≠ Some Fetching.

(** The events of one call that runs alone. *)
Definition solo (cfg : config) (e : env) (id : nat) (n : nat) : list event :=
  Enter id (piper_model_present e) ::
  match build_providers cfg (piper_model_present e) n with
  | elevenlabs :: _ =>
      Reply id (elevenlabs_reply e) ::
      match snd (elevenlabs_settle (elevenlabs_reply e) n) with
      | Return _ => []
      | Throw _ => [Catch id]
      end
  | _ => []
  end.

End Overlap.

(** ** The completion extractor of the session hook

    The hook that reads the transcript ([hooks/stop-hook-voice.ts], with
    [extractCompletion]) is not among the sources; only the changelog names
    it.  This module follows section 4.1 of the specification.  What the
    specification leaves open (the shape of an agent tag, the speech
    cleaner, rules 2 to 6 of the cascade and the rule that combines file
    modifications) is a parameter of the extractor. *)

Module Completion.

(** Modelled from the spec: the tool names of the description table of the
    absent hook. *)
Inductive tool :=
| EditFile | WriteFile | RunCommand | ReadFile | FileGlob | TextSearch
| SpawnTask | WebFetch | WebSearch | OtherTool.

(** Modelled from the spec: a tool-invocation block of the absent hook's
    transcript format, with the two inputs the table reads. *)
Record tool_use := {
  tool_name : tool;
  target_path : option jstring;
  caller_description : option jstring
}.

(** Modelled from the spec: the typed content blocks of a transcript record
    read by the absent hook. *)
Inductive block :=
| TextBlock (text : jstring)
| ToolUseBlock (u : tool_use)
| ToolResultBlock.

(** Modelled from the spec: the [content] of a transcript record of the
    absent hook, a text or an ordered sequence of blocks. *)
Inductive content :=
| Plain (text : jstring)
| Blocks (bs : list block).

(** Modelled from the spec: the [type] of a transcript record of the absent
    hook. *)
Inductive event_type := User | Assistant | OtherEvent.

(** Modelled from the spec: one parsed line of the transcript read by the
    absent hook. *)
Record event := {
  ev_type : event_type;
  ev_content : content
}.

(** Modelled from the spec: the transcript of the absent hook, line by
    line; [None] is a line that does not parse and is skipped. *)
Definition transcript := list (option event).

(** Modelled from the spec: the absent hook's test for a tool-result
    block. *)
Definition is_tool_result (b : block) : bool :=
  match b with ToolResultBlock => true | _ => false end.

(** Modelled from the spec: the absent hook's true turn boundary, a
    [user] record whose content is not wholly tool-result blocks. *)
Definition is_boundary (l : option event) : bool :=
  match l with
  | Some {| ev_type := User; ev_content := Plain _ |} => true
  | Some {| ev_type := User; ev_content := Blocks bs |} => negb (forallb is_tool_result bs)
  | _ => false
  end.

(** Modelled from the spec: the backward scan of the absent hook, which
    stops at the first true turn boundary. *)
Fixpoint scan_back (r : transcript) : transcript :=
  match r with
  | [] => []
  | l :: r' => if is_boundary l then [l] else l :: scan_back r'
  end.

(** Modelled from the spec: the TurnWindow of the absent hook, from the
    last true turn boundary to the end, or the whole transcript. *)
Definition turn_window (t : transcript) : transcript := rev (scan_back (rev t)).

(** Modelled from the spec: the texts of one record, for the absent hook's
    collection of assistant text. *)
Definition event_texts (e : event) : list jstring :=
  match ev_type e, ev_content e with
  | Assistant, Plain s => [s]
  | Assistant, Blocks bs =>
      omap (λ b, match b with TextBlock s => Some s | _ => None end) bs
  | _, _ => []
  end.

(** Modelled from the spec: the assistant texts of the window, in order,
    as the absent hook meets them. *)
Definition assistant_texts (w : transcript) : list jstring :=
  mjoin (omap (fmap event_texts) w : list (list jstring)).

(** Modelled from the spec: the last non-empty assistant text collected by
    the absent hook (overwriting, not appending). *)
Definition last_assistant_text (w : transcript) : jstring :=
  foldl (λ acc s, match s with [] => acc | _ => s end) [] (assistant_texts w).

(** Modelled from the spec: the tool-invocation blocks of the window, in
    order, as the absent hook collects them. *)
Definition tool_uses (w : transcript) : list tool_use :=
  mjoin (omap (fmap (λ e : event,
    match ev_type e, ev_content e with
    | Assistant, Blocks bs =>
        omap (λ b, match b with ToolUseBlock u => Some u | _ => None end) bs
    | _, _ => []
    end)) w).

(** Modelled from the spec: the base name of a path in the absent hook's
    description table. *)
Definition basename (path : jstring) : jstring :=
  rev (takeWhile (λ c, negb (c =? Chr.slash)) (rev path)).

(** Modelled from the spec: the tool-call-to-description table of the
    absent hook. *)
Definition describe (u : tool_use) : option jstring :=
  match tool_name u with
  | EditFile => (λ p, lit "Modified " ++ basename p) <$> target_path u
  | WriteFile => (λ p, lit "Created " ++ basename p) <$> target_path u
  | RunCommand => caller_description u
  | ReadFile => (λ p, lit "Read " ++ basename p) <$> target_path u
  | FileGlob | TextSearch => Some (lit "Searched codebase")
  | SpawnTask => Some (from_option id (lit "Ran subagent task") (caller_description u))
  | WebFetch | WebSearch => Some (lit "Searched the web")
  | OtherTool => None
  end.

(** Modelled from the spec: the concrete file modifications detected by the
    absent hook's tool-call collector. *)
Definition modifications (us : list tool_use) : list jstring :=
  omap (λ u, match tool_name u with
             | EditFile | WriteFile => describe u
             | _ => None
             end) us.

(** Modelled from the spec: the lines of the assistant text scanned by the
    absent hook. *)
Fixpoint split_lines (s : jstring) : list jstring :=
  match s with
  | [] => [[]]
  | c :: t =>
      if c =? Chr.newline then [] :: split_lines t
      else match split_lines t with
           | l :: ls => (c :: l) :: ls
           | [] => [[c]]
           end
  end.

(** Modelled from the spec: an optional piece of markup in front of the
    absent hook's marker label. *)
Definition skip_opt (p s : jstring) : jstring :=
  if startsWith p s then drop (length p) s else s.

(** Modelled from the spec: the labels of the absent hook's explicit
    marker. *)
Definition marker_labels : list jstring := [lit "COMPLETED:"; lit "Done:"].

(** Modelled from the spec: rule 1 of the absent hook on one line, a
    "COMPLETED:" or "Done:" label with or without a leading target emoji
    and with or without bold markup; the remainder of the line is
    captured. *)
Definition marker_trailing (line : jstring) : option jstring :=
  let l1 := skip_opt (lit "**") (trimStart line) in
  let l2 := trimStart (skip_opt Emoji.target l1) in
  let l3 := skip_opt (lit "**") l2 in
  match match_alt marker_labels l3 with
  | Some label => Some (skip_opt (lit "**") (drop (length label) l3))
  | None => None
  end.

(** Modelled from the spec: the first marker line found by the absent
    hook. *)
Fixpoint first_marker (ls : list jstring) : option jstring :=
  match ls with
  | [] => None
  | l :: rest =>
      match marker_trailing l with
      | Some t => Some t
      | None => first_marker rest
      end
  end.

(** Modelled from the spec: the white-space-delimited words of the absent
    hook's truncation. *)
Fixpoint words_from (cur s : jstring) : list jstring :=
  match s with
  | [] => match cur with [] => [] | _ => [rev cur] end
  | c :: t =>
      if is_space c then
        match cur with
        | [] => words_from [] t
        | _ => rev cur :: words_from [] t
        end
      else words_from (c :: cur) t
  end.

(** Modelled from the spec: see [words_from]. *)
Definition words (s : jstring) : list jstring := words_from [] s.

(** Modelled from the spec: the words of the absent hook's truncation put
    together again. *)
Fixpoint unwords (ws : list jstring) : jstring :=
  match ws with
  | [] => []
  | [w] => w
  | w :: rest => w ++ Chr.space :: unwords rest
  end.

(** Modelled from the spec: the absent hook's truncation to the first [n]
    words, without ellipsis. *)
Definition truncate_words (n : nat) (s : jstring) : jstring :=
  unwords (take n (words s)).

Section Extractor.

(** Modelled from the spec: the length of the agent tag in front of a text,
    0 without one; the absent hook fixes the shape of the tag. *)
Variable agent_tag_length : jstring → nat.
(** Modelled from the spec: the speech cleaner that the absent hook applies
    to the winning description. *)
Variable speechClean : jstring → jstring.
(** Modelled from the spec: rules 2 to 6 of the absent hook's cascade, on
    the text and the tool descriptions. *)
Variable later_rules : jstring → list jstring → jstring.
(** Modelled from the spec: the combination rule of step 4 of the absent
    hook, on the file modifications. *)
Variable combine : list jstring → jstring.

(** Modelled from the spec: the captured remainder of a marker line of
    the absent hook, trimmed and stripped of a leading agent tag. *)
Definition marker_text (t : jstring) : jstring :=
  let t' := trim t in trim (drop (agent_tag_length t') t').

(** Modelled from the spec: rule 1 of the absent hook's cascade. *)
Definition rule_marker (text : jstring) : option jstring :=
  marker_text <$> first_marker (split_lines text).

(** Modelled from the spec: the description cascade of the absent hook;
    the first rule with a non-empty result wins. *)
Definition cascade (text : jstring) (tools : list jstring) : jstring :=
  match rule_marker text with
  | Some (c :: d) => c :: d
  | _ => later_rules text tools
  end.

(** Modelled from the spec: the post-cascade override of the absent
    hook. *)
Definition override (mods : list jstring) (d : jstring) : jstring :=
  match mods with
  | [] => d
  | _ :: _ => if (length d <? 10)%nat then combine mods else d
  end.

(** Modelled from the spec: the description computed by the absent
    [extractCompletion] and its cleaning, for a whole transcript. *)
Definition extractCompletion (t : transcript) : jstring :=
  let w := turn_window t in
  let uses := tool_uses w in
  let d := cascade (last_assistant_text w) (omap describe uses) in
  truncate_words 10 (speechClean (override (modifications uses) d)).

End Extractor.

End Completion.

(** ** Predicates used in the statements *)

(** A matcher whose replacement text is made of code units of the text it
    was given keeps every property of the code units. *)
Definition keeps (P : N → Prop) (m : matcher) : Prop :=
  ∀ s n r, m s = Some (n, r) → Forall P s → Forall P r.

(** No text of the list is a proper prefix of another. *)
Definition prefix_free (alts : list jstring) : bool :=
  forallb (λ a, forallb (λ b, bool_decide (a = b) || negb (startsWith a b)) alts) alts.

(** A rejection: [valid] is false, an error message is given and no
    sanitized text. *)
Definition is_rejection (v : validation) : Prop :=
  valid v = false ∧ is_Some (error v) ∧ sanitized v = None.

Definition accepted (s : jstring) : validation :=
  {| valid := true; error := None; sanitized := Some s |}.

(** Markdown emphasis, code or heading markup: one of the four markdown
    patterns of the sanitizer matches somewhere. *)
Definition has_markdown_markup (s : jstring) : bool :=
  matches_somewhere re_bold s || matches_somewhere re_italic s
  || matches_somewhere re_code s || matches_somewhere re_heading s.

(** No unsafe content: no script-tag opener, no [../], no shell
    metacharacter, no markdown markup. *)
Definition unsafe_free (s : jstring) : bool :=
  negb (includes_ci (lit "<script") s) && negb (includes (lit "../") s)
  && negb (existsb is_shell_meta s) && negb (has_markdown_markup s).

(** The round trip of claim C7 read on every message. *)
Definition round_trip_for_every_message : Prop :=
  ∀ m : jstring, unsafe_free m = true → (length m ≤ 500)%nat →
    validateInput (VString m) = accepted (trim m).

(** A match of a pattern stays a match when text is added behind. *)
Definition ext_stable (m : matcher) : Prop :=
  ∀ s y n r, m s = Some (S n, r) → ∃ n' r', m (s ++ y) = Some (S n', r').

(** The rate limiter answering a sequence of requests, each with its time
    and client address. *)
Fixpoint limiter_run (reqs : list (Z * jstring)) (counts : gmap jstring rate_record)
  : list bool * gmap jstring rate_record :=
  match reqs with
  | [] => ([], counts)
  | (t, ip) :: rest =>
      let '(ok, c1) := checkRateLimit t ip counts in
      let '(oks, c2) := limiter_run rest c1 in
      (ok :: oks, c2)
  end.

(** How many requests of [ip] were admitted. *)
Fixpoint admitted (ip : jstring) (reqs : list (Z * jstring)) (answers : list bool) : nat :=
  match reqs, answers with
  | (_, ip') :: rs, ok :: oks =>
      ((if bool_decide (ip' = ip) && ok then 1 else 0) + admitted ip rs oks)%nat
  | _, _ => 0%nat
  end.

(** How many requests [ip] made. *)
Fixpoint requests_of (ip : jstring) (reqs : list (Z * jstring)) : nat :=
  match reqs with
  | [] => 0%nat
  | (_, ip') :: rs => ((if bool_decide (ip' = ip) then 1 else 0) + requests_of ip rs)%nat
  end.

(** No window of [ip] is open at time [t]: no record, or its reset time has
    passed. *)
Definition no_window (counts : gmap jstring rate_record) (ip : jstring) (t : Z) : Prop :=
  match counts !! ip with
  | None => True
  | Some r => (resetTime r < t)%Z
  end.

Definition too_many_requests : response :=
  {| resp_status := 429; resp_headers := jsonHeaders;
     resp_body := StatusJson (lit "error") (lit "Rate limit exceeded") |}.

Definition notification_sent : response :=
  {| resp_status := 200; resp_headers := jsonHeaders;
     resp_body := StatusJson (lit "success") (lit "Notification sent") |}.

(** The state once the limiter has admitted the request. *)
Definition admitted_state (e : env) (req : request) (st : server_state) : server_state :=
  {| requestCounts := (checkRateLimit (now e) (client_ip req) (requestCounts st)).2;
     elevenLabsFailCount := elevenLabsFailCount st;
     error_log := error_log st |}.

(** [{...data, key: v}] for a value parsed from JSON. *)
Definition with_prop (key : string) (v : jsval) (data : jsval) : jsval :=
  VObject ((lit key, v) :: match data with VObject fields => fields | _ => [] end).

Definition with_body (req : request) (data : jsval) : request :=
  {| method := method req; pathname := pathname req;
     x_forwarded_for := x_forwarded_for req; json_body := Return data |}.

(** Claim C1 read on every run of overlapping calls: once a reply of
    ElevenLabs carried a quota signal, no later provider list holds
    ElevenLabs. *)
Definition sticky_in_every_run (cfg : config) : Prop :=
  ∀ evs1 w id status errorText w1 evs2 w2 present,
    Overlap.run cfg evs1 {| Overlap.failCount := 0; Overlap.calls := ∅ |} = Some w →
    Overlap.step cfg w (Overlap.Reply id (ElRefused status errorText)) = Some w1 →
    quota_signal status errorText = true →
    Overlap.run cfg evs2 w1 = Some w2 →
    elevenlabs ∉ build_providers cfg present (Overlap.failCount w2).

(** A configuration with the ElevenLabs key set and ElevenLabs preferred. *)
Definition cloud_config : config :=
  {| ELEVENLABS_API_KEY := Some (lit "sk_test");
     TTS_PROVIDER := lit "elevenlabs";
     PIPER_MODEL_PATH := lit "/models/en_US-lessac-medium.onnx" |}.

(** An environment in which every provider and the player fail. *)
Definition all_down : env :=
  {| now := 1000; iso_time := lit "2025-12-31T10:00:00.000Z";
     piper_model_present := true;
     elevenlabs_reply := ElRefused 500 (lit "Internal error");
     piper_reply := ProcExit (Some 1%Z) (lit "no voice") (Throw (Error []));
     say_reply := ProcExit (Some 1%Z) [] (Throw (Error []));
     afplay_reply := PlayExit (Some 0%Z);
     log_write := LogWritten;
     msg_null_property := lit "null is not an object";
     msg_not_primitive := λ _, lit "No default value";
     msg_not_a_function := λ _, lit "message.substring is not a function" |}.

(** An environment in which ElevenLabs answers with audio and it plays. *)
Definition all_up : env :=
  {| now := 1000; iso_time := lit "2025-12-31T10:00:00.000Z";
     piper_model_present := true;
     elevenlabs_reply := ElAudio [1; 2; 3];
     piper_reply := ProcExit (Some 0%Z) [] (Return [4; 5]);
     say_reply := ProcExit (Some 0%Z) [] (Return [6]);
     afplay_reply := PlayExit (Some 0%Z);
     log_write := LogWritten;
     msg_null_property := lit "null is not an object";
     msg_not_primitive := λ _, lit "No default value";
     msg_not_a_function := λ _, lit "message.substring is not a function" |}.

Definition post_notify (data : jsval) : request :=
  {| method := lit "POST"; pathname := lit "/notify";
     x_forwarded_for := None; json_body := Return data |}.

(** The text of a bracketed tag: an opening bracket, the emoji, white space,
    the label and a closing bracket. *)
Definition tag_text (emoji ws label : jstring) : jstring :=
  Chr.lbracket :: emoji ++ ws ++ label ++ [Chr.rbracket].

(** A well-formed tag: one of the 13 emojis, some white space, a label of
    word characters. *)
Definition is_tag (emoji ws label : jstring) : Prop :=
  emoji ∈ tag_emojis
  ∧ ws ≠ [] ∧ Forall (λ c, is_space c = true) ws
  ∧ label ≠ [] ∧ Forall (λ c, is_word c = true) label.

(** The lower-cased label is the emotion name of the emoji in the table. *)
Definition agrees (emoji label : jstring) : Prop :=
  record_get emojiToEmotion emoji = Some (toLowerCase label).

(** The message contains a tag whose emoji and label agree. *)
Definition has_agreeing_tag (message : jstring) : Prop :=
  ∃ pre emoji ws label post,
    message = pre ++ tag_text emoji ws label ++ post
    ∧ is_tag emoji ws label ∧ agrees emoji label.

(** The leftmost tag of the message: no tag begins before it. *)
Definition first_tag (message pre emoji ws label post : jstring) : Prop :=
  message = pre ++ tag_text emoji ws label ++ post
  ∧ is_tag emoji ws label
  ∧ ∀ pre' emoji' ws' label' post',
      message = pre' ++ tag_text emoji' ws' label' ++ post' →
      is_tag emoji' ws' label' → (length pre ≤ length pre')%nat.

(** Claim C6 read on every sanitized message: an emotion comes out exactly
    when some tag of the message agrees. *)
Definition emotion_iff_some_tag_agrees : Prop :=
  ∀ raw : jstring,
    let message := sanitizeForSpeech raw in
    is_Some (emotion (extractEmotionalMarker message)) ↔ has_agreeing_tag message.

(** A message with a tag that does not agree followed by one that does. *)
Definition two_tags : jstring :=
  lit "[" ++ Emoji.party ++ lit " foo] [" ++ Emoji.collision ++ lit " excited]".

(** Claim C9 read on every transcript, for an extractor with the given
    parameters: whenever an assistant text of the turn window has a marker
    line, the description is the trailing text of that line, trimmed and
    without agent tag. *)
Definition marker_always_wins (agent_tag_length : jstring → nat)
    (speechClean : jstring → jstring) (later_rules : jstring → list jstring → jstring)
    (combine : list jstring → jstring) : Prop :=
  ∀ (t : Completion.transcript) (text line trailing : jstring),
    text ∈ Completion.assistant_texts (Completion.turn_window t) →
    line ∈ Completion.split_lines text →
    Completion.marker_trailing line = Some trailing →
    Completion.extractCompletion agent_tag_length speechClean later_rules combine t
    = Completion.marker_text agent_tag_length trailing.

Definition assistant_says (text : jstring) : option Completion.event :=
  Some {| Completion.ev_type := Completion.Assistant;
          Completion.ev_content := Completion.Plain text |}.

Definition user_says (text : jstring) : option Completion.event :=
  Some {| Completion.ev_type := Completion.User;
          Completion.ev_content := Completion.Plain text |}.

(** A transcript whose marker line carries twelve words. *)
Definition twelve_words : jstring :=
  lit "one two three four five six seven eight nine ten eleven twelve".

Definition long_marker : Completion.transcript :=
  [ user_says (lit "please count");
    assistant_says (lit "COMPLETED: " ++ twelve_words) ].

(** An agent tag read as a leading bracket up to its closing bracket and the
    white space behind it. *)
Definition bracket_tag_length (s : jstring) : nat :=
  match s with
  | c :: rest =>
      if c =? Chr.lbracket then
        let inside := takeWhile (λ c, negb (c =? Chr.rbracket)) rest in
        (2 + length inside
         + length (takeWhile is_space (drop (S (length inside)) rest)))%nat
      else 0%nat
  | [] => 0%nat
  end.

Definition tagged_marker : Completion.transcript :=
  [ user_says (lit "fix the login");
    None;
    assistant_says (lit "Looking into it.");
    assistant_says
      (lit "All set." ++ [Chr.newline] ++ Emoji.target
       ++ lit " COMPLETED: [AGENT:engineer] Fixed the login bug in auth module"
       ++ [Chr.newline] ++ lit "Created a follow-up note.") ].

(** A word holds no white space. *)
Definition spacefree (w : jstring) : Prop := Forall (λ c, is_space c = false) w.

(** A transcript whose marker line is in an assistant text that a later one
    overwrites. *)
Definition overwritten_marker : Completion.transcript :=
  [ user_says (lit "rename the module");
    assistant_says (lit "COMPLETED: Renamed the module everywhere");
    assistant_says (lit "Anything else?") ].

(** ** Start-up: the environment file and the constants

    Lines 11-50.  [process.env] is an ordinary object whose own properties
    are the variables; [join] and [homedir] are the functions of the
    runtime's [path] and [os] modules and stay abstract. *)

(** The names every plain object inherits from [Object.prototype]. *)
Definition object_prototype_names : list jstring :=
  lit <$> [ "constructor"; "__proto__"; "hasOwnProperty"; "isPrototypeOf";
            "propertyIsEnumerable"; "toLocaleString"; "toString"; "valueOf";
            "__defineGetter__"; "__defineSetter__"; "__lookupGetter__";
            "__lookupSetter__" ]%string.

(** What [obj[key]] finds on a plain object: an own property, a value
    inherited from the prototype (a function, or the prototype itself:
    truthy, and without any of the own properties' fields), or nothing. *)
Inductive property (A : Type) :=
| Own (a : A)
| Inherited
| Missing.
Arguments Own {A} a.
Arguments Inherited {A}.
Arguments Missing {A}.

Definition js_get {A} (obj : list (jstring * A)) (key : jstring) : property A :=
  match record_get obj key with
  | Some a => Own a
  | None => if bool_decide (key ∈ object_prototype_names) then Inherited else Missing
  end.

(** [s.split(sep)] for a separator of one code unit. *)
Fixpoint split_on (sep : N) (s : jstring) : list jstring :=
  match s with
  | [] => [[]]
  | c :: t =>
      if c =? sep then [] :: split_on sep t
      else match split_on sep t with
           | l :: ls => (c :: l) :: ls
           | [] => [[c]]
           end
  end.

Module EnvChr.
Definition equals : N := 61.
Definition dquote : N := 34.
Definition squote : N := 39.
Definition tilde : N := 126.
Definition cr : N := 13.
End EnvChr.

(** [.] without the [s] flag: any code unit but a line terminator. *)
Definition is_line_terminator (c : N) : bool :=
  (c =? 10) || (c =? 13) || (c =? 0x2028) || (c =? 0x2029).

Definition any_char (c : N) : bool := negb (is_line_terminator c).

(** [[^#=]] *)
Definition is_key_char (c : N) : bool :=
  negb ((c =? Chr.hash) || (c =? EnvChr.equals)).

(** The class of line 27: a double or a single quote. *)
Definition is_quote (c : N) : bool := (c =? EnvChr.dquote) || (c =? EnvChr.squote).

(** The pattern of line 24 between its anchors: a group of [[^#=]+], the
    sign [=] and a group of any number of [.], which is [.+] or nothing,
    longest first. *)
Definition rx_env_line : regex :=
  RSeq (RGroup (RPlus is_key_char))
    (RSeq (RChar (N.eqb EnvChr.equals)) (RGroup (RAlt (RPlus any_char) REps))).

(** [line.match] of line 24: with [^] the only position tried is the start
    of the line, and [$] lets the match end only where the line ends.  The
    result holds the two groups. *)
Definition env_match (line : jstring) : option (jstring * jstring) :=
  match exec rx_env_line line []
          (λ rest caps, if bool_decide (rest = []) then Some caps else None) with
  | Some [k; v] => Some (k, v)
  | _ => None
  end.

(** The replacement of line 27, with the [g] flag: a quote after [^] or a
    quote before [$] is removed.  The text is scanned from the left;
    [start] tells whether the position is the start of the text. *)
Fixpoint strip_quotes_from (start : bool) (s : jstring) : jstring :=
  match s with
  | [] => []
  | c :: t =>
      if is_quote c && (start || bool_decide (t = [])) then strip_quotes_from false t
      else c :: strip_quotes_from false t
  end.

Definition strip_quotes (s : jstring) : jstring := strip_quotes_from true s.

(** Lines 24-27: the key and the value a line of the file defines. *)
Definition env_line (line : jstring) : option (jstring * jstring) :=
  match env_match line with
  | Some (k, v) => Some (trim k, strip_quotes (trim v))
  | None => None
  end.

(** [process.env[key]] read as a condition. *)
Definition env_has (penv : gmap jstring jstring) (key : jstring) : bool :=
  match penv !! key with
  | Some v => negb (bool_decide (v = []))
  | None => bool_decide (key ∈ object_prototype_names)
  end.

(** The body of the [forEach] of lines 23-32. *)
Definition load_line (penv : gmap jstring jstring) (line : jstring)
  : gmap jstring jstring :=
  match env_line line with
  | Some (key, value) =>
      if negb (bool_decide (key = [])) && negb (env_has penv key)
      then <[key := value]> penv
      else penv
  | None => penv
  end.

(** [process.env] once the text of the file has been read. *)
Definition load_env (envContent : jstring) (penv : gmap jstring jstring)
  : gmap jstring jstring :=
  foldl load_line penv (split_on Chr.newline envContent).

(** [process.env.NAME || dflt] for a variable name of the source. *)
Definition env_or (penv : gmap jstring jstring) (name : string) (dflt : jstring)
  : jstring :=
  match penv !! lit name with
  | Some (c :: v) => c :: v
  | _ => dflt
  end.

Section Startup.

Variable homedir : jstring.
Variable join : list jstring → jstring.

Definition expandPath (path : jstring) : jstring :=
  match path with
  | c :: rest => if c =? EnvChr.tilde then join [homedir; rest] else path
  | [] => []
  end.

(** Line 19, from the environment the process was started with. *)
Definition paiDir (penv0 : gmap jstring jstring) : jstring :=
  expandPath (env_or penv0 "PAI_DIR" (join [homedir; lit ".claude"])).

(** Lines 21-33: the environment after start-up; [envFile] is the text of
    [.env] in [paiDir], when there is such a file. *)
Definition startup_env (penv0 : gmap jstring jstring) (envFile : option jstring)
  : gmap jstring jstring :=
  match envFile with
  | Some envContent => load_env envContent penv0
  | None => penv0
  end.

(** Lines 36, 49 and 50. *)
Definition startup_config (penv0 : gmap jstring jstring) (envFile : option jstring)
  : config :=
  let penv := startup_env penv0 envFile in
  {| ELEVENLABS_API_KEY := penv !! lit "ELEVENLABS_API_KEY";
     TTS_PROVIDER := env_or penv "TTS_PROVIDER" (lit "elevenlabs");
     PIPER_MODEL_PATH :=
       expandPath
         (env_or penv "PIPER_MODEL_PATH"
            (join [paiDir penv0; lit "voice-server"; lit "piper-models";
                   lit "en_US-lessac-medium.onnx"])) |}.

End Startup.

(** ** Voices and voice settings

    The decimal constants of the source are read as the nearest doubles,
    as JavaScript reads them. *)

Set Warnings "-inexact-float".

(** The voice personalities file is taken to have the shape of the
    interfaces [VoiceConfig] and [VoicesConfig]; [voices] lists the own
    properties of the object in the order [Object.values] gives them. *)
Record VoiceConfig := {
  voice_id : jstring;
  voice_name : jstring;
  stability : float;
  similarity_boost : float;
  description : jstring
}.

Record VoicesConfig := {
  default_volume : jsval;               (* [undefined] when absent *)
  voices : list (jstring * VoiceConfig)
}.

(** The argument [voiceSettings] of [generateSpeech]: two numbers, or a
    value that carries none (an inherited function, or an object whose two
    fields are [undefined]). *)
Inductive voice_settings :=
| Settings (stability similarity_boost : float)
| NoNumbers.

Definition EMOTIONAL_PRESETS : list (jstring * voice_settings) :=
  [ (lit "excited", Settings 0.7 0.9);
    (lit "celebration", Settings 0.65 0.85);
    (lit "insight", Settings 0.55 0.8);
    (lit "creative", Settings 0.5 0.75);
    (lit "success", Settings 0.6 0.8);
    (lit "progress", Settings 0.55 0.75);
    (lit "investigating", Settings 0.6 0.85);
    (lit "debugging", Settings 0.55 0.8);
    (lit "learning", Settings 0.5 0.75);
    (lit "pondering", Settings 0.65 0.8);
    (lit "focused", Settings 0.7 0.85);
    (lit "caution", Settings 0.4 0.6);
    (lit "urgent", Settings 0.3 0.9) ].

(** Lines 119-126; [null] is [Missing]. *)
Definition getVoiceConfig (voicesConfig : option VoicesConfig) (identifier : jstring)
  : property VoiceConfig :=
  match voicesConfig with
  | None => Missing
  | Some vc =>
      match js_get (voices vc) identifier with
      | Own c => Own c
      | Inherited => Inherited
      | Missing =>
          match find (λ c, bool_decide (voice_id c = identifier)) (snd <$> voices vc) with
          | Some c => Own c
          | None => Missing
          end
      end
  end.

(** Lines 389-400 of [sendNotification]: the settings for an emotion hint
    and the configuration of the voice. *)
Definition voiceSettings (emotion : option jstring) (voiceConfig : property VoiceConfig)
  : voice_settings :=
  let by_voice :=
    match voiceConfig with
    | Own c => Settings (stability c) (similarity_boost c)
    | Inherited => NoNumbers
    | Missing => Settings 0.5 0.5
    end in
  match emotion with
  | Some (c :: name) =>
      match js_get EMOTIONAL_PRESETS (c :: name) with
      | Own preset => preset
      | Inherited => NoNumbers
      | Missing => by_voice
      end
  | _ => by_voice
  end.

(** What [sendNotification] hands to [generateSpeech] (lines 378-410) for a
    message that passed validation: the text, the voice and the settings. *)
Record speech_request := {
  sr_text : jstring;
  sr_voice : jstring;
  sr_settings : voice_settings
}.

Definition speech_request_of (default_voice : jstring) (voicesConfig : option VoicesConfig)
    (sanitizedMessage : jstring) (voiceId : option jstring) : speech_request :=
  let marker := extractEmotionalMarker sanitizedMessage in
  let voice := match voiceId with Some (c :: v) => c :: v | _ => default_voice end in
  {| sr_text := cleaned marker;
     sr_voice := voice;
     sr_settings := voiceSettings (emotion marker) (getVoiceConfig voicesConfig voice) |}.

(** Lines 313-319. *)
Definition getVolumeSetting (voicesConfig : option VoicesConfig) : float :=
  match voicesConfig with
  | Some vc =>
      match default_volume vc with
      | VNumber vol =>
          if PrimFloat.leb 0 vol && PrimFloat.leb vol 1 then vol else 0.8%float
      | _ => 0.8%float
      end
  | None => 0.8%float
  end.

(** ** Further predicates used in the statements *)

(** A matcher whose replacement is no longer than what it replaces, and
    whose match lies within the text. *)
Definition shrinks (m : matcher) : Prop :=
  ∀ s n r, m s = Some (n, r) → (length r ≤ n ≤ length s)%nat.

(** A code unit that a match of a pattern of the sanitizer other than the
    path pattern starts with: a shell metacharacter, a star or a hash. *)
Definition is_markup_char (c : N) : bool :=
  is_shell_meta c || (c =? Chr.star) || (c =? Chr.hash).

(** The audio format each provider writes. *)
Definition format_of (p : TTSProvider) : audio_format :=
  match p with
  | elevenlabs => mp3
  | piper => wav
  | macos => aiff
  end.

(** The same world with another answer of ElevenLabs. *)
Definition with_elevenlabs_reply (e : env) (r : el_reply) : env :=
  {| now := now e; iso_time := iso_time e;
     piper_model_present := piper_model_present e;
     elevenlabs_reply := r;
     piper_reply := piper_reply e; say_reply := say_reply e;
     afplay_reply := afplay_reply e;
     log_write := log_write e;
     msg_null_property := msg_null_property e;
     msg_not_primitive := msg_not_primitive e;
     msg_not_a_function := msg_not_a_function e |}.

(** A failure of ElevenLabs that carries no quota signal: the request does
    not get through, or it is refused for another reason. *)
Definition transient (r : el_reply) : bool :=
  match r with
  | ElUnreachable _ | ElRefusedNoText _ _ => true
  | ElRefused status errorText => negb (quota_signal status errorText)
  | ElAudio _ | ElAudioLost _ => false
  end.

(** The failure counter after calls of [generateSpeech] made one after the
    other, each in its own world. *)
Fixpoint speak_all (cfg : config) (es : list env) (failCount : nat) : nat :=
  match es with
  | [] => failCount
  | e :: rest => speak_all cfg rest (generateSpeech cfg e failCount).1
  end.

(** Every record of the limiter holds a count between 1 and the limit. *)
Definition counts_bounded (counts : gmap jstring rate_record) : Prop :=
  ∀ ip r, counts !! ip = Some r → (1 ≤ count r ≤ RATE_LIMIT)%nat.

(** The answers of the limiter to the requests of [ip], in their order. *)
Fixpoint answers_for (ip : jstring) (reqs : list (Z * jstring)) (answers : list bool)
  : list bool :=
  match reqs, answers with
  | (_, ip') :: rs, ok :: oks =>
      if bool_decide (ip' = ip) then ok :: answers_for ip rs oks
      else answers_for ip rs oks
  | _, _ => []
  end.

(** The client addresses of the requests that reach the limiter: those of
    every method but [OPTIONS]. *)
Fixpoint counted_addresses (reqs : list (env * request)) : list jstring :=
  match reqs with
  | [] => []
  | (_, req) :: rest =>
      if bool_decide (method req = lit "OPTIONS") then counted_addresses rest
      else client_ip req :: counted_addresses rest
  end.

(** The text without its first code unit when that is a quote, and without
    its last one when that is a quote. *)
Definition without_first_quote (s : jstring) : jstring :=
  match s with
  | c :: t => if is_quote c then t else s
  | [] => []
  end.

Definition without_last_quote (s : jstring) : jstring :=
  match rev s with
  | c :: r => if is_quote c then rev r else s
  | [] => []
  end.

(** A text whose lines each end with a carriage return and a line feed. *)
Definition crlf_text (lines : list jstring) : jstring :=
  mjoin ((λ l, l ++ [EnvChr.cr; Chr.newline]) <$> lines).

(** ** Predicates of the statements on the handler and the error log *)

(** A POST /notify with nothing but a message in its body. *)
Definition post_message (m : string) : request :=
  post_notify (VObject [(lit "message", VString (lit m))]).

(** An environment in which every provider fails and the error log cannot
    be written. *)
Definition log_unwritable : env :=
  {| now := 1000; iso_time := lit "2025-12-31T10:00:00.000Z";
     piper_model_present := true;
     elevenlabs_reply := ElRefused 500 (lit "Internal error");
     piper_reply := ProcExit (Some 1%Z) (lit "no voice") (Throw (Error []));
     say_reply := ProcExit (Some 1%Z) [] (Throw (Error []));
     afplay_reply := PlayExit (Some 0%Z);
     log_write := LogWriteFails (Error (lit "EACCES: permission denied")) [];
     msg_null_property := lit "null is not an object";
     msg_not_primitive := λ _, lit "No default value";
     msg_not_a_function := λ _, lit "message.substring is not a function" |}.

(** Lines 410-412: speech is generated and played. *)
Definition spoken (cfg : config) (e : env) (failCount : nat) : outcome unit :=
  result ← (generateSpeech cfg e failCount).2; playAudio (afplay_reply e).

(** The response to a request whose processing threw [err]. *)
Definition error_response (err : js_error) : response :=
  {| resp_status := error_status err; resp_headers := jsonHeaders;
     resp_body := StatusJson (lit "error")
                    (match err_message err with
                     | [] => lit "Internal server error"
                     | msg => msg
                     end) |}.

(** The status of an error response of ElevenLabs. *)
Definition reply_status (r : el_reply) : option N :=
  match r with
  | ElRefused status _ | ElRefusedNoText status _ => Some status
  | _ => None
  end.

(** Claim C1 read on every reply of ElevenLabs: a response with status 429
    sets the failure counter to its maximum. *)
Definition status_429_caps (cfg : config) : Prop :=
  ∀ r n, reply_status r = Some 429 →
         (generateSpeechElevenLabs cfg r n).1 = ELEVENLABS_MAX_FAILS.

(** ** The marker line of claim C9, by the words of the specification *)

(** A piece of markup that may be there or not. *)
Definition optional (piece s : jstring) : Prop := s = piece ∨ s = [].

Definition blank (s : jstring) : Prop := Forall (λ c, is_space c = true) s.

(** [line] is a marker line with the remainder [trailing]: after its
    indentation, a "COMPLETED:" or "Done:" label, with or without the target
    emoji and white space in front of it, and with or without bold markup
    in front of the emoji, in front of the label and behind it; the
    remainder begins behind the label and its markup. *)
Definition marker_line (line trailing : jstring) : Prop :=
  ∃ indent bold1 emoji gap bold2 label bold3,
    line = indent ++ bold1 ++ emoji ++ gap ++ bold2 ++ label ++ bold3 ++ trailing
    ∧ blank indent
    ∧ optional (lit "**") bold1
    ∧ optional Emoji.target emoji
    ∧ blank gap
    ∧ optional (lit "**") bold2
    ∧ (label = lit "COMPLETED:" ∨ label = lit "Done:")
    ∧ optional (lit "**") bold3
    ∧ (bold3 = [] → startsWith (lit "**") trailing = false).

(** The first marker line of a text: the lines before it are no marker
    lines. *)
Definition first_marker_line (text line trailing : jstring) : Prop :=
  ∃ before after,
    Completion.split_lines text = before ++ line :: after
    ∧ marker_line line trailing
    ∧ Forall (λ l, ∀ tr, ¬ marker_line l tr) before.

(** * Properties *)

(** ** Evaluation on concrete texts *)

Example sanitize_ex1 :
  sanitizeForSpeech (lit "<script>alert(1)</script> and $(rm -rf /)")
  = lit "alert(1)/script and (rm -rf /)".
Proof. vm_compute. reflexivity. Qed.

Example sanitize_ex2 :
  sanitizeForSpeech (lit "  ## **Done** with *care* ####### x ") =
  lit "Done with care #x".
Proof. vm_compute. reflexivity. Qed.

Example marker_ex1 :
  extractEmotionalMarker (lit "Build passed [" ++ Emoji.sparkles ++ lit " Success] ")
  = {| cleaned := lit "Build passed"; emotion := Some (lit "success") |}.
Proof. vm_compute. reflexivity. Qed.

Example marker_ex2 :
  extractEmotionalMarker (lit "[" ++ Emoji.warning ++ lit "  CAUTION]disk full")
  = {| cleaned := lit "disk full"; emotion := Some (lit "caution") |}.
Proof. vm_compute. reflexivity. Qed.

Example marker_ex3 :
  extractEmotionalMarker (lit "[" ++ Emoji.bug ++ lit " urgent] x")
  = {| cleaned := lit "[" ++ Emoji.bug ++ lit " urgent] x"; emotion := None |}.
Proof. vm_compute. reflexivity. Qed.


Example sanitize_ex3 :
  sanitizeForSpeech (lit "<scr<scriptipt> ***a*** ####### x ..././") = lit "script a #x ../".
Proof. vm_compute. reflexivity. Qed.

Example validate_ex1 :
  validateInput (VString (lit "  **Deploy** finished  ")) = accepted (lit "Deploy finished").
Proof. vm_compute. reflexivity. Qed.

Example validate_ex2 :
  validateInput (VString (lit " ; | & "))
  = rejected "Message contains no valid content after sanitization".
Proof. vm_compute. reflexivity. Qed.

Example validate_ex3 : validateInput (VNumber 5) = rejected "Invalid input type".
Proof. reflexivity. Qed.

Example limiter_ex1 :
  (limiter_run (replicate 12 (5%Z, lit "10.0.0.1") ++ [(60006%Z, lit "10.0.0.1")]) ∅).1
  = replicate 10 true ++ [false; false; true].
Proof. vm_compute. reflexivity. Qed.

Example cascade_ex1 :
  generateSpeech cloud_config
    {| now := 0; iso_time := []; piper_model_present := true;
       elevenlabs_reply := ElRefused 500 (lit "oops");
       piper_reply := ProcExit (Some 0%Z) [] (Return [7]);
       say_reply := ProcError (Error []); afplay_reply := PlayExit (Some 0%Z);
       log_write := LogWritten;
       msg_null_property := []; msg_not_primitive := λ _, [];
       msg_not_a_function := λ _, [] |} 0
  = (1%nat, Return {| speech_audio := [7]; speech_provider := piper; speech_format := wav |}).
Proof. vm_compute. reflexivity. Qed.

Example cascade_ex2 :
  (generateSpeech cloud_config
     {| now := 0; iso_time := []; piper_model_present := false;
        elevenlabs_reply := ElRefused 401 (lit "quota_exceeded");
        piper_reply := ProcError (Error []);
        say_reply := ProcExit (Some 0%Z) [] (Return [9]); afplay_reply := PlayExit (Some 0%Z);
        log_write := LogWritten;
       msg_null_property := []; msg_not_primitive := λ _, [];
       msg_not_a_function := λ _, [] |} 0).1
  = 4%nat.
Proof. vm_compute. reflexivity. Qed.

Example fetch_ex_invalid_title :
  resp_status (fetch cloud_config all_up
                 (post_notify (VObject [(lit "title", VNumber 5)])) initial_state).1 = 400.
Proof. vm_compute. reflexivity. Qed.

Example fetch_ex_message_not_a_string :
  resp_status (fetch cloud_config all_up
                 (post_notify (VObject [(lit "message", VNumber 5)])) initial_state).1 = 500.
Proof. vm_compute. reflexivity. Qed.

Example fetch_ex_title_without_string_form :
  (fetch cloud_config all_up
     (post_notify (VObject [(lit "title", VObject [(lit "toString", VNull)]);
                            (lit "message", VString (lit "Hi"))]))
     initial_state).1
  = {| resp_status := 500; resp_headers := jsonHeaders;
       resp_body := StatusJson (lit "error") (lit "No default value") |}.
Proof. vm_compute. reflexivity. Qed.

Example fetch_ex_null_body :
  resp_status (fetch cloud_config all_up (post_notify VNull) initial_state).1 = 500.
Proof. vm_compute. reflexivity. Qed.

Example fetch_ex_voice_id :
  (fetch cloud_config all_up
     (post_notify (VObject [(lit "voice_id", VBool true)])) initial_state).1
  = {| resp_status := 400; resp_headers := jsonHeaders;
       resp_body := StatusJson (lit "error") (lit "Invalid voice_id") |}.
Proof. vm_compute. reflexivity. Qed.

Example fetch_ex_too_long :
  (fetch cloud_config all_up
     (post_notify (VObject [(lit "message", VString (replicate 501 97))])) initial_state).1
  = {| resp_status := 400; resp_headers := jsonHeaders;
       resp_body := StatusJson (lit "error")
                      (lit "Invalid message: Message too long (max 500 characters)") |}.
Proof. vm_compute. reflexivity. Qed.

Example window_ex1 :
  Completion.turn_window
    [ user_says (lit "first"); assistant_says (lit "ok");
      user_says (lit "second");
      Some {| Completion.ev_type := Completion.User;
              Completion.ev_content := Completion.Blocks [Completion.ToolResultBlock] |};
      assistant_says (lit "done") ]
  = [ user_says (lit "second");
      Some {| Completion.ev_type := Completion.User;
              Completion.ev_content := Completion.Blocks [Completion.ToolResultBlock] |};
      assistant_says (lit "done") ].
Proof. vm_compute. reflexivity. Qed.

Example marker_line_ex1 :
  Completion.marker_trailing (lit "**" ++ Emoji.target ++ lit " COMPLETED:** Fixed it")
  = Some (lit " Fixed it").
Proof. vm_compute. reflexivity. Qed.

(** ** The patterns and their closed forms *)

Section Engine.

Context {R : Type}.
Implicit Types (s t : jstring) (p : N → bool) (caps : list jstring).

Lemma takeWhile_dropWhile p s : takeWhile p s ++ dropWhile p s = s.
Proof. induction s as [|c t IH]; simpl; [done|]. destruct (p c); simpl; by f_equal. Qed.

Lemma drop_takeWhile p s : drop (length (takeWhile p s)) s = dropWhile p s.
Proof. induction s as [|c t IH]; simpl; [done|]. by destruct (p c). Qed.

Lemma takeWhile_length p s :
  length s = (length (takeWhile p s) + length (dropWhile p s))%nat.
Proof. by rewrite <- length_app, takeWhile_dropWhile. Qed.

Lemma dropWhile_nil_takeWhile p s : takeWhile p s = [] → dropWhile p s = s.
Proof. destruct s as [|c t]; simpl; [done|]. by destruct (p c). Qed.

Lemma startsWith_length (pat : jstring) s :
  startsWith pat s = true → (length pat ≤ length s)%nat.
Proof.
  revert s. induction pat as [|a pat IH]; intros [|c t]; simpl; try done; try lia.
  intros [_ H2]%andb_prop. apply IH in H2. lia.
Qed.

Lemma startsWith_ci_length (pat : jstring) s :
  startsWith_ci pat s = true → (length pat ≤ length s)%nat.
Proof.
  revert s. induction pat as [|a pat IH]; intros [|c t]; simpl; try done; try lia.
  intros [_ H2]%andb_prop. apply IH in H2. lia.
Qed.

Lemma word_not_space c : is_word c = true → is_space c = false.
Proof.
  unfold is_word, is_space, Chr.underscore.
  rewrite !orb_true_iff, !andb_true_iff, !N.leb_le, !N.eqb_eq.
  intros H.
  rewrite !orb_false_iff, !andb_false_iff, !N.eqb_neq, !N.leb_gt. lia.
Qed.

Lemma exec_literal (pat : jstring) : ∀ s caps (k : jstring → list jstring → option R),
  exec (literal pat) s caps k
  = if startsWith pat s then k (drop (length pat) s) caps else None.
Proof.
  induction pat as [|a pat IH]; intros s caps k; [done|].
  cbn [literal exec]. destruct s as [|c t]; [done|].
  cbn [startsWith length drop]. destruct (a =? c); [apply IH | done].
Qed.

Lemma exec_literal_ci (pat : jstring) : ∀ s caps (k : jstring → list jstring → option R),
  exec (literal_ci pat) s caps k
  = if startsWith_ci pat s then k (drop (length pat) s) caps else None.
Proof.
  induction pat as [|a pat IH]; intros s caps k; [done|].
  cbn [literal_ci exec]. destruct s as [|c t]; [done|].
  cbn [startsWith_ci length drop]. destruct (a =? lower_ascii c); [apply IH | done].
Qed.

(** A greedy [+] in front of a continuation that refuses every text that
    begins with a code unit of the class: only the longest run can do. *)
Lemma plus_reject p (k : jstring → option R) s :
  (∀ c t, p c = true → k (c :: t) = None) →
  plus p s k = match takeWhile p s with
               | [] => None
               | _ :: _ => k (dropWhile p s)
               end.
Proof.
  intros Hk. induction s as [|c t IH]; [done|].
  cbn [plus takeWhile dropWhile]. destruct (p c) eqn:Ec; [|done].
  rewrite IH. destruct (takeWhile p t) as [|b body] eqn:Et.
  - by rewrite (dropWhile_nil_takeWhile _ _ Et).
  - destruct (k (dropWhile p t)) eqn:Ek; [done|].
    destruct t as [|c' t']; [done|]. simpl in Et.
    destruct (p c') eqn:Ec'; [|done]. by apply Hk.
Qed.

(** A greedy [+] in front of a continuation that accepts every text: the
    longest run is taken. *)
Lemma plus_accept p (k : jstring → option R) s :
  (∀ t, is_Some (k t)) →
  plus p s k = match takeWhile p s with
               | [] => None
               | _ :: _ => k (dropWhile p s)
               end.
Proof.
  intros Hk. induction s as [|c t IH]; [done|].
  cbn [plus takeWhile dropWhile]. destruct (p c) eqn:Ec; [|done].
  rewrite IH. destruct (takeWhile p t) as [|b body] eqn:Et.
  - by rewrite (dropWhile_nil_takeWhile _ _ Et).
  - by destruct (Hk (dropWhile p t)) as [x ->].
Qed.

(** A greedy [{lo,hi}] in front of a continuation that refuses every text
    that begins with a code unit of the class: the whole run or nothing. *)
Lemma rep_reject p (k : jstring → option R) hi : ∀ lo s,
  (∀ c t, p c = true → k (c :: t) = None) →
  rep p lo hi s k
  = if (lo <=? length (takeWhile p s))%nat && (length (takeWhile p s) <=? hi)%nat
    then k (dropWhile p s) else None.
Proof.
  induction hi as [|hi IH]; intros lo s Hk.
  - cbn [rep]. destruct s as [|c t]; cbn [takeWhile dropWhile length].
    + by destruct lo.
    + destruct (p c) eqn:Ec; cbn [length].
      * rewrite andb_false_r. destruct lo; [by apply Hk | done].
      * by destruct lo.
  - cbn [rep]. destruct s as [|c t]; cbn [takeWhile dropWhile length].
    + by destruct lo.
    + destruct (p c) eqn:Ec; cbn [length]; [|by destruct lo].
      rewrite (IH _ _ Hk).
      replace (Nat.pred lo <=? length (takeWhile p t))%nat
        with (lo <=? S (length (takeWhile p t)))%nat
        by (destruct lo; [done|]; reflexivity).
      change (S (length (takeWhile p t)) <=? S hi)%nat
        with (length (takeWhile p t) <=? hi)%nat.
      destruct (_ && _); [|by destruct lo; [apply Hk|]].
      destruct (k (dropWhile p t)); [done|]. by destruct lo; [apply Hk|].
Qed.

Lemma prefix_free_elem (alts : list jstring) a b :
  prefix_free alts = true → a ∈ alts → b ∈ alts → startsWith a b = true → a = b.
Proof.
  unfold prefix_free. rewrite forallb_forall. intros H Ha Hb Hab.
  apply list_elem_of_In in Ha, Hb. specialize (H a Ha).
  rewrite forallb_forall in H. specialize (H b Hb).
  rewrite Hab in H. simpl in H. rewrite orb_false_r in H.
  by apply bool_decide_eq_true in H.
Qed.

Lemma startsWith_comparable (a b : jstring) : ∀ s,
  startsWith a s = true → startsWith b s = true →
  startsWith a b = true ∨ startsWith b a = true.
Proof.
  revert b. induction a as [|x a IH]; intros b s Ha Hb; [by left|].
  destruct b as [|y b]; [by right|].
  destruct s as [|c t]; [done|]. simpl in *.
  apply andb_prop in Ha as [Hx Ha]. apply andb_prop in Hb as [Hy Hb].
  apply N.eqb_eq in Hx, Hy. subst x y. rewrite N.eqb_refl. simpl.
  by apply (IH b t).
Qed.

(** An alternation of literals none of which is a prefix of another: at
    most one branch fits, so backtracking into it finds nothing new. *)
Lemma exec_alternatives (all alts : list jstring) s caps
    (k : jstring → list jstring → option R) :
  prefix_free all = true → alts ⊆ all →
  exec (alternatives alts) s caps k
  = match match_alt alts s with
    | Some e => k (drop (length e) s) caps
    | None => None
    end.
Proof.
  intros Hfree. induction alts as [|a alts IH]; intros Hsub.
  - simpl. by destruct s.
  - cbn [alternatives exec match_alt]. rewrite exec_literal.
    assert (alts ⊆ all) as Hsub' by (intros x Hx; apply Hsub; by right).
    destruct (startsWith a s) eqn:Ea; [|by apply IH].
    destruct (k (drop (length a) s) caps) eqn:Ek; [done|].
    rewrite (IH Hsub'). destruct (match_alt alts s) as [e|] eqn:Ee; [|done].
    assert (e ∈ alts ∧ startsWith e s = true) as [Hin He].
    { clear -Ee. induction alts as [|x alts IH]; [done|]. simpl in Ee.
      destruct (startsWith x s) eqn:Ex.
      - injection Ee as <-. split; [by left | done].
      - destruct (IH Ee). split; [by right | done]. }
    assert (a = e) as <-; [|done].
    destruct (startsWith_comparable a e s Ea He) as [H|H].
    + apply (prefix_free_elem all); [done | apply Hsub; by left | by apply Hsub' | done].
    + symmetry.
      apply (prefix_free_elem all); [done | by apply Hsub' | apply Hsub; by left | done].
Qed.

End Engine.

Section ClosedForms.

Implicit Types (s : jstring).

Lemma re_script_closed s : re_script s = script_closed s.
Proof.
  unfold re_script, re_replace, match_at, rx_script, script_closed.
  rewrite exec_literal_ci. destruct (startsWith_ci _ s) eqn:E; [|done].
  apply startsWith_ci_length in E. rewrite length_drop.
  change (length (lit "<script")) with 7%nat in *. unfold erase. do 2 f_equal. lia.
Qed.

Lemma re_dotdot_closed s : re_dotdot s = dotdot_closed s.
Proof.
  unfold re_dotdot, re_replace, match_at, rx_dotdot, dotdot_closed.
  rewrite exec_literal. destruct (startsWith _ s) eqn:E; [|done].
  apply startsWith_length in E. rewrite length_drop.
  change (length (lit "../")) with 3%nat in *. unfold erase. do 2 f_equal. lia.
Qed.

Lemma re_shell_meta_closed s : re_shell_meta s = shell_meta_closed s.
Proof.
  unfold re_shell_meta, re_replace, match_at, rx_shell_meta, shell_meta_closed.
  destruct s as [|c t]; [done|]. cbn [exec]. destruct (is_shell_meta c); [|done].
  unfold erase. do 2 f_equal. simpl. lia.
Qed.

Lemma re_delimited_closed d k s :
  re_replace
    (RSeq (literal (replicate (S k) d))
       (RSeq (RGroup (RPlus (not_char d))) (literal (replicate (S k) d)))) group1 s
  = delimited_closed d (S k) s.
Proof.
  unfold re_replace, match_at, delimited_closed. cbn [exec].
  rewrite exec_literal, length_replicate.
  destruct (startsWith (replicate (S k) d) s) eqn:E1; [|done].
  apply startsWith_length in E1. rewrite length_replicate in E1.
  set (s1 := drop (S k) s).
  assert (length s = S k + length s1)%nat as Hs
    by (unfold s1; rewrite length_drop; lia).
  rewrite (plus_reject (not_char d)
             (λ s2, exec (literal (replicate (S k) d)) s2
                      ([] ++ [take (length s1 - length s2) s1])
                      (λ rest caps, Some ((length s - length rest)%nat, caps)))).
  2:{ intros c t Hc. rewrite exec_literal. cbn [replicate startsWith].
      unfold not_char in Hc. apply negb_true_iff in Hc.
      rewrite N.eqb_sym in Hc. by rewrite Hc. }
  fold (not_char d).
  pose proof (takeWhile_length (not_char d) s1) as Hlen.
  pose proof (takeWhile_dropWhile (not_char d) s1) as Hsplit.
  destruct (takeWhile (not_char d) s1) as [|b body] eqn:Eb; [done|].
  rewrite exec_literal, length_replicate.
  replace (drop (S k + length (b :: body)) s) with (dropWhile (not_char d) s1)
    by (rewrite <- drop_takeWhile, Eb; unfold s1; by rewrite drop_drop).
  destruct (startsWith (replicate (S k) d) (dropWhile (not_char d) s1)) eqn:E2; [|done].
  apply startsWith_length in E2. rewrite length_replicate in E2.
  rewrite length_drop. unfold group1. cbn [app nth].
  replace (length s1 - length (dropWhile (not_char d) s1))%nat
    with (length (b :: body)) by lia.
  rewrite <- Hsplit at 2. rewrite take_app_length. do 2 f_equal. lia.
Qed.

Lemma re_bold_closed s : re_bold s = bold_closed s.
Proof. apply (re_delimited_closed Chr.star 1). Qed.

Lemma re_italic_closed s : re_italic s = italic_closed s.
Proof. apply (re_delimited_closed Chr.star 0). Qed.

Lemma re_code_closed s : re_code s = code_closed s.
Proof. apply (re_delimited_closed Chr.backtick 0). Qed.

Lemma re_heading_closed s : re_heading s = heading_closed s.
Proof.
  unfold re_heading, re_replace, match_at, rx_heading, heading_closed. cbn [exec].
  rewrite rep_reject.
  2:{ intros c t Hc. apply N.eqb_eq in Hc. subst c. reflexivity. }
  pose proof (takeWhile_length (N.eqb Chr.hash) s) as Hlen.
  rewrite drop_takeWhile.
  destruct (_ && _); [|done].
  rewrite plus_accept by eauto.
  pose proof (takeWhile_length is_space (dropWhile (N.eqb Chr.hash) s)) as Hlen2.
  destruct (takeWhile is_space _) as [|w ws]; [done|].
  unfold erase. do 2 f_equal. lia.
Qed.

Lemma replace_from_ext (m m' : matcher) :
  (∀ s, m s = m' s) → ∀ s skip, replace_from m skip s = replace_from m' skip s.
Proof.
  intros H s. induction s as [|c t IH]; intros skip; [done|].
  cbn [replace_from]. destruct skip; [|apply IH].
  rewrite H. destruct (m' (c :: t)) as [[[|k] r]|]; by rewrite IH.
Qed.

Lemma matches_somewhere_ext (m m' : matcher) :
  (∀ s, m s = m' s) → ∀ s, matches_somewhere m s = matches_somewhere m' s.
Proof.
  intros H s. induction s as [|c t IH]; [done|].
  cbn [matches_somewhere]. rewrite H. by rewrite IH.
Qed.

Lemma markup_closed s :
  has_markdown_markup s
  = matches_somewhere bold_closed s || matches_somewhere italic_closed s
    || matches_somewhere code_closed s || matches_somewhere heading_closed s.
Proof.
  unfold has_markdown_markup.
  by rewrite (matches_somewhere_ext _ _ re_bold_closed),
    (matches_somewhere_ext _ _ re_italic_closed),
    (matches_somewhere_ext _ _ re_code_closed),
    (matches_somewhere_ext _ _ re_heading_closed).
Qed.

(** The sanitizer is the sanitizer over the closed forms. *)
Lemma sanitize_closed_form s : sanitizeForSpeech s = sanitize_closed s.
Proof.
  unfold sanitizeForSpeech, sanitize_closed, replaceAll.
  rewrite (replace_from_ext _ _ re_script_closed),
    (replace_from_ext _ _ re_dotdot_closed),
    (replace_from_ext _ _ re_shell_meta_closed),
    (replace_from_ext _ _ re_bold_closed),
    (replace_from_ext _ _ re_italic_closed),
    (replace_from_ext _ _ re_code_closed),
    (replace_from_ext _ _ re_heading_closed).
  done.
Qed.

Lemma tag_emojis_prefix_free : prefix_free tag_emojis = true.
Proof. vm_compute. reflexivity. Qed.

Lemma match_alt_prefix (alts : list jstring) s e :
  match_alt alts s = Some e → startsWith e s = true.
Proof.
  induction alts as [|a alts IH]; simpl; [done|].
  destruct (startsWith a s) eqn:E; [by intros [= <-] | apply IH].
Qed.

Lemma startsWith_take (pat : jstring) s :
  startsWith pat s = true → take (length pat) s = pat.
Proof.
  revert s. induction pat as [|a pat IH]; intros [|c t]; simpl; try done.
  intros [H1 H2]%andb_prop. apply N.eqb_eq in H1. subst. f_equal. by apply IH.
Qed.

(** The tag pattern and its closed form. *)
Lemma tag_here_eq s : tag_here s = tag_here_closed s.
Proof.
  unfold tag_here, match_at, rx_tag, tag_here_closed.
  destruct s as [|c s1]; [done|]. cbn [exec].
  rewrite (N.eqb_sym Chr.lbracket c).
  destruct (N.eqb_spec c Chr.lbracket) as [->|]; [|done].
  rewrite (exec_alternatives tag_emojis tag_emojis _ _ _ tag_emojis_prefix_free)
    by done.
  destruct (match_alt tag_emojis s1) as [e|] eqn:Ee; [|done].
  pose proof (match_alt_prefix _ _ _ Ee) as He.
  pose proof (startsWith_length _ _ He) as Hle.
  set (s2 := drop (length e) s1).
  assert (length s1 = length e + length s2)%nat as Hs1
    by (unfold s2; rewrite length_drop; lia).
  replace (take (length s1 - length s2) s1) with e
    by (replace (length s1 - length s2)%nat with (length e) by lia;
        by rewrite (startsWith_take _ _ He)).
  cbn [app].
  rewrite (plus_reject is_space).
  2:{ intros c' t Hc'. cbn [plus].
      destruct (is_word c') eqn:Ew; [|done].
      apply word_not_space in Ew. congruence. }
  pose proof (takeWhile_length is_space s2) as Hlen2.
  pose proof (drop_takeWhile is_space s2) as Hd2.
  destruct (takeWhile is_space s2) as [|w ws] eqn:Ews; [done|].
  rewrite Hd2. set (s3 := dropWhile is_space s2) in *.
  rewrite (plus_reject is_word).
  2:{ intros c' t Hc'. rewrite (N.eqb_sym Chr.rbracket c').
      destruct (N.eqb_spec c' Chr.rbracket) as [->|]; [done | done]. }
  pose proof (takeWhile_length is_word s3) as Hlen3.
  pose proof (drop_takeWhile is_word s3) as Hd3.
  pose proof (takeWhile_dropWhile is_word s3) as Hsp3.
  destruct (takeWhile is_word s3) as [|l label] eqn:El; [done|].
  rewrite Hd3.
  destruct (dropWhile is_word s3) as [|c' post] eqn:Er; [done|].
  rewrite (N.eqb_sym Chr.rbracket c'). destruct (N.eqb_spec c' Chr.rbracket) as [->|]; [|done].
  replace (take (length s3 - length (Chr.rbracket :: post)) s3) with (l :: label)
    by (rewrite <- Hsp3 at 2;
        replace (length s3 - length (Chr.rbracket :: post))%nat
          with (length (l :: label)) by lia;
        by rewrite take_app_length).
  cbn [app]. do 2 f_equal.
  assert (s1 = e ++ (w :: ws) ++ (l :: label) ++ Chr.rbracket :: post) as ->.
  { rewrite <- (take_drop (length e) s1), (startsWith_take _ _ He). f_equal.
    fold s2. rewrite <- (takeWhile_dropWhile is_space s2), Ews. f_equal.
    fold s3. by rewrite <- Hsp3. }
  cbn [length]. rewrite !length_app. cbn [length].
  replace (S (length e + (S (length ws) + (S (length label) + S (length post)))) - length post)%nat
    with (S (length e + (S (length ws) + (S (length label) + 1))))%nat by lia.
  cbn [take]. f_equal.
  assert (e ++ (w :: ws) ++ (l :: label) ++ Chr.rbracket :: post
          = (e ++ (w :: ws) ++ (l :: label) ++ [Chr.rbracket]) ++ post) as ->
    by (repeat (rewrite <- app_assoc; cbn [app]); done).
  apply take_app_length'.
  repeat (rewrite length_app || rewrite length_cons). cbn [length]. lia.
Qed.

End ClosedForms.

(** ** Strings and replacement *)

Section StringFacts.

Implicit Types (s t : jstring) (p : N → bool) (P : N → Prop).

Lemma takeWhile_Forall P p s : Forall P s → Forall P (takeWhile p s).
Proof.
  induction 1 as [|c t Hc Ht IH]; simpl; [constructor|].
  destruct (p c); [by constructor | constructor].
Qed.

Lemma dropWhile_Forall P p s : Forall P s → Forall P (dropWhile p s).
Proof.
  induction 1 as [|c t Hc Ht IH]; simpl; [constructor|].
  destruct (p c); [done | by constructor].
Qed.

Lemma takeWhile_all p s : Forall (λ c, p c = true) (takeWhile p s).
Proof.
  induction s as [|c t IH]; simpl; [constructor|].
  destruct (p c) eqn:E; [by constructor | constructor].
Qed.

Lemma dropWhile_length p s : (length (dropWhile p s) ≤ length s)%nat.
Proof. induction s as [|c t IH]; simpl; [lia|]. destruct (p c); simpl; lia. Qed.

Lemma trim_Forall P s : Forall P s → Forall P (trim s).
Proof.
  intros H. unfold trim, trimEnd, trimStart.
  apply Forall_rev, dropWhile_Forall, Forall_rev, dropWhile_Forall, H.
Qed.

Lemma trim_length s : (length (trim s) ≤ length s)%nat.
Proof.
  unfold trim, trimEnd, trimStart. rewrite length_rev.
  etrans; [apply dropWhile_length|]. rewrite length_rev. apply dropWhile_length.
Qed.


Lemma replace_from_Forall P m :
  keeps P m → ∀ s skip, Forall P s → Forall P (replace_from m skip s).
Proof.
  intros Hm s. induction s as [|c t IH]; intros skip Hs; simpl; [constructor|].
  inversion Hs as [|? ? Hc Ht]; subst.
  destruct skip as [|k]; [|by apply IH].
  destruct (m (c :: t)) as [[[|k] r]|] eqn:E.
  - constructor; [done | by apply IH].
  - apply Forall_app. split; [by eapply Hm | by apply IH].
  - constructor; [done | by apply IH].
Qed.

Lemma keeps_erase P (m : matcher) :
  (∀ s n r, m s = Some (n, r) → r = []) → keeps P m.
Proof. intros H s n r E _. rewrite (H _ _ _ E). constructor. Qed.

Lemma re_script_erases s n r : script_closed s = Some (n, r) → r = [].
Proof. unfold script_closed. destruct (startsWith_ci _ _); congruence. Qed.

Lemma re_dotdot_erases s n r : dotdot_closed s = Some (n, r) → r = [].
Proof. unfold dotdot_closed. destruct (startsWith _ _); congruence. Qed.

Lemma re_shell_meta_erases s n r : shell_meta_closed s = Some (n, r) → r = [].
Proof.
  unfold shell_meta_closed. destruct s as [|c t]; [done|].
  destruct (is_shell_meta c); congruence.
Qed.

Lemma re_heading_erases s n r : heading_closed s = Some (n, r) → r = [].
Proof.
  unfold heading_closed. destruct (_ && _); [|done].
  destruct (takeWhile is_space _); congruence.
Qed.

Lemma re_delimited_keeps P d n : keeps P (delimited_closed d n).
Proof.
  intros s k r E Hs. unfold delimited_closed in E.
  destruct (startsWith (replicate n d) s); [|done].
  destruct (takeWhile _ (drop n s)) as [|b body] eqn:Eb; [done|].
  destruct (startsWith _ (drop _ s)); [|done].
  injection E as <- <-. rewrite <- Eb.
  by apply takeWhile_Forall, Forall_drop.
Qed.

(** After the third replacement no shell metacharacter is left. *)
Lemma replace_shell_meta_clean s skip :
  Forall (λ c, is_shell_meta c = false) (replace_from shell_meta_closed skip s).
Proof.
  revert skip. induction s as [|c t IH]; intros skip; simpl; [constructor|].
  destruct skip as [|k]; [|apply IH].
  destruct (is_shell_meta c) eqn:E; simpl; [apply IH|].
  constructor; [done | apply IH].
Qed.

(** The output of the sanitizer holds no shell metacharacter. *)
Lemma sanitize_no_shell_meta s :
  Forall (λ c, is_shell_meta c = false) (sanitizeForSpeech s).
Proof.
  rewrite sanitize_closed_form. unfold sanitize_closed, substring0, replaceAll.
  apply Forall_take, trim_Forall.
  apply replace_from_Forall; [apply keeps_erase, re_heading_erases|].
  do 3 (apply replace_from_Forall; [apply re_delimited_keeps|]).
  apply replace_shell_meta_clean.
Qed.

Lemma sanitize_length s : (length (sanitizeForSpeech s) ≤ 500)%nat.
Proof. unfold sanitizeForSpeech, substring0. rewrite length_take. lia. Qed.

Lemma startsWith_ci_head a (pat : jstring) c t :
  startsWith_ci (a :: pat) (c :: t) = true → lower_ascii c = a.
Proof. simpl. intros [H _]%andb_prop. by apply N.eqb_eq in H. Qed.

(** A text without [<] has no script-tag opener, in any letter case. *)
Lemma no_lt_no_script s :
  Forall (λ c, is_shell_meta c = false) s → includes_ci (lit "<script") s = false.
Proof.
  induction 1 as [|c t Hc Ht IH]; [done|].
  cbn [includes_ci]. rewrite IH, orb_false_r.
  destruct (startsWith_ci (lit "<script") (c :: t)) eqn:E; [|done].
  apply startsWith_ci_head in E.
  assert (c = Chr.lt) as ->.
  { unfold lower_ascii in E. destruct (_ && _) eqn:B; [|done].
    apply andb_prop in B as [B1%N.leb_le B2%N.leb_le].
    change (N_of_ascii "<") with 60 in E. lia. }
  done.
Qed.

Lemma no_match_replace m s :
  matches_somewhere m s = false → replaceAll m s = s.
Proof.
  unfold replaceAll. induction s as [|c t IH]; simpl; [done|].
  destruct (m (c :: t)) as [[[|k] r]|]; intros H; try done; by rewrite IH.
Qed.

Lemma no_script_no_match s :
  includes_ci (lit "<script") s = false → matches_somewhere script_closed s = false.
Proof.
  induction s as [|c t IH]; [done|].
  cbn [includes_ci matches_somewhere]. intros [H1 H2]%orb_false_elim.
  unfold script_closed. rewrite H1. by apply IH.
Qed.

Lemma no_dotdot_no_match s :
  includes (lit "../") s = false → matches_somewhere dotdot_closed s = false.
Proof.
  induction s as [|c t IH]; [done|].
  cbn [includes matches_somewhere]. intros [H1 H2]%orb_false_elim.
  unfold dotdot_closed. rewrite H1. by apply IH.
Qed.

Lemma no_meta_no_match s :
  existsb is_shell_meta s = false → matches_somewhere shell_meta_closed s = false.
Proof.
  induction s as [|c t IH]; [done|].
  cbn [existsb matches_somewhere shell_meta_closed]. intros [H1 H2]%orb_false_elim.
  rewrite H1. by apply IH.
Qed.

End StringFacts.

(** ** More on the patterns: adding text around a match *)

Section Stability.

Implicit Types (s x y : jstring) (q : N → bool) (m : matcher).

Lemma startsWith_app (pat : jstring) s y :
  startsWith pat s = true → startsWith pat (s ++ y) = true.
Proof.
  revert s. induction pat as [|a pat IH]; intros [|c t]; simpl; try done.
  intros [H1 H2]%andb_prop. rewrite H1. by apply IH.
Qed.

Lemma startsWith_ci_app (pat : jstring) s y :
  startsWith_ci pat s = true → startsWith_ci pat (s ++ y) = true.
Proof.
  revert s. induction pat as [|a pat IH]; intros [|c t]; simpl; try done.
  intros [H1 H2]%andb_prop. rewrite H1. by apply IH.
Qed.

Lemma takeWhile_app_stop q s y :
  dropWhile q s ≠ [] → takeWhile q (s ++ y) = takeWhile q s.
Proof.
  induction s as [|c t IH]; simpl; [done|].
  destruct (q c); [|done]. intros H. f_equal. by apply IH.
Qed.

Lemma takeWhile_app_nonempty q s y :
  takeWhile q s ≠ [] → takeWhile q (s ++ y) ≠ [].
Proof. destruct s as [|c t]; simpl; [done|]. by destruct (q c). Qed.

Lemma drop_app_within s y n :
  (n ≤ length s)%nat → drop n (s ++ y) = drop n s ++ y.
Proof. intros H. rewrite drop_app. replace (n - length s)%nat with 0%nat by lia. done. Qed.

Lemma ext_stable_script : ext_stable script_closed.
Proof.
  intros s y n r. unfold script_closed.
  destruct (startsWith_ci _ s) eqn:E; [|done].
  intros _. rewrite (startsWith_ci_app _ _ y E). eauto.
Qed.

Lemma ext_stable_dotdot : ext_stable dotdot_closed.
Proof.
  intros s y n r. unfold dotdot_closed.
  destruct (startsWith _ s) eqn:E; [|done].
  intros _. rewrite (startsWith_app _ _ y E). eauto.
Qed.

Lemma ext_stable_shell_meta : ext_stable shell_meta_closed.
Proof.
  intros [|c t] y n r; simpl; [done|].
  destruct (is_shell_meta c); [eauto | done].
Qed.

Lemma ext_stable_delimited d k : ext_stable (delimited_closed d (S k)).
Proof.
  intros s y n r. unfold delimited_closed.
  destruct (startsWith (replicate (S k) d) s) eqn:E1; [|done].
  pose proof (startsWith_length _ _ E1) as Hlen. rewrite length_replicate in Hlen.
  rewrite (startsWith_app _ _ y E1), (drop_app_within s y (S k) Hlen).
  destruct (takeWhile _ (drop (S k) s)) as [|b body] eqn:Eb; [done|].
  destruct (startsWith _ (drop (S k + _) s)) eqn:E2; [|done]. intros _.
  assert (dropWhile (λ c, negb (c =? d)) (drop (S k) s) ≠ []) as Hstop.
  { rewrite <- drop_takeWhile, Eb, drop_drop. intros Hnil.
    rewrite Hnil in E2. done. }
  rewrite (takeWhile_app_stop _ _ y Hstop), Eb.
  assert (length (b :: body) ≤ length (drop (S k) s))%nat as Hb.
  { rewrite <- Eb. rewrite <- (takeWhile_dropWhile (λ c, negb (c =? d)) (drop (S k) s)) at 2.
    rewrite length_app. lia. }
  rewrite length_drop in Hb.
  rewrite (drop_app_within s y (S k + length (b :: body))) by lia.
  rewrite (startsWith_app _ _ y E2). eauto.
Qed.

Lemma ext_stable_heading : ext_stable heading_closed.
Proof.
  intros s y n r. unfold heading_closed.
  set (ishash := N.eqb Chr.hash).
  destruct (_ && _) eqn:E1; [|done].
  destruct (takeWhile is_space (drop _ s)) as [|w ws] eqn:Ew; [done|]. intros _.
  assert (dropWhile ishash s ≠ []) as Hstop.
  { rewrite <- drop_takeWhile. intros Hnil. by rewrite Hnil in Ew. }
  rewrite (takeWhile_app_stop _ _ y Hstop), E1.
  assert (length (takeWhile ishash s) ≤ length s)%nat as Hk.
  { rewrite <- (takeWhile_dropWhile ishash s) at 2. rewrite length_app. lia. }
  rewrite (drop_app_within _ y _ Hk).
  pose proof (takeWhile_app_nonempty is_space (drop (length (takeWhile ishash s)) s) y) as Hne.
  rewrite Ew in Hne.
  destruct (takeWhile is_space (_ ++ y)) as [|w' ws'] eqn:Ew'; [by destruct Hne|].
  simpl. rewrite Nat.add_succ_r. eauto.
Qed.

Lemma matches_app_l m x s :
  matches_somewhere m s = true → matches_somewhere m (x ++ s) = true.
Proof.
  intros H. induction x as [|c x IH]; simpl; [done|].
  by destruct (m (c :: x ++ s)) as [[[|k] r]|].
Qed.

Lemma matches_app_r m s y :
  ext_stable m → matches_somewhere m s = true → matches_somewhere m (s ++ y) = true.
Proof.
  intros Hm. induction s as [|c t IH]; simpl; [done|].
  destruct (m (c :: t)) as [[[|k] r]|] eqn:E.
  - intros H. apply IH in H. by destruct (m (c :: t ++ y)) as [[[|k'] r']|].
  - intros _. destruct (Hm (c :: t) y k r E) as (n' & r' & E'). simpl in E'.
    by rewrite E'.
  - intros H. apply IH in H. by destruct (m (c :: t ++ y)) as [[[|k'] r']|].
Qed.

Lemma no_match_inside m x s y :
  ext_stable m → matches_somewhere m (x ++ s ++ y) = false →
  matches_somewhere m s = false.
Proof.
  intros Hm H. destruct (matches_somewhere m s) eqn:E; [|done].
  rewrite (matches_app_l m x (s ++ y)) in H; [done|].
  by apply matches_app_r.
Qed.

Lemma trim_inside s : ∃ x y, s = x ++ trim s ++ y.
Proof.
  unfold trim, trimEnd, trimStart.
  exists (takeWhile is_space s),
         (rev (takeWhile is_space (rev (dropWhile is_space s)))).
  rewrite <- rev_app_distr, takeWhile_dropWhile, rev_involutive.
  by rewrite takeWhile_dropWhile.
Qed.

Lemma matches_script s : matches_somewhere script_closed s = includes_ci (lit "<script") s.
Proof.
  induction s as [|c t IH]; [done|].
  cbn [includes_ci matches_somewhere]. rewrite <- IH. unfold script_closed at 1.
  by destruct (startsWith_ci _ (c :: t)).
Qed.

Lemma matches_dotdot s : matches_somewhere dotdot_closed s = includes (lit "../") s.
Proof.
  induction s as [|c t IH]; [done|].
  cbn [includes matches_somewhere]. rewrite <- IH. unfold dotdot_closed at 1.
  by destruct (startsWith _ (c :: t)).
Qed.

Lemma matches_shell_meta s : matches_somewhere shell_meta_closed s = existsb is_shell_meta s.
Proof.
  induction s as [|c t IH]; [done|].
  cbn [existsb matches_somewhere shell_meta_closed].
  destruct (is_shell_meta c); [done|]. by rewrite IH.
Qed.

(** The seven patterns do not match in a text without unsafe content. *)
Lemma unsafe_free_no_match s :
  unsafe_free s = true →
  matches_somewhere script_closed s = false ∧ matches_somewhere dotdot_closed s = false
  ∧ matches_somewhere shell_meta_closed s = false ∧ matches_somewhere bold_closed s = false
  ∧ matches_somewhere italic_closed s = false ∧ matches_somewhere code_closed s = false
  ∧ matches_somewhere heading_closed s = false.
Proof.
  unfold unsafe_free. rewrite markup_closed.
  rewrite <- matches_script, <- matches_dotdot, <- matches_shell_meta.
  rewrite !andb_true_iff, !negb_true_iff, !orb_false_iff. tauto.
Qed.

Lemma unsafe_free_trim s : unsafe_free s = true → unsafe_free (trim s) = true.
Proof.
  intros H. apply unsafe_free_no_match in H as (H1 & H2 & H3 & H4 & H5 & H6 & H7).
  destruct (trim_inside s) as (x & y & E). rewrite E in H1, H2, H3, H4, H5, H6, H7.
  unfold unsafe_free. rewrite markup_closed.
  rewrite <- matches_script, <- matches_dotdot, <- matches_shell_meta.
  rewrite (no_match_inside _ _ _ _ ext_stable_script H1),
    (no_match_inside _ _ _ _ ext_stable_dotdot H2),
    (no_match_inside _ _ _ _ ext_stable_shell_meta H3),
    (no_match_inside bold_closed _ _ _ (ext_stable_delimited _ _) H4),
    (no_match_inside italic_closed _ _ _ (ext_stable_delimited _ _) H5),
    (no_match_inside code_closed _ _ _ (ext_stable_delimited _ _) H6),
    (no_match_inside _ _ _ _ ext_stable_heading H7).
  done.
Qed.

Lemma sanitize_unsafe_free s :
  unsafe_free s = true → sanitizeForSpeech s = take 500 (trim s).
Proof.
  intros H. apply unsafe_free_no_match in H as (H1 & H2 & H3 & H4 & H5 & H6 & H7).
  rewrite sanitize_closed_form. unfold sanitize_closed, substring0.
  rewrite (no_match_replace _ _ H1), (no_match_replace _ _ H2),
    (no_match_replace _ _ H3), (no_match_replace _ _ H4),
    (no_match_replace _ _ H5), (no_match_replace _ _ H6),
    (no_match_replace _ _ H7).
  done.
Qed.

End Stability.

(** ** Trimming twice *)

Section Trim.

Implicit Types (s t : jstring) (q : N → bool).

Lemma dropWhile_head q s c t : dropWhile q s = c :: t → q c = false.
Proof.
  induction s as [|a s IH]; simpl; [done|].
  destruct (q a) eqn:E; [done|]. by intros [= <- <-].
Qed.

Lemma dropWhile_idem q s : dropWhile q (dropWhile q s) = dropWhile q s.
Proof.
  destruct (dropWhile q s) as [|c t] eqn:E; [done|].
  simpl. by rewrite (dropWhile_head _ _ _ _ E).
Qed.

Lemma dropWhile_app_stop q s c t :
  q c = false → dropWhile q (s ++ c :: t) = dropWhile q s ++ c :: t.
Proof.
  intros Hc. induction s as [|a s IH]; simpl; [by rewrite Hc|].
  by destruct (q a).
Qed.

Lemma trimEnd_cons c t : is_space c = false → trimEnd (c :: t) = c :: trimEnd t.
Proof.
  intros Hc. unfold trimEnd. simpl.
  rewrite (dropWhile_app_stop _ _ _ _ Hc), rev_app_distr. done.
Qed.

Lemma trimEnd_idem s : trimEnd (trimEnd s) = trimEnd s.
Proof. unfold trimEnd. by rewrite rev_involutive, dropWhile_idem. Qed.

Lemma trim_idem s : trim (trim s) = trim s.
Proof.
  unfold trim at 2 3. destruct (trimStart s) as [|c t] eqn:E; [done|].
  pose proof (dropWhile_head _ _ _ _ E) as Hc.
  rewrite (trimEnd_cons _ _ Hc). unfold trim, trimStart. simpl. rewrite Hc.
  rewrite <- (trimEnd_cons _ _ Hc). apply trimEnd_idem.
Qed.

End Trim.

(** ** The sanitizer and the validation (claims C4, C7, C8) *)

Lemma rejected_is_rejection msg : is_rejection (rejected msg).
Proof. unfold is_rejection, rejected; simpl. eauto. Qed.

Lemma validateInput_accepts (s : jstring) :
  (length s ≤ 500)%nat → sanitizeForSpeech s ≠ [] →
  validateInput (VString s) = accepted (sanitizeForSpeech s).
Proof.
  intros Hlen Hs. simpl.
  assert (s ≠ []) as Hne by (intros ->; by apply Hs).
  rewrite (bool_decide_eq_false_2 _ Hne). simpl.
  destruct (Nat.ltb_spec 500 (length s)); [lia|].
  destruct (sanitizeForSpeech s) eqn:E; done.
Qed.

(** Claim C4.  For every input of [validateInput]: a value that is not a
    string and a string of more than 500 code units are rejected ([valid]
    is false and an error message is given); a string whose sanitized form
    is empty is rejected; every other string is accepted and the result
    carries the sanitized string, which has at most 500 code units. *)
Theorem C4_validateInput_cases (input : jsval) :
  (is_string input = false → is_rejection (validateInput input))
  ∧ (∀ s, input = VString s → (500 < length s)%nat →
       is_rejection (validateInput input))
  ∧ (∀ s, input = VString s → sanitizeForSpeech s = [] →
       is_rejection (validateInput input))
  ∧ (∀ s, input = VString s → (length s ≤ 500)%nat → sanitizeForSpeech s ≠ [] →
       validateInput input = accepted (sanitizeForSpeech s)
       ∧ (length (sanitizeForSpeech s) ≤ 500)%nat).
Proof.
  split; [|split; [|split; [|intros s Hin Hlen Hs; split]]].
  - destruct input; simpl; try done; intros _; apply rejected_is_rejection.
  - intros s -> Hlen. simpl.
    destruct (bool_decide (s = [])); simpl; [apply rejected_is_rejection|].
    destruct (Nat.ltb_spec 500 (length s)); [apply rejected_is_rejection | lia].
  - intros s -> Hs. simpl. rewrite Hs.
    destruct (bool_decide (s = [])); simpl; [apply rejected_is_rejection|].
    destruct (500 <? length s)%nat; apply rejected_is_rejection.
  - subst input. by apply validateInput_accepts.
  - apply sanitize_length.
Qed.

Lemma C4_witness :
  is_rejection (validateInput VNull)
  ∧ is_rejection (validateInput (VString (replicate 501 97)))
  ∧ is_rejection (validateInput (VString (lit "<script")))
  ∧ validateInput (VString (lit "**Build** done; ok"))
    = accepted (lit "Build done ok").
Proof.
  split; [|split; [|split]].
  - by apply (proj1 (C4_validateInput_cases VNull)).
  - apply (proj1 (proj2 (C4_validateInput_cases (VString (replicate 501 97))))
             (replicate 501 97) eq_refl).
    rewrite length_replicate. lia.
  - by apply (proj1 (proj2 (proj2 (C4_validateInput_cases (VString (lit "<script")))))
                (lit "<script") eq_refl).
  - refine (proj1 (proj2 (proj2 (proj2
              (C4_validateInput_cases (VString (lit "**Build** done; ok")))))
              (lit "**Build** done; ok") eq_refl _ _)).
    + vm_compute. lia.
    + vm_compute. discriminate.
Defined.

(** Claim C8.  On a message that contains [<script>alert(1)</script>] and
    [$(rm -rf /)] the sanitizer, a total function that cannot throw, gives a
    text with no [<script] opener in any letter case and without the [$] of
    shell substitution. *)
Theorem C8_sanitizer_strips_script_and_shell (message : jstring) :
  includes (lit "<script>alert(1)</script>") message = true →
  includes (lit "$(rm -rf /)") message = true →
  includes_ci (lit "<script") (sanitizeForSpeech message) = false
  ∧ (Chr.dollar ∉ sanitizeForSpeech message)
  ∧ (Chr.lt ∉ sanitizeForSpeech message).
Proof.
  intros _ _. pose proof (sanitize_no_shell_meta message) as H.
  split; [by apply no_lt_no_script|].
  rewrite Forall_forall in H.
  split; intros Hin; by apply H in Hin.
Qed.

Lemma C8_witness :
  sanitizeForSpeech (lit "<script>alert(1)</script> and $(rm -rf /)")
    = lit "alert(1)/script and (rm -rf /)"
  ∧ includes_ci (lit "<script")
      (sanitizeForSpeech (lit "<script>alert(1)</script> and $(rm -rf /)")) = false
  ∧ (Chr.dollar ∉ sanitizeForSpeech (lit "<script>alert(1)</script> and $(rm -rf /)")).
Proof.
  split; [vm_compute; reflexivity|].
  destruct (C8_sanitizer_strips_script_and_shell
              (lit "<script>alert(1)</script> and $(rm -rf /)")) as (H1 & H2 & _);
    [vm_compute; reflexivity | vm_compute; reflexivity |].
  by split.
Defined.

(** Claim C7, as stated, fails on a message of white space only: it has no
    unsafe content and at most 500 code units, and it is rejected. *)
Lemma C7_counterexample : ¬ round_trip_for_every_message.
Proof.
  intros H. specialize (H (lit " ") eq_refl).
  assert (length (lit " ") ≤ 500)%nat as Hlen by (vm_compute; lia).
  specialize (H Hlen). vm_compute in H. discriminate H.
Qed.

(** Claim C7, amended.  For every message with no unsafe content and at most
    500 code units that is not empty once trimmed, the sanitizer returns the
    trimmed message, [validateInput] accepts the message with the trimmed
    message as its sanitized text, and so it does on the sanitized text
    itself. *)
Theorem C7_clean_message_round_trip (m : jstring) :
  unsafe_free m = true → (length m ≤ 500)%nat → trim m ≠ [] →
  sanitizeForSpeech m = trim m
  ∧ validateInput (VString m) = accepted (trim m)
  ∧ validateInput (VString (sanitizeForSpeech m)) = accepted (trim m).
Proof.
  intros Hsafe Hlen Hne.
  assert (∀ s, unsafe_free s = true → (length s ≤ 500)%nat → trim s ≠ [] →
               sanitizeForSpeech s = trim s
               ∧ validateInput (VString s) = accepted (trim s)) as Hone.
  { intros s Hs Hl Hn.
    assert (sanitizeForSpeech s = trim s) as E.
    { rewrite (sanitize_unsafe_free _ Hs). apply take_ge.
      pose proof (trim_length s). lia. }
    split; [done|].
    rewrite <- E. apply validateInput_accepts; [done | by rewrite E]. }
  destruct (Hone m Hsafe Hlen Hne) as [E1 E2].
  split; [done|]. split; [done|].
  rewrite E1. rewrite <- (trim_idem m) at 2.
  apply Hone.
  - by apply unsafe_free_trim.
  - pose proof (trim_length m). lia.
  - by rewrite trim_idem.
Qed.

Lemma C7_witness :
  validateInput (VString (lit "  Deploy finished (3 files)  "))
  = accepted (lit "Deploy finished (3 files)").
Proof.
  apply (C7_clean_message_round_trip (lit "  Deploy finished (3 files)  "));
    [vm_compute; reflexivity | vm_compute; lia | vm_compute; discriminate].
Defined.

(** ** The rate limiter (claim C2) *)

Section RateLimit.

Implicit Types (counts : gmap jstring rate_record) (ip : jstring) (t : Z).

Lemma checkRateLimit_other t ip ip' counts :
  ip' ≠ ip → (checkRateLimit t ip' counts).2 !! ip = counts !! ip.
Proof.
  intros Hne. unfold checkRateLimit.
  destruct (counts !! ip') as [r|].
  - destruct (resetTime r <? t)%Z; [cbn [snd]; by rewrite lookup_insert_ne|].
    destruct (RATE_LIMIT <=? count r)%nat; cbn [snd];
      [done | by rewrite lookup_insert_ne].
  - cbn [snd]. by rewrite lookup_insert_ne.
Qed.

Lemma checkRateLimit_fresh t ip counts :
  no_window counts ip t →
  checkRateLimit t ip counts
  = (true, <[ip := {| count := 1; resetTime := (t + RATE_WINDOW)%Z |}]> counts).
Proof.
  unfold no_window, checkRateLimit. destruct (counts !! ip) as [r|]; [|done].
  intros H. by destruct (Z.ltb_spec (resetTime r) t); [|lia].
Qed.

Lemma checkRateLimit_full t ip counts r :
  counts !! ip = Some r → (t ≤ resetTime r)%Z → (RATE_LIMIT ≤ count r)%nat →
  checkRateLimit t ip counts = (false, counts).
Proof.
  intros Hr Ht Hc. unfold checkRateLimit. rewrite Hr.
  destruct (Z.ltb_spec (resetTime r) t); [lia|].
  by destruct (Nat.leb_spec RATE_LIMIT (count r)); [|lia].
Qed.

Lemma checkRateLimit_room t ip counts r :
  counts !! ip = Some r → (t ≤ resetTime r)%Z → (count r < RATE_LIMIT)%nat →
  checkRateLimit t ip counts
  = (true, <[ip := {| count := S (count r); resetTime := resetTime r |}]> counts).
Proof.
  intros Hr Ht Hc. unfold checkRateLimit. rewrite Hr.
  destruct (Z.ltb_spec (resetTime r) t); [lia|].
  by destruct (Nat.leb_spec RATE_LIMIT (count r)); [lia|].
Qed.

(** Inside a window that has admitted [c] requests, as many more are
    admitted as the limit leaves room for. *)
Lemma limiter_window ip R reqs : ∀ counts c,
  counts !! ip = Some {| count := c; resetTime := R |} →
  (c ≤ RATE_LIMIT)%nat →
  (∀ t, (t, ip) ∈ reqs → (t ≤ R)%Z) →
  admitted ip reqs (limiter_run reqs counts).1
  = ((RATE_LIMIT - c) `min` requests_of ip reqs)%nat.
Proof.
  induction reqs as [|[t ip'] rest IH]; intros counts c Hc Hle Hin.
  { simpl. lia. }
  assert (∀ t', (t', ip) ∈ rest → (t' ≤ R)%Z) as Hrest
    by (intros t' H'; apply Hin; by right).
  cbn [limiter_run requests_of].
  destruct (decide (ip' = ip)) as [->|Hne].
  - assert (t ≤ R)%Z as Ht by (apply Hin; left).
    rewrite (bool_decide_eq_true_2 _ eq_refl).
    destruct (decide (c < RATE_LIMIT)%nat) as [Hlt|Hge].
    + rewrite (checkRateLimit_room t ip counts _ Hc Ht Hlt). simpl count. simpl resetTime.
      destruct (limiter_run rest _) as [oks c2] eqn:E.
      cbn [admitted fst]. rewrite (bool_decide_eq_true_2 _ eq_refl). simpl andb.
      change oks with (oks, c2).1. rewrite <- E.
      rewrite (IH _ (S c)); [lia | by rewrite lookup_insert_eq | lia | done].
    + rewrite (checkRateLimit_full t ip counts _ Hc Ht) by (simpl; lia).
      destruct (limiter_run rest counts) as [oks c2] eqn:E.
      cbn [admitted fst]. rewrite andb_false_r.
      change oks with (oks, c2).1. rewrite <- E.
      rewrite (IH _ c Hc Hle Hrest). lia.
  - rewrite (bool_decide_eq_false_2 _ Hne).
    pose proof (checkRateLimit_other t ip ip' counts Hne) as Hother.
    destruct (checkRateLimit t ip' counts) as [ok c1].
    destruct (limiter_run rest c1) as [oks c2] eqn:E.
    cbn [admitted fst]. rewrite (bool_decide_eq_false_2 _ Hne). simpl andb.
    change oks with (oks, c2).1. rewrite <- E.
    simpl in Hother. rewrite (IH c1 c); [lia | by rewrite Hother | done | done].
Qed.

Lemma fetch_not_limited cfg e req st :
  (method req = lit "OPTIONS"
   ∨ (checkRateLimit (now e) (client_ip req) (requestCounts st)).1 = true) →
  resp_status (fetch cfg e req st).1 ≠ 429.
Proof.
  intros H. unfold fetch.
  destruct (bool_decide (method req = lit "OPTIONS")) eqn:Eo; [done|].
  destruct H as [H|H]; [by rewrite (bool_decide_eq_true_2 _ H) in Eo|].
  destruct (checkRateLimit _ _ _) as [ok c1]. simpl in H. subst ok. simpl negb.
  cbv iota.
  destruct (_ && _).
  - destruct (notify _ _ _ _) as [st2 [u|err]]; simpl; [done|].
    unfold error_status. by destruct (includes _ _).
  - by destruct (bool_decide (pathname req = _)).
Qed.

Lemma fetch_limiter cfg e req st :
  method req ≠ lit "OPTIONS" →
  requestCounts (fetch cfg e req st).2
  = (checkRateLimit (now e) (client_ip req) (requestCounts st)).2
  ∧ (resp_status (fetch cfg e req st).1 = 429
     ↔ (checkRateLimit (now e) (client_ip req) (requestCounts st)).1 = false).
Proof.
  intros Hm. split.
  - unfold fetch. rewrite (bool_decide_eq_false_2 _ Hm).
    destruct (checkRateLimit _ _ _) as [[|] c1]; simpl negb; cbv iota; [|done].
    destruct (_ && _).
    + unfold notify. destruct (notify_args e req) as [[[title message] enabled]|err];
        [|done].
      unfold sendNotification.
      destruct (negb (valid (validateInput title))); [done|].
      destruct (negb (valid (validateInput message))); [done|].
      destruct enabled; [|done].
      destruct (generateSpeech _ _ _) as [n g]. destruct (_ ≫= _); [done|]. by destruct (log_write e).
    + by destruct (bool_decide (pathname req = _)).
  - destruct (checkRateLimit (now e) (client_ip req) (requestCounts st)) as [[|] c1] eqn:E.
    + split; [|done]. intros H. exfalso. revert H. apply fetch_not_limited.
      right. by rewrite E.
    + split; [done|]. intros _. unfold fetch. rewrite (bool_decide_eq_false_2 _ Hm).
      by rewrite E.
Qed.

End RateLimit.

(** Claim C2.  For every client address the limiter admits at most 10
    requests per window of 60 seconds: of the requests that arrive while the
    window opened at [t0] lasts, the first 10 are admitted.  A request over
    the limit inside the window is answered with status 429 and leaves the
    whole state, the record included, as it was.  Once the reset time has
    passed, the next request of the address is not answered with 429, and
    its record gets count 1 and a reset time 60 seconds ahead, both at
    once. *)
Theorem C2_rate_limiter :
  (∀ counts ip t0 reqs,
     no_window counts ip t0 →
     (∀ t, (t, ip) ∈ reqs → (t ≤ t0 + RATE_WINDOW)%Z) →
     admitted ip ((t0, ip) :: reqs) (limiter_run ((t0, ip) :: reqs) counts).1
     = (10 `min` S (requests_of ip reqs))%nat)
  ∧ (∀ cfg e req st r,
       method req ≠ lit "OPTIONS" →
       requestCounts st !! client_ip req = Some r →
       (now e ≤ resetTime r)%Z → (10 ≤ count r)%nat →
       fetch cfg e req st = (too_many_requests, st))
  ∧ (∀ cfg e req st r,
       method req ≠ lit "OPTIONS" →
       requestCounts st !! client_ip req = Some r →
       (resetTime r < now e)%Z →
       resp_status (fetch cfg e req st).1 ≠ 429
       ∧ requestCounts (fetch cfg e req st).2 !! client_ip req
         = Some {| count := 1; resetTime := (now e + 60000)%Z |})
  ∧ (∀ cfg e req st,
       method req ≠ lit "OPTIONS" →
       requestCounts (fetch cfg e req st).2
       = (checkRateLimit (now e) (client_ip req) (requestCounts st)).2
       ∧ (resp_status (fetch cfg e req st).1 = 429
          ↔ (checkRateLimit (now e) (client_ip req) (requestCounts st)).1 = false)).
Proof.
  split; [|split; [|split]]; [| | |apply fetch_limiter].
  - intros counts ip t0 reqs Hfresh Hin.
    cbn [limiter_run]. rewrite (checkRateLimit_fresh _ _ _ Hfresh).
    destruct (limiter_run reqs _) as [oks c2] eqn:E.
    cbn [admitted fst]. rewrite (bool_decide_eq_true_2 _ eq_refl). simpl andb.
    change oks with (oks, c2).1. rewrite <- E.
    rewrite (limiter_window ip (t0 + RATE_WINDOW) reqs _ 1%nat);
      [unfold RATE_LIMIT; lia | by rewrite lookup_insert_eq | unfold RATE_LIMIT; lia | done].
  - intros cfg e req st r Hm Hr Ht Hc. unfold fetch.
    rewrite (bool_decide_eq_false_2 _ Hm).
    rewrite (checkRateLimit_full _ _ _ _ Hr Ht Hc). simpl. by destruct st.
  - intros cfg e req st r Hm Hr Ht.
    assert (no_window (requestCounts st) (client_ip req) (now e)) as Hfresh
      by (unfold no_window; by rewrite Hr).
    split.
    + apply fetch_not_limited. right. by rewrite (checkRateLimit_fresh _ _ _ Hfresh).
    + rewrite (proj1 (fetch_limiter cfg e req st Hm)).
      rewrite (checkRateLimit_fresh _ _ _ Hfresh). cbn [snd].
      by rewrite lookup_insert_eq.
Qed.

Lemma C2_witness :
  admitted (lit "10.0.0.1")
    [(0%Z, lit "10.0.0.1"); (5%Z, lit "10.0.0.1"); (7%Z, lit "10.0.0.2")]
    (limiter_run
       [(0%Z, lit "10.0.0.1"); (5%Z, lit "10.0.0.1"); (7%Z, lit "10.0.0.2")] ∅).1
  = 2%nat
  ∧ fetch cloud_config all_up (post_notify VNull)
      {| requestCounts := {[ lit "localhost" := {| count := 10; resetTime := 2000 |} ]};
         elevenLabsFailCount := 0; error_log := [] |}
    = (too_many_requests,
       {| requestCounts := {[ lit "localhost" := {| count := 10; resetTime := 2000 |} ]};
          elevenLabsFailCount := 0; error_log := [] |})
  ∧ requestCounts
      (fetch cloud_config all_up (post_notify VNull)
         {| requestCounts := {[ lit "localhost" := {| count := 10; resetTime := 500 |} ]};
            elevenLabsFailCount := 0; error_log := [] |}).2 !! client_ip (post_notify VNull)
    = Some {| count := 1; resetTime := 61000 |}.
Proof.
  destruct C2_rate_limiter as (H1 & H2 & H3 & _). split; [|split].
  - apply (H1 ∅ (lit "10.0.0.1") 0%Z [(5%Z, lit "10.0.0.1"); (7%Z, lit "10.0.0.2")]).
    + vm_compute. exact I.
    + intros t Hin. apply elem_of_cons in Hin as [Hin|Hin].
      * injection Hin as ->. vm_compute. discriminate.
      * apply elem_of_cons in Hin as [Hin|Hin]; [discriminate Hin|].
        by apply elem_of_nil in Hin.
  - apply (H2 cloud_config all_up (post_notify VNull) _ {| count := 10; resetTime := 2000 |}).
    + vm_compute. discriminate.
    + reflexivity.
    + vm_compute. discriminate.
    + simpl. lia.
  - apply (H3 cloud_config all_up (post_notify VNull)
             {| requestCounts := {[ lit "localhost" := {| count := 10; resetTime := 500 |} ]};
                elevenLabsFailCount := 0; error_log := [] |}
             {| count := 10; resetTime := 500 |}).
    + vm_compute. discriminate.
    + reflexivity.
    + reflexivity.
Defined.

(** ** The responses of the handler (claim C5) *)

Section Handler.

Variables (cfg : config) (e : env).

Lemma cors_on_every_response req st :
  record_get (resp_headers (fetch cfg e req st).1) (lit "Access-Control-Allow-Origin")
  = Some (lit "http://localhost").
Proof.
  unfold fetch. destruct (bool_decide (method req = _)); [done|].
  destruct (checkRateLimit _ _ _) as [[|] c1]; simpl negb; cbv iota; [|done].
  destruct (_ && _).
  - by destruct (notify _ _ _ _) as [st2 [u|err]].
  - by destruct (bool_decide (pathname req = _)).
Qed.

Lemma fetch_notify req st :
  method req = lit "POST" → pathname req = lit "/notify" →
  (checkRateLimit (now e) (client_ip req) (requestCounts st)).1 = true →
  fetch cfg e req st =
  match notify cfg e req (admitted_state e req st) with
  | (st2, Return _) => (notification_sent, st2)
  | (st2, Throw err) =>
      ({| resp_status := error_status err; resp_headers := jsonHeaders;
          resp_body := StatusJson (lit "error")
                         (match err_message err with
                          | [] => lit "Internal server error"
                          | msg => msg
                          end) |}, st2)
  end.
Proof.
  intros Hm Hp Hok. unfold fetch, admitted_state. rewrite Hm, Hp.
  destruct (checkRateLimit _ _ _) as [ok c1]. simpl in Hok. subst ok.
  reflexivity.
Qed.

(** If every provider of the list throws, the cascade throws what the last
    one, macOS, threw. *)
Lemma cascade_all_fail err_last ps : ∀ last n,
  generateSpeechMacOS (say_reply e) = Throw err_last →
  (∀ p k, p ∈ ps → ∃ err, (attempt cfg e p k).2 = Throw err) →
  ∃ n', cascade cfg e (ps ++ [macos]) last n = (n', Throw err_last).
Proof.
  induction ps as [|p ps IH]; intros last n Hmac Hall.
  - simpl. rewrite Hmac. simpl. eauto.
  - cbn [app cascade].
    destruct (Hall p n (list_elem_of_here _ _)) as [err Herr].
    destruct (attempt cfg e p n) as [n1 r]. simpl in Herr. subst r.
    apply IH; [done|]. intros p' k Hin. apply Hall. by right.
Qed.

(** Two literals of the source differ. *)
Ltac lit_ne := let H := fresh in intros H; vm_compute in H; discriminate H.

Lemma record_get_skip {A} (k k' : jstring) (v : A) tbl :
  k ≠ k' → record_get ((k, v) :: tbl) k' = record_get tbl k'.
Proof. intros H. simpl. by rewrite (bool_decide_eq_false_2 _ H). Qed.

Lemma get_prop_with_same key v data :
  get_prop e (with_prop key v data) key = Return v.
Proof.
  unfold with_prop, get_prop. cbn [record_get].
  by rewrite (bool_decide_eq_true_2 _ eq_refl).
Qed.

Lemma get_prop_with_other key key' v data w :
  lit key ≠ lit key' → get_prop e data key' = Return w →
  get_prop e (with_prop key v data) key' = Return w.
Proof.
  intros Hne. unfold with_prop, get_prop. rewrite (record_get_skip _ _ _ _ Hne).
  by destruct data.
Qed.

Lemma get_prop_defined data key w key' :
  get_prop e data key = Return w → ∃ w', get_prop e data key' = Return w'.
Proof. destruct data; simpl; intros; try done; eauto. Qed.

Lemma fetch_same_args req req' st :
  method req' = method req → pathname req' = pathname req →
  x_forwarded_for req' = x_forwarded_for req →
  notify_args e req' = notify_args e req →
  fetch cfg e req' st = fetch cfg e req st.
Proof.
  intros Hm Hp Hx Ha. unfold fetch, notify, client_ip. by rewrite Hm, Hp, Hx, Ha.
Qed.

(** A falsy property of the body can be spelled out as its default. *)
Lemma default_spelled_out req data key (dflt : jstring) v st :
  key ∈ ["title"; "message"]%string → dflt ≠ [] →
  (key = "title"%string → dflt = lit "PAI Notification") →
  (key = "message"%string → dflt = lit "Task completed") →
  json_body req = Return data →
  get_prop e data key = Return v → truthy v = false →
  fetch cfg e (with_body req (with_prop key (VString dflt) data)) st
  = fetch cfg e req st.
Proof.
  intros Hkey Hd Ht Hm Hbody Hv Hfalsy. apply fetch_same_args; try done.
  unfold notify_args. rewrite Hbody. cbn [with_body json_body mbind outcome_bind].
  destruct (get_prop_defined _ _ _ "title" Hv) as [t0 E1].
  destruct (get_prop_defined _ _ _ "message" Hv) as [m0 E2].
  destruct (get_prop_defined _ _ _ "voice_enabled" Hv) as [en E3].
  destruct (get_prop_defined _ _ _ "voice_id" Hv) as [vi E4].
  destruct (get_prop_defined _ _ _ "voice_name" Hv) as [vn E5].
  assert (truthy (VString dflt) = true) as Htr
    by (simpl; by rewrite (bool_decide_eq_false_2 _ Hd)).
  assert (∀ D, D = VString dflt → js_or (VString dflt) D = js_or v D) as Hj
    by (intros D ->; unfold js_or; by rewrite Htr, Hfalsy).
  apply elem_of_cons in Hkey as [->|Hkey];
    [|apply elem_of_cons in Hkey as [->|Hkey]; [|by apply elem_of_nil in Hkey]].
  - rewrite get_prop_with_same.
    rewrite (get_prop_with_other "title" "message" _ _ _ ltac:(lit_ne) E2),
      (get_prop_with_other "title" "voice_enabled" _ _ _ ltac:(lit_ne) E3),
      (get_prop_with_other "title" "voice_id" _ _ _ ltac:(lit_ne) E4),
      (get_prop_with_other "title" "voice_name" _ _ _ ltac:(lit_ne) E5).
    rewrite E1, E2, E3, E4, E5. cbn [mbind outcome_bind].
    rewrite E1 in Hv. injection Hv as ->.
    rewrite (Hj (VString (lit "PAI Notification"))); [done | by rewrite (Ht eq_refl)].
  - rewrite get_prop_with_same.
    rewrite (get_prop_with_other "message" "title" _ _ _ ltac:(lit_ne) E1),
      (get_prop_with_other "message" "voice_enabled" _ _ _ ltac:(lit_ne) E3),
      (get_prop_with_other "message" "voice_id" _ _ _ ltac:(lit_ne) E4),
      (get_prop_with_other "message" "voice_name" _ _ _ ltac:(lit_ne) E5).
    rewrite E1, E2, E3, E4, E5. cbn [mbind outcome_bind].
    rewrite E2 in Hv. injection Hv as ->.
    rewrite (Hj (VString (lit "Task completed"))); [done | by rewrite (Hm eq_refl)].
Qed.

(** A notification with the voice enabled moves the counter as the cascade
    does. *)
Lemma fetch_counter req st title message :
  method req = lit "POST" → pathname req = lit "/notify" →
  (checkRateLimit (now e) (client_ip req) (requestCounts st)).1 = true →
  notify_args e req = Return (title, message, true) →
  valid (validateInput title) = true → valid (validateInput message) = true →
  elevenLabsFailCount (fetch cfg e req st).2
  = (generateSpeech cfg e (elevenLabsFailCount st)).1.
Proof.
  intros Hm Hp Hok Hargs Ht Hmsg. rewrite (fetch_notify req st Hm Hp Hok).
  unfold notify. rewrite Hargs. unfold sendNotification. rewrite Ht, Hmsg.
  simpl negb. cbv iota. cbn [admitted_state elevenLabsFailCount].
  destruct (generateSpeech cfg e (elevenLabsFailCount st)) as [n g].
  destruct (_ ≫= _); [done|]. by destruct (log_write e).
Qed.

End Handler.

(** Claim C5.  For every request: an OPTIONS request is answered with
    status 204; a request the limiter refuses with 429; a POST /notify whose
    processing succeeds with 200 and [{status: "success"}]; a POST /notify
    whose processing throws with 400 exactly when the message of the error
    contains "Invalid" and with 500 otherwise; and every response carries
    the CORS header that admits the localhost origin only. *)
Theorem C5_fetch_responses (cfg : config) (e : env) (req : request) (st : server_state) :
  let resp := (fetch cfg e req st).1 in
  let allowed := (checkRateLimit (now e) (client_ip req) (requestCounts st)).1 in
  (method req = lit "OPTIONS" → resp_status resp = 204)
  ∧ (method req ≠ lit "OPTIONS" → allowed = false → resp = too_many_requests)
  ∧ (method req = lit "POST" → pathname req = lit "/notify" → allowed = true →
       match (notify cfg e req (admitted_state e req st)).2 with
       | Return _ => resp = notification_sent
       | Throw err =>
           resp_status resp
           = if includes (lit "Invalid") (err_message err) then 400 else 500
       end)
  ∧ record_get (resp_headers resp) (lit "Access-Control-Allow-Origin")
    = Some (lit "http://localhost").
Proof.
  intros resp allowed. subst resp allowed. split; [|split; [|split]].
  - intros Hm. unfold fetch. by rewrite Hm.
  - intros Hm Hno. unfold fetch. rewrite (bool_decide_eq_false_2 _ Hm).
    destruct (checkRateLimit _ _ _) as [ok c1]. simpl in Hno. by subst ok.
  - intros Hm Hp Hok. rewrite (fetch_notify cfg e req st Hm Hp Hok).
    by destruct (notify _ _ _ _) as [st2 [u|err]].
  - apply cors_on_every_response.
Qed.

Lemma C5_witness :
  resp_status (fetch cloud_config all_up
                 {| method := lit "OPTIONS"; pathname := lit "/notify";
                    x_forwarded_for := None; json_body := Return VNull |}
                 initial_state).1 = 204
  ∧ (fetch cloud_config all_up (post_notify (VObject [])) initial_state).1
    = notification_sent.
Proof.
  split.
  - by apply (proj1 (C5_fetch_responses cloud_config all_up _ initial_state)).
  - pose proof (proj1 (proj2 (proj2
      (C5_fetch_responses cloud_config all_up (post_notify (VObject [])) initial_state))))
      as H.
    specialize (H eq_refl eq_refl eq_refl). vm_compute in H. exact H.
Defined.

(** ** A failed notification and the error log (claim C3) *)

(** What [notify_args] computes from the five fields of the body. *)
Lemma notify_args_fields (e : env) (req : request) (data : jsval)
    (title0 message0 enabled0 voice_id voice_name : jsval) :
  json_body req = Return data →
  get_prop e data "title" = Return title0 →
  get_prop e data "message" = Return message0 →
  get_prop e data "voice_enabled" = Return enabled0 →
  get_prop e data "voice_id" = Return voice_id →
  get_prop e data "voice_name" = Return voice_name →
  notify_args e req
  = let title := js_or title0 (VString (lit "PAI Notification")) in
    let message := js_or message0 (VString (lit "Task completed")) in
    let voiceId := js_or (js_or voice_id voice_name) VNull in
    if truthy voiceId && negb (is_string voiceId) then
      Throw (Error (lit "Invalid voice_id"))
    else if throws_on_ToString title then Throw (TypeError (msg_not_primitive e title))
    else if negb (is_string message) then Throw (TypeError (msg_not_a_function e message))
    else Return (title, message, negb (is_false enabled0)).
Proof.
  intros Hbody Ht Hm He Hi Hn. unfold notify_args.
  rewrite Hbody. cbn [mbind outcome_bind].
  rewrite Ht, Hm, He, Hi, Hn. reflexivity.
Qed.

(** With valid input [sendNotification] returns, unless speech failed and
    the error log could not be written. *)
Lemma sendNotification_valid (cfg : config) (e : env) (title message : jsval)
    (enabled : bool) (st : server_state) :
  valid (validateInput title) = true → valid (validateInput message) = true →
  (sendNotification cfg e title message enabled st).2
  = if enabled then
      match spoken cfg e (elevenLabsFailCount st), log_write e with
      | Throw _, LogWriteFails werr _ => Throw werr
      | _, _ => Return tt
      end
    else Return tt.
Proof.
  intros Ht Hm. unfold sendNotification, spoken. rewrite Ht, Hm. simpl negb. cbv iota.
  destruct enabled; [|done].
  destruct (generateSpeech cfg e (elevenLabsFailCount st)) as [n g]. cbn [snd].
  destruct (_ ≫= _); [done|]. by destruct (log_write e).
Qed.

(** Claim C3 at its failing inputs.  Every provider fails for two
    notifications in a row, "Build one" and "Build two": both are answered
    with status 200 and [{status: "success"}], and the error log then
    holds the chunk of the second only, with its time stamp, the error of
    the last provider and the text that was to be spoken; the chunk of the
    first is gone.  And when the error log cannot be written, the failure of
    the write is the answer: status 500. *)
Theorem C3_error_log_is_replaced :
  (serve cloud_config
     [(all_down, post_message "Build one"); (all_down, post_message "Build two")]
     initial_state).1
  = [notification_sent; notification_sent]
  ∧ error_log
      (serve cloud_config
         [(all_down, post_message "Build one"); (all_down, post_message "Build two")]
         initial_state).2
    = [ lit "2025-12-31T10:00:00.000Z - TTS Error: macOS say exited with code 1"
        ++ [Chr.newline] ++ lit "Message: Build two" ++ [Chr.newline; Chr.newline] ]
  ∧ (fetch cloud_config log_unwritable (post_message "Build one") initial_state).1
    = {| resp_status := 500; resp_headers := jsonHeaders;
         resp_body := StatusJson (lit "error") (lit "EACCES: permission denied") |}.
Proof. split; [|split]; vm_compute; reflexivity. Qed.

(** ** The defaults of the body (claim C10) *)

(** Claim C10.  For every POST /notify whose body leaves the message out or
    gives a falsy value for it: the handler does exactly what it does for
    the same body with the message "Task completed" spelled out; that text
    passes validation, and so does "PAI Notification", which stands in for
    a falsy title.  When the body names no voice of a wrong type and its
    title has a string form, [sendNotification] is called with the message
    "Task completed", the title and the voice flag being those of the body;
    and with a title that passes validation the answer is status 200 with
    [{status: "success"}], the one exception being an error log that cannot
    be written when speech fails. *)
Theorem C10_defaults_before_validation (cfg : config) (e : env) (req : request)
    (st : server_state) (data title0 message0 enabled0 voice_id voice_name : jsval) :
  let title := js_or title0 (VString (lit "PAI Notification")) in
  let voiceId := js_or (js_or voice_id voice_name) VNull in
  method req = lit "POST" → pathname req = lit "/notify" →
  (checkRateLimit (now e) (client_ip req) (requestCounts st)).1 = true →
  json_body req = Return data →
  get_prop e data "title" = Return title0 →
  get_prop e data "message" = Return message0 →
  get_prop e data "voice_enabled" = Return enabled0 →
  get_prop e data "voice_id" = Return voice_id →
  get_prop e data "voice_name" = Return voice_name →
  truthy message0 = false →
  fetch cfg e req st
  = fetch cfg e (with_body req (with_prop "message" (VString (lit "Task completed")) data)) st
  ∧ validateInput (VString (lit "Task completed")) = accepted (lit "Task completed")
  ∧ (truthy title0 = false →
       title = VString (lit "PAI Notification")
       ∧ validateInput title = accepted (lit "PAI Notification"))
  ∧ (truthy voiceId && negb (is_string voiceId) = false →
     throws_on_ToString title = false →
     notify cfg e req (admitted_state e req st)
     = sendNotification cfg e title (VString (lit "Task completed"))
         (negb (is_false enabled0)) (admitted_state e req st)
     ∧ (valid (validateInput title) = true →
          (fetch cfg e req st).1 = notification_sent
          ∨ ∃ err werr remains,
              is_false enabled0 = false
              ∧ spoken cfg e (elevenLabsFailCount st) = Throw err
              ∧ log_write e = LogWriteFails werr remains
              ∧ (fetch cfg e req st).1 = error_response werr)).
Proof.
  intros title voiceId Hpost Hpath Hok Hbody Ht Hm He Hi Hn Hfalsy.
  assert (validateInput (VString (lit "Task completed")) = accepted (lit "Task completed"))
    as Hdefault by (vm_compute; reflexivity).
  split.
  { symmetry.
    apply (default_spelled_out cfg e req data "message" _ message0); try done.
    apply elem_of_cons. right. apply elem_of_cons. by left. }
  split; [done|].
  split.
  { intros Hno. subst title. unfold js_or. rewrite Hno. split; [done|].
    vm_compute. reflexivity. }
  intros Hvoice Htitle.
  assert (notify_args e req
          = Return (title, VString (lit "Task completed"), negb (is_false enabled0)))
    as Hargs.
  { rewrite (notify_args_fields e req data _ _ _ _ _ Hbody Ht Hm He Hi Hn).
    cbv zeta. fold title voiceId. rewrite Hvoice, Htitle.
    assert (js_or message0 (VString (lit "Task completed"))
            = VString (lit "Task completed")) as ->
      by (unfold js_or; by rewrite Hfalsy).
    reflexivity. }
  split; [by unfold notify; rewrite Hargs|].
  intros Hvalid. rewrite (fetch_notify cfg e req st Hpost Hpath Hok).
  unfold notify. rewrite Hargs.
  pose proof (sendNotification_valid cfg e title (VString (lit "Task completed"))
                (negb (is_false enabled0)) (admitted_state e req st) Hvalid) as Hs.
  rewrite Hdefault in Hs. specialize (Hs eq_refl).
  destruct (sendNotification _ _ _ _ _ _) as [st2 o]. cbn [snd] in Hs. subst o.
  destruct (is_false enabled0); cbn [negb]; [by left|].
  cbn [admitted_state elevenLabsFailCount].
  destruct (spoken cfg e (elevenLabsFailCount st)) as [u|err]; [by left|].
  destruct (log_write e) as [|werr remains]; [by left|].
  right. by exists err, werr, remains.
Qed.

Lemma C10_witness :
  notify cloud_config all_up (post_notify (VObject [(lit "message", VString [])]))
    (admitted_state all_up (post_notify (VObject [(lit "message", VString [])]))
       initial_state)
  = sendNotification cloud_config all_up (VString (lit "PAI Notification"))
      (VString (lit "Task completed")) true
      (admitted_state all_up (post_notify (VObject [(lit "message", VString [])]))
         initial_state)
  ∧ (fetch cloud_config all_up (post_notify (VObject [(lit "message", VString [])]))
       initial_state).1 = notification_sent.
Proof.
  split; [|vm_compute; reflexivity].
  refine (proj1 (proj2 (proj2 (proj2
    (C10_defaults_before_validation cloud_config all_up
       (post_notify (VObject [(lit "message", VString [])])) initial_state
       (VObject [(lit "message", VString [])])
       VUndefined (VString []) VUndefined VUndefined VUndefined
       eq_refl eq_refl eq_refl eq_refl eq_refl eq_refl eq_refl eq_refl eq_refl eq_refl)))
    eq_refl eq_refl)).
Defined.

(** ** The sticky fallback (claim C1) *)

Section Sticky.

Variable cfg : config.

Lemma build_providers_capped present n :
  (ELEVENLABS_MAX_FAILS ≤ n)%nat →
  build_providers cfg present n
  = (if negb (bool_decide (TTS_PROVIDER cfg = lit "macos")) && present
     then [piper] else []) ++ [macos].
Proof.
  intros H. unfold build_providers.
  destruct (Nat.ltb_spec n ELEVENLABS_MAX_FAILS); [lia|].
  by rewrite andb_false_r.
Qed.

Lemma capped_list present n :
  (ELEVENLABS_MAX_FAILS ≤ n)%nat →
  (elevenlabs ∉ build_providers cfg present n)
  ∧ (head (build_providers cfg present n) = Some piper
     ∨ head (build_providers cfg present n) = Some macos).
Proof.
  intros H. rewrite (build_providers_capped _ _ H).
  destruct (_ && _); simpl.
  - split; [|by left]. by intros [|[|?%elem_of_nil]%elem_of_cons]%elem_of_cons.
  - split; [|by right]. by intros [|?%elem_of_nil]%elem_of_cons.
Qed.

Lemma build_providers_head present n :
  head (build_providers cfg present n) = Some elevenlabs →
  api_key_set cfg = true
  ∧ ∃ rest, build_providers cfg present n = elevenlabs :: rest ∧ elevenlabs ∉ rest.
Proof.
  unfold build_providers.
  destruct (bool_decide (TTS_PROVIDER cfg = lit "elevenlabs")); simpl;
    [destruct (api_key_set cfg); simpl;
     [destruct (n <? ELEVENLABS_MAX_FAILS)%nat; simpl|]|].
  - intros _. split; [done|]. eexists; split; [done|].
    destruct (_ && _); simpl.
    + by intros [|[|?%elem_of_nil]%elem_of_cons]%elem_of_cons.
    + by intros [|?%elem_of_nil]%elem_of_cons.
  - by destruct (_ && _).
  - by destruct (_ && _).
  - by destruct (_ && _).
Qed.

(** A cascade without ElevenLabs leaves the counter alone. *)
Lemma cascade_local e ps : ∀ last n,
  elevenlabs ∉ ps → (cascade cfg e ps last n).1 = n.
Proof.
  induction ps as [|p ps IH]; intros last n Hnot; [done|].
  assert (p ≠ elevenlabs) as Hp by (intros ->; apply Hnot; by left).
  assert (elevenlabs ∉ ps) as Hps by (intros Hin; apply Hnot; by right).
  cbn [cascade]. destruct p; [done| |]; cbn [attempt].
  - destruct (generateSpeechPiper _ _ _); cbn [mbind outcome_bind]; [done|].
    by apply IH.
  - destruct (generateSpeechMacOS _); cbn [mbind outcome_bind]; [done|].
    by apply IH.
Qed.

Lemma generateSpeech_capped e n :
  (ELEVENLABS_MAX_FAILS ≤ n)%nat → (generateSpeech cfg e n).1 = n.
Proof. intros H. apply cascade_local, capped_list, H. Qed.

Lemma sendNotification_keeps_cap e title message enabled st :
  (ELEVENLABS_MAX_FAILS ≤ elevenLabsFailCount st)%nat →
  elevenLabsFailCount (sendNotification cfg e title message enabled st).1
  = elevenLabsFailCount st.
Proof.
  intros H. unfold sendNotification.
  destruct (negb (valid (validateInput title))); [done|].
  destruct (negb (valid (validateInput message))); [done|].
  destruct enabled; [|done].
  pose proof (generateSpeech_capped e _ H) as Hn.
  destruct (generateSpeech _ _ _) as [n g]. simpl in Hn. subst n.
  destruct (_ ≫= _); [done|]. by destruct (log_write e).
Qed.

Lemma fetch_keeps_cap e req st :
  (ELEVENLABS_MAX_FAILS ≤ elevenLabsFailCount st)%nat →
  elevenLabsFailCount (fetch cfg e req st).2 = elevenLabsFailCount st.
Proof.
  intros H. unfold fetch.
  destruct (bool_decide (method req = _)); [done|].
  destruct (checkRateLimit _ _ _) as [[|] c1]; simpl negb; cbv iota; [|done].
  destruct (_ && _).
  - unfold notify. destruct (notify_args e req) as [[[title message] enabled]|err].
    + pose proof (sendNotification_keeps_cap e title message enabled
        {| requestCounts := c1; elevenLabsFailCount := elevenLabsFailCount st;
           error_log := error_log st |} H) as Hk.
      by destruct (sendNotification _ _ _ _ _ _) as [st2 [u|err]].
    + done.
  - by destruct (bool_decide (pathname req = _)).
Qed.

Lemma serve_keeps_cap reqs : ∀ st,
  (ELEVENLABS_MAX_FAILS ≤ elevenLabsFailCount st)%nat →
  elevenLabsFailCount (serve cfg reqs st).2 = elevenLabsFailCount st.
Proof.
  induction reqs as [|[e req] rest IH]; intros st H; [done|].
  cbn [serve]. pose proof (fetch_keeps_cap e req st H) as Hf.
  destruct (fetch cfg e req st) as [r st1]. simpl in Hf.
  assert (ELEVENLABS_MAX_FAILS ≤ elevenLabsFailCount st1)%nat as H1 by lia.
  pose proof (IH st1 H1) as Hs.
  destruct (serve cfg rest st1) as [rs st2]. simpl in *. lia.
Qed.

(** With overlapping calls: a capped counter stays capped as long as no
    call is waiting for a reply of ElevenLabs, and then none ever will. *)
Lemma step_keeps_cap w ev w' :
  Overlap.step cfg w ev = Some w' →
  (ELEVENLABS_MAX_FAILS ≤ Overlap.failCount w)%nat → Overlap.quiet w →
  (ELEVENLABS_MAX_FAILS ≤ Overlap.failCount w')%nat ∧ Overlap.quiet w'.
Proof.
  intros Hstep Hcap Hq. destruct ev as [id present|id r|id]; simpl in Hstep.
  - destruct (Overlap.calls w !! id) eqn:E; [done|]. injection Hstep as <-.
    split; [done|]. intros j. simpl.
    destruct (decide (j = id)) as [->|Hne].
    + rewrite lookup_insert_eq. rewrite (build_providers_capped _ _ Hcap).
      by destruct (_ && _).
    + rewrite lookup_insert_ne by done. apply Hq.
  - destruct (Overlap.calls w !! id) as [[| |]|] eqn:E; try done.
    by destruct (Hq id).
  - destruct (Overlap.calls w !! id) as [[| |]|] eqn:E; try done.
    injection Hstep as <-. split; [unfold on_catch; simpl; lia|].
    intros j. simpl. destruct (decide (j = id)) as [->|Hne].
    + by rewrite lookup_insert_eq.
    + rewrite lookup_insert_ne by done. apply Hq.
Qed.

Lemma run_keeps_cap evs : ∀ w w',
  Overlap.run cfg evs w = Some w' →
  (ELEVENLABS_MAX_FAILS ≤ Overlap.failCount w)%nat → Overlap.quiet w →
  (ELEVENLABS_MAX_FAILS ≤ Overlap.failCount w')%nat ∧ Overlap.quiet w'.
Proof.
  induction evs as [|ev evs IH]; intros w w' Hrun Hcap Hq.
  - injection Hrun as <-. done.
  - simpl in Hrun. destruct (Overlap.step cfg w ev) as [w1|] eqn:E; [|done].
    destruct (step_keeps_cap _ _ _ E Hcap Hq) as [Hcap1 Hq1]. by eapply IH.
Qed.

(** A call that runs alone moves the counter as [generateSpeech] does. *)
Lemma solo_agrees e id n calls :
  calls !! id = None →
  ∃ calls',
    Overlap.run cfg (Overlap.solo cfg e id n)
      {| Overlap.failCount := n; Overlap.calls := calls |}
    = Some {| Overlap.failCount := (generateSpeech cfg e n).1; Overlap.calls := calls' |}.
Proof.
  intros Hfree. unfold Overlap.solo, generateSpeech.
  cbn [Overlap.run Overlap.step Overlap.calls Overlap.failCount]. rewrite Hfree.
  destruct (build_providers cfg (piper_model_present e) n) as [|p rest] eqn:Eb.
  { simpl. eauto. }
  destruct p.
  - destruct (build_providers_head (piper_model_present e) n) as (Hkey & rest' & E' & Hnot);
      [by rewrite Eb|].
    rewrite Eb in E'. injection E' as <-.
    cbn [Overlap.first_phase Overlap.run Overlap.step Overlap.calls Overlap.failCount].
    rewrite lookup_insert_eq.
    cbn [cascade attempt]. unfold generateSpeechElevenLabs. rewrite Hkey. simpl negb.
    cbv iota.
    destruct (elevenlabs_settle (elevenlabs_reply e) n) as [n1 [a|err]];
      cbn [snd mbind outcome_bind Overlap.run Overlap.step Overlap.calls Overlap.failCount].
    + eauto.
    + rewrite lookup_insert_eq. rewrite (cascade_local e rest _ _ Hnot). eauto.
  - assert (elevenlabs ∉ piper :: rest) as Hnot.
    { rewrite <- Eb. unfold build_providers in *.
      destruct (_ && _ && _); [done|]. simpl in *.
      destruct (_ && _); simpl.
      + by intros [|[|?%elem_of_nil]%elem_of_cons]%elem_of_cons.
      + by intros [|?%elem_of_nil]%elem_of_cons. }
    rewrite (cascade_local e _ _ _ Hnot). simpl. eauto.
  - assert (elevenlabs ∉ macos :: rest) as Hnot.
    { rewrite <- Eb. unfold build_providers in *.
      destruct (_ && _ && _); [done|]. simpl in *.
      destruct (_ && _); simpl.
      + by intros [|[|?%elem_of_nil]%elem_of_cons]%elem_of_cons.
      + by intros [|?%elem_of_nil]%elem_of_cons. }
    rewrite (cascade_local e _ _ _ Hnot). simpl. eauto.
Qed.

End Sticky.

(** Claim C1, as stated, fails twice.  On a run with two overlapping calls:
    the first is refused with status 429, which sets the counter to 3 and
    then 4, the second, sent before that, succeeds afterwards and resets the
    counter to 0; the next call has ElevenLabs first in its list again.  And
    on a response with status 429 whose body cannot be read: the rejected
    read is thrown before the status is looked at, and the counter is not
    set. *)
Lemma C1_counterexample :
  ¬ sticky_in_every_run cloud_config ∧ ¬ status_429_caps cloud_config.
Proof.
  split; [|intros H;
           by specialize (H (ElRefusedNoText 429 (Error (lit "socket closed"))) 0%nat
                            eq_refl)].
  intros H.
  apply (H [Overlap.Enter 1 false; Overlap.Enter 2 false]
           {| Overlap.failCount := 0;
              Overlap.calls := <[2%nat := Overlap.Fetching]>
                                 (<[1%nat := Overlap.Fetching]> ∅) |}
           1%nat 429 (lit "Too many concurrent requests")
           {| Overlap.failCount := 3;
              Overlap.calls := <[1%nat := Overlap.Thrown]>
                                 (<[2%nat := Overlap.Fetching]>
                                    (<[1%nat := Overlap.Fetching]> ∅)) |}
           [Overlap.Catch 1; Overlap.Reply 2 (ElAudio [])]
           {| Overlap.failCount := 0;
              Overlap.calls := <[2%nat := Overlap.Local]>
                (<[1%nat := Overlap.Local]>
                   (<[1%nat := Overlap.Thrown]>
                      (<[2%nat := Overlap.Fetching]>
                         (<[1%nat := Overlap.Fetching]> ∅)))) |}
           false); try reflexivity.
  vm_compute. apply elem_of_cons. by left.
Qed.

(** Claim C1, amended.  An error response of ElevenLabs whose body has been
    read and which carries a quota signal (status 429, or "quota" or "limit"
    in the body) sets the failure counter to its maximum at once.  From then
    on every call of [generateSpeech] builds a provider list without
    ElevenLabs that starts with Piper or macOS, API key or not, provided no
    other call was waiting for a reply of ElevenLabs when the refusal
    arrived; so it is in particular when the server handles its requests
    one after the other.  A successful ElevenLabs call sets the counter to
    zero.  The last part tells what the code does with an error response
    whose body cannot be read: whatever its status, the call counts as one
    more failure. *)
Theorem C1_quota_forces_fallback (cfg : config) :
  (∀ status errorText n,
     quota_signal status errorText = true →
     (elevenlabs_settle (ElRefused status errorText) n).1 = ELEVENLABS_MAX_FAILS)
  ∧ (∀ w id status errorText w1 evs w2 present,
       Overlap.step cfg w (Overlap.Reply id (ElRefused status errorText)) = Some w1 →
       quota_signal status errorText = true →
       (∀ j, j ≠ id → Overlap.calls w !! j ≠ Some Overlap.Fetching) →
       Overlap.run cfg evs w1 = Some w2 →
       (elevenlabs ∉ build_providers cfg present (Overlap.failCount w2))
       ∧ (head (build_providers cfg present (Overlap.failCount w2)) = Some piper
          ∨ head (build_providers cfg present (Overlap.failCount w2)) = Some macos))
  ∧ (∀ e n status errorText reqs st present,
       head (build_providers cfg (piper_model_present e) n) = Some elevenlabs →
       elevenlabs_reply e = ElRefused status errorText →
       quota_signal status errorText = true →
       elevenLabsFailCount st = (generateSpeech cfg e n).1 →
       (elevenlabs ∉ build_providers cfg present (elevenLabsFailCount (serve cfg reqs st).2))
       ∧ (head (build_providers cfg present (elevenLabsFailCount (serve cfg reqs st).2))
            = Some piper
          ∨ head (build_providers cfg present (elevenLabsFailCount (serve cfg reqs st).2))
            = Some macos))
  ∧ (∀ e n a,
       head (build_providers cfg (piper_model_present e) n) = Some elevenlabs →
       elevenlabs_reply e = ElAudio a →
       generateSpeech cfg e n
       = (0%nat, Return {| speech_audio := a; speech_provider := elevenlabs;
                           speech_format := mp3 |}))
  ∧ (∀ e n status err,
       head (build_providers cfg (piper_model_present e) n) = Some elevenlabs →
       elevenlabs_reply e = ElRefusedNoText status err →
       (generateSpeech cfg e n).1 = S n).
Proof.
  split; [|split; [|split; [|split]]].
  - intros status errorText n Hq. simpl. by rewrite Hq.
  - intros w id status errorText w1 evs w2 present Hstep Hq Hothers Hrun.
    simpl in Hstep.
    destruct (Overlap.calls w !! id) as [[| |]|] eqn:E; try done.
    rewrite Hq in Hstep. injection Hstep as <-.
    destruct (run_keeps_cap cfg evs _ _ Hrun) as [Hcap _].
    + done.
    + intros j. simpl. destruct (decide (j = id)) as [->|Hne].
      * by rewrite lookup_insert_eq.
      * rewrite lookup_insert_ne by done. by apply Hothers.
    + by apply capped_list.
  - intros e n status errorText reqs st present Hhead Hreply Hq Hst.
    apply capped_list.
    assert (ELEVENLABS_MAX_FAILS ≤ elevenLabsFailCount st)%nat as Hcap.
    { rewrite Hst. unfold generateSpeech.
      destruct (build_providers_head cfg _ _ Hhead) as (Hkey & rest & -> & Hnot).
      cbn [cascade attempt]. unfold generateSpeechElevenLabs.
      rewrite Hkey, Hreply. simpl negb. cbv iota. cbn [elevenlabs_settle].
      rewrite Hq. cbn [mbind outcome_bind].
      rewrite (cascade_local cfg e rest _ _ Hnot). unfold on_catch. simpl. lia. }
    by rewrite (serve_keeps_cap cfg reqs st Hcap).
  - intros e n a Hhead Hreply. unfold generateSpeech.
    destruct (build_providers_head cfg _ _ Hhead) as (Hkey & rest & -> & Hnot).
    cbn [cascade attempt]. unfold generateSpeechElevenLabs.
    by rewrite Hkey, Hreply.
  - intros e n status err Hhead Hreply. unfold generateSpeech.
    destruct (build_providers_head cfg _ _ Hhead) as (Hkey & rest & -> & Hnot).
    cbn [cascade attempt]. unfold generateSpeechElevenLabs.
    rewrite Hkey, Hreply. simpl negb. cbv iota. cbn [elevenlabs_settle mbind outcome_bind].
    by rewrite (cascade_local cfg e rest _ _ Hnot).
Qed.

Lemma C1_witness :
  (elevenlabs ∉ build_providers cloud_config true
     (elevenLabsFailCount
        (serve cloud_config
           [(all_up, post_notify (VObject [])); (all_up, post_notify (VObject []))]
           {| requestCounts := ∅; elevenLabsFailCount := 4; error_log := [] |}).2))
  ∧ head (build_providers cloud_config true 4) = Some piper.
Proof.
  split.
  - refine (proj1 (proj1 (proj2 (proj2 (C1_quota_forces_fallback cloud_config)))
              {| now := 0; iso_time := []; piper_model_present := false;
                 elevenlabs_reply := ElRefused 429 (lit "quota exceeded");
                 piper_reply := ProcError (Error []); say_reply := ProcError (Error []);
                 afplay_reply := PlayExit None; log_write := LogWritten;
                 msg_null_property := []; msg_not_primitive := λ _, [];
                 msg_not_a_function := λ _, [] |}
              0%nat 429 (lit "quota exceeded") _ _ true _ _ _ _)); reflexivity.
  - destruct (proj1 (proj2 (C1_quota_forces_fallback cloud_config))
                {| Overlap.failCount := 0;
                   Overlap.calls := <[1%nat := Overlap.Fetching]> ∅ |}
                1%nat 429 (lit "rate limit")
                {| Overlap.failCount := 3;
                   Overlap.calls := <[1%nat := Overlap.Thrown]>
                                      (<[1%nat := Overlap.Fetching]> ∅) |}
                [Overlap.Catch 1; Overlap.Enter 2 true]
                {| Overlap.failCount := 4;
                   Overlap.calls := <[2%nat := Overlap.Local]>
                     (<[1%nat := Overlap.Local]>
                        (<[1%nat := Overlap.Thrown]> (<[1%nat := Overlap.Fetching]> ∅))) |}
                true) as [_ [H|H]].
    + reflexivity.
    + reflexivity.
    + intros j Hj. cbn [Overlap.calls]. rewrite lookup_insert_ne by done.
      by rewrite lookup_empty.
    + reflexivity.
    + exact H.
    + vm_compute in H. discriminate H.
Defined.

(** ** The emotion tag (claim C6) *)

Section EmotionTag.

Implicit Types (s pre post emoji ws label : jstring) (q : N → bool).

Lemma startsWith_iff (pat : jstring) s :
  startsWith pat s = true ↔ ∃ rest, s = pat ++ rest.
Proof.
  revert s. induction pat as [|a pat IH]; intros s; simpl.
  - split; [eauto | done].
  - destruct s as [|c t].
    + split; [done | by intros [rest ?]].
    + rewrite andb_true_iff, N.eqb_eq, IH. split.
      * intros [-> [rest ->]]. eauto.
      * intros [rest [= -> ->]]. eauto.
Qed.

Lemma startsWith_self (pat : jstring) post : startsWith pat (pat ++ post) = true.
Proof. apply startsWith_iff. eauto. Qed.

Lemma takeWhile_app_all q s t :
  Forall (λ c, q c = true) s → takeWhile q (s ++ t) = s ++ takeWhile q t.
Proof. induction 1 as [|c s Hc Hs IH]; simpl; [done|]. by rewrite Hc, IH. Qed.

Lemma takeWhile_prefix q s : s = takeWhile q s ++ drop (length (takeWhile q s)) s.
Proof. by rewrite drop_takeWhile, takeWhile_dropWhile. Qed.

Lemma match_alt_sound (alts : list jstring) s e :
  match_alt alts s = Some e → e ∈ alts ∧ ∃ rest, s = e ++ rest.
Proof.
  induction alts as [|a alts IH]; simpl; [done|].
  destruct (startsWith a s) eqn:E.
  - intros [= <-]. split; [by left | by apply startsWith_iff].
  - intros H. destruct (IH H) as [? ?]. split; [by right | done].
Qed.

(** No emoji of the pattern is a prefix of another: the alternation finds
    the emoji that is there. *)
Lemma match_alt_emoji emoji rest :
  emoji ∈ tag_emojis → match_alt tag_emojis (emoji ++ rest) = Some emoji.
Proof.
  intros H. unfold tag_emojis in H. simpl in H.
  repeat (apply elem_of_cons in H as [->|H]; [reflexivity|]).
  by apply elem_of_nil in H.
Qed.

Lemma tag_here_sound s m :
  tag_here s = Some m →
  ∃ ws post,
    s = tag_text (tm_emoji m) ws (tm_label m) ++ post
    ∧ is_tag (tm_emoji m) ws (tm_label m)
    ∧ tm_whole m = tag_text (tm_emoji m) ws (tm_label m).
Proof.
  rewrite tag_here_eq. unfold tag_here_closed. destruct s as [|c s1]; [done|].
  destruct (N.eqb_spec c Chr.lbracket) as [->|]; [|done].
  destruct (match_alt tag_emojis s1) as [e|] eqn:Ee; [|done].
  destruct (match_alt_sound _ _ _ Ee) as [Hin [s2 ->]].
  rewrite drop_app_length.
  pose proof (takeWhile_prefix is_space s2) as Hws.
  pose proof (takeWhile_all is_space s2) as Hsp.
  destruct (takeWhile is_space s2) as [|w ws] eqn:Ew; [done|].
  set (s3 := drop (length (w :: ws)) s2) in *.
  pose proof (takeWhile_prefix is_word s3) as Hl.
  pose proof (takeWhile_all is_word s3) as Hwd.
  destruct (takeWhile is_word s3) as [|l label] eqn:El; [done|].
  destruct (drop (length (l :: label)) s3) as [|c' post] eqn:Er; [done|].
  destruct (N.eqb_spec c' Chr.rbracket) as [->|]; [|done].
  intros [= <-]. cbn [tm_emoji tm_label tm_whole].
  exists (w :: ws), post. split; [|split; [|done]].
  - clearbody s3. subst s3 s2. unfold tag_text. cbn [app]. f_equal.
    repeat (rewrite <- app_assoc; cbn [app]). done.
  - by repeat split.
Qed.

Lemma tag_here_complete emoji ws label post :
  is_tag emoji ws label →
  tag_here (tag_text emoji ws label ++ post)
  = Some {| tm_whole := tag_text emoji ws label; tm_emoji := emoji; tm_label := label |}.
Proof.
  intros (Hin & Hws & Hsp & Hl & Hwd).
  assert (tag_text emoji ws label ++ post
          = Chr.lbracket :: emoji ++ ws ++ label ++ Chr.rbracket :: post) as ->.
  { unfold tag_text. cbn [app]. f_equal.
    repeat (rewrite <- app_assoc; cbn [app]). done. }
  assert (takeWhile is_word (label ++ Chr.rbracket :: post) = label) as E2.
  { rewrite (takeWhile_app_all _ _ _ Hwd). cbn [takeWhile].
    change (is_word Chr.rbracket) with false. cbv iota. apply app_nil_r. }
  assert (takeWhile is_space (ws ++ label ++ Chr.rbracket :: post) = ws) as E1.
  { rewrite (takeWhile_app_all _ _ _ Hsp).
    destruct label as [|l label]; [done|].
    inversion Hwd as [|? ? Hl0 Hlabel]; subst.
    cbn [app takeWhile]. rewrite (word_not_space _ Hl0). apply app_nil_r. }
  rewrite tag_here_eq. unfold tag_here_closed.
  rewrite N.eqb_refl, (match_alt_emoji _ _ Hin), drop_app_length, E1.
  destruct ws as [|w ws]; [done|]. rewrite drop_app_length, E2.
  destruct label as [|l label]; [done|]. rewrite drop_app_length, N.eqb_refl.
  done.
Qed.

Lemma match_tag_sound s : ∀ i m,
  match_tag s = Some (i, m) →
  (i ≤ length s)%nat ∧ tag_here (drop i s) = Some m
  ∧ ∀ j, (j < i)%nat → tag_here (drop j s) = None.
Proof.
  induction s as [|c t IH]; intros i m.
  - simpl. done.
  - cbn [match_tag]. destruct (tag_here (c :: t)) as [m0|] eqn:E0.
    + intros [= <- <-]. split; [simpl; lia|]. split; [done|]. intros j Hj. lia.
    + destruct (match_tag t) as [[i' m']|] eqn:Et; [|done].
      intros [= <- <-]. destruct (IH _ _ eq_refl) as (Hlen & Hhere & Hbefore).
      split; [simpl; lia|]. split; [done|].
      intros [|j] Hj; [done|]. apply Hbefore. lia.
Qed.

Lemma match_tag_complete pre : ∀ s m,
  tag_here s = Some m →
  (∀ j, (j < length pre)%nat → tag_here (drop j (pre ++ s)) = None) →
  match_tag (pre ++ s) = Some (length pre, m).
Proof.
  induction pre as [|c pre IH]; intros s m Hm Hbefore.
  - destruct s; [done|]. cbn [app match_tag length]. by rewrite Hm.
  - pose proof (Hbefore 0%nat ltac:(simpl; lia)) as H0. cbn [drop app] in H0.
    cbn [app match_tag length]. rewrite H0.
    rewrite (IH s m Hm); [done|].
    intros j Hj. apply (Hbefore (S j)). simpl. lia.
Qed.

Lemma match_tag_none s :
  (∀ j, (j ≤ length s)%nat → tag_here (drop j s) = None) → match_tag s = None.
Proof.
  induction s as [|c t IH]; intros H.
  - done.
  - pose proof (H 0%nat ltac:(simpl; lia)) as H0. cbn [drop] in H0.
    cbn [match_tag]. rewrite H0.
    rewrite IH; [done|]. intros j Hj. apply (H (S j)). simpl. lia.
Qed.

Lemma replaceFirst_at (pat : jstring) pre : ∀ post,
  (∀ j, (j < length pre)%nat → startsWith pat (drop j (pre ++ pat ++ post)) = false) →
  replaceFirst pat [] (pre ++ pat ++ post) = pre ++ post.
Proof.
  induction pre as [|c pre IH]; intros post Hbefore.
  - cbn [app]. destruct (pat ++ post) eqn:E.
    + destruct pat; [|done]. simpl in E. by subst.
    + cbn [replaceFirst]. rewrite <- E, startsWith_self. by rewrite drop_app_length.
  - pose proof (Hbefore 0%nat ltac:(simpl; lia)) as H0. cbn [drop app] in H0.
    cbn [app replaceFirst]. rewrite H0. f_equal.
    apply IH. intros j Hj. apply (Hbefore (S j)). simpl. lia.
Qed.

(** A decomposition of the message around a tag is found by the pattern at
    that position. *)
Lemma tag_here_at message pre emoji ws label post :
  message = pre ++ tag_text emoji ws label ++ post → is_tag emoji ws label →
  tag_here (drop (length pre) message)
  = Some {| tm_whole := tag_text emoji ws label; tm_emoji := emoji; tm_label := label |}.
Proof. intros -> H. rewrite drop_app_length. by apply tag_here_complete. Qed.

Lemma first_tag_found message pre emoji ws label post :
  first_tag message pre emoji ws label post →
  match_tag message
  = Some (length pre,
          {| tm_whole := tag_text emoji ws label; tm_emoji := emoji; tm_label := label |})
  ∧ replaceFirst (tag_text emoji ws label) [] message = pre ++ post.
Proof.
  intros (Hmsg & Htag & Hleft).
  assert (∀ j, (j < length pre)%nat → tag_here (drop j message) = None) as Hnone.
  { intros j Hj. destruct (tag_here (drop j message)) as [m|] eqn:E; [|done].
    destruct (tag_here_sound _ _ E) as (ws' & post' & Hd & Htag' & _).
    assert (message = take j message ++ tag_text (tm_emoji m) ws' (tm_label m) ++ post')
      as Hdec by (by rewrite <- Hd, take_drop).
    pose proof (Hleft _ _ _ _ _ Hdec Htag') as Hle.
    rewrite length_take in Hle. lia. }
  split.
  - rewrite Hmsg. apply match_tag_complete; [by apply tag_here_complete|].
    by rewrite <- Hmsg.
  - rewrite Hmsg. apply replaceFirst_at. rewrite <- Hmsg.
    intros j Hj. destruct (startsWith _ (drop j message)) eqn:E; [|done].
    apply startsWith_iff in E as [post' Hd].
    assert (message = take j message ++ tag_text emoji ws label ++ post')
      as Hdec by (by rewrite <- Hd, take_drop).
    pose proof (Hleft _ _ _ _ _ Hdec Htag) as Hle.
    rewrite length_take in Hle. lia.
Qed.

Lemma match_tag_first message i m :
  match_tag message = Some (i, m) →
  ∃ ws post, first_tag message (take i message) (tm_emoji m) ws (tm_label m) post.
Proof.
  intros H. destruct (match_tag_sound _ _ _ H) as (Hlen & Hhere & Hbefore).
  destruct (tag_here_sound _ _ Hhere) as (ws & post & Hd & Htag & _).
  exists ws, post. split; [by rewrite <- Hd, take_drop|]. split; [done|].
  intros pre' emoji' ws' label' post' Hdec Htag'.
  rewrite length_take. destruct (decide (length pre' < i)%nat) as [Hlt|]; [|lia].
  pose proof (tag_here_at _ _ _ _ _ _ Hdec Htag') as Hat.
  by rewrite (Hbefore _ Hlt) in Hat.
Qed.

Lemma agrees_decide emoji label :
  bool_decide (record_get emojiToEmotion emoji = Some (toLowerCase label)) = true
  ↔ agrees emoji label.
Proof. apply bool_decide_eq_true. Qed.

End EmotionTag.

(** Claim C6, as stated, fails on a sanitized message whose first tag does
    not agree and whose second tag does: no emotion comes out. *)
Lemma C6_counterexample : ¬ emotion_iff_some_tag_agrees.
Proof.
  intros H. specialize (H two_tags).
  assert (sanitizeForSpeech two_tags = two_tags) as E by (vm_compute; reflexivity).
  simpl in H. rewrite E in H. destruct H as [_ H].
  assert (is_Some (emotion (extractEmotionalMarker two_tags))) as [x Hx].
  { apply H. exists (lit "[" ++ Emoji.party ++ lit " foo] "), Emoji.collision,
      (lit " "), (lit "excited"), [].
    split; [reflexivity|]. split; [|reflexivity].
    split; [by left|].
    split; [done|]. split; [by repeat constructor|].
    split; [done|]. by repeat constructor. }
  vm_compute in Hx. discriminate Hx.
Qed.

(** Claim C6, amended.  [extractEmotionalMarker] looks at the leftmost
    bracketed tag only.  It returns an emotion exactly when the message has
    a tag and the lower-cased label of the leftmost one is the emotion name
    of its emoji in the table; the emotion is that name and the cleaned
    text is the message without that tag, trimmed.  When the leftmost tag
    does not agree, or there is no tag, the message comes back untouched
    and without emotion. *)
Theorem C6_leftmost_tag_decides (message : jstring) :
  (∀ pre emoji ws label post,
     first_tag message pre emoji ws label post →
     (agrees emoji label →
        extractEmotionalMarker message
        = {| cleaned := trim (pre ++ post); emotion := Some (toLowerCase label) |})
     ∧ (¬ agrees emoji label →
        extractEmotionalMarker message = {| cleaned := message; emotion := None |}))
  ∧ ((∀ pre emoji ws label post,
        message = pre ++ tag_text emoji ws label ++ post → ¬ is_tag emoji ws label) →
     extractEmotionalMarker message = {| cleaned := message; emotion := None |})
  ∧ (is_Some (emotion (extractEmotionalMarker message))
     ↔ ∃ pre emoji ws label post,
         first_tag message pre emoji ws label post ∧ agrees emoji label).
Proof.
  assert (∀ pre emoji ws label post,
     first_tag message pre emoji ws label post →
     (agrees emoji label →
        extractEmotionalMarker message
        = {| cleaned := trim (pre ++ post); emotion := Some (toLowerCase label) |})
     ∧ (¬ agrees emoji label →
        extractEmotionalMarker message = {| cleaned := message; emotion := None |}))
    as Hfirst.
  { intros pre emoji ws label post Hft.
    destruct (first_tag_found _ _ _ _ _ _ Hft) as [Hm Hr].
    unfold extractEmotionalMarker. rewrite Hm. cbn [tm_emoji tm_label tm_whole].
    split; intros Ha.
    - rewrite (bool_decide_eq_true_2 _ Ha). by rewrite Hr.
    - by rewrite (bool_decide_eq_false_2 _ Ha). }
  split; [done|]. split.
  - intros Hno. unfold extractEmotionalMarker.
    destruct (match_tag message) as [[i m]|] eqn:E; [|done].
    destruct (match_tag_first _ _ _ E) as (ws & post & Hmsg & Htag & _).
    by destruct (Hno _ _ _ _ _ Hmsg).
  - split.
    + intros Hsome. unfold extractEmotionalMarker in Hsome.
      destruct (match_tag message) as [[i m]|] eqn:E; [|by destruct Hsome].
      destruct (bool_decide _) eqn:Ea; [|by destruct Hsome].
      apply agrees_decide in Ea.
      destruct (match_tag_first _ _ _ E) as (ws & post & Hft).
      eauto 10.
    + intros (pre & emoji & ws & label & post & Hft & Ha).
      rewrite (proj1 (Hfirst _ _ _ _ _ Hft) Ha). simpl. eauto.
Qed.

Lemma C6_witness :
  extractEmotionalMarker (lit "Tests pass [" ++ Emoji.sparkles ++ lit " Success] now")
  = {| cleaned := lit "Tests pass  now"; emotion := Some (lit "success") |}
  ∧ extractEmotionalMarker (lit "Tests pass (3 of 3)")
    = {| cleaned := lit "Tests pass (3 of 3)"; emotion := None |}.
Proof.
  split; [|apply (proj1 (proj2 (C6_leftmost_tag_decides (lit "Tests pass (3 of 3)"))));
           intros pre emoji ws label post Hdec _;
           assert (Chr.lbracket ∈ lit "Tests pass (3 of 3)") as Hin
             by (rewrite Hdec; apply elem_of_app; right; by left);
           vm_compute in Hin;
           repeat (apply elem_of_cons in Hin as [Hin|Hin]; [discriminate Hin|]);
           by apply elem_of_nil in Hin].
  refine (proj1 (proj1 (C6_leftmost_tag_decides _)
            (lit "Tests pass ") Emoji.sparkles (lit " ") (lit "Success") (lit " now") _) _);
    [|reflexivity].
  split; [reflexivity|]. split.
  - split; [vm_compute; set_solver|].
    split; [done|]. split; [by repeat constructor|].
    split; [done|]. by repeat constructor.
  - intros pre' emoji' ws' label' post' Hdec Htag.
    destruct (decide (length pre' < 11)%nat) as [Hlt|]; [|simpl; lia].
    pose proof (tag_here_at _ _ _ _ _ _ Hdec Htag) as Hhere.
    exfalso. revert Hhere.
    do 11 (destruct pre' as [|? pre']; [vm_compute; discriminate|]).
    simpl in Hlt. lia.
Defined.

(** ** The explicit marker of the completion extractor (claim C9) *)

Section Words.

Import Completion.

Lemma words_from_spacefree s : ∀ cur,
  spacefree cur → Forall spacefree (words_from cur s).
Proof.
  induction s as [|c t IH]; intros cur Hcur; simpl.
  - destruct cur; [constructor|]. constructor; [|constructor].
    by apply Forall_rev.
  - destruct (is_space c) eqn:E.
    + destruct cur; [apply IH; constructor|]. constructor; [by apply Forall_rev|].
      apply IH. constructor.
    + apply IH. by constructor.
Qed.

Lemma words_from_word w : ∀ cur s,
  spacefree w → words_from cur (w ++ s) = words_from (rev w ++ cur) s.
Proof.
  induction w as [|c w IH]; intros cur s Hw; [done|].
  inversion Hw as [|? ? Hc Hw']; subst. cbn [app words_from]. rewrite Hc.
  rewrite (IH _ _ Hw'). simpl. by rewrite <- app_assoc.
Qed.

Lemma words_unwords_length ws :
  Forall spacefree ws → (length (words (unwords ws)) ≤ length ws)%nat.
Proof.
  unfold words. induction 1 as [|w ws Hw Hws IH]; [done|].
  destruct ws as [|w' ws].
  - cbn [unwords]. rewrite <- (app_nil_r w), (words_from_word _ _ _ Hw).
    simpl. destruct (rev w ++ []); simpl; lia.
  - cbn [unwords] in *. rewrite (words_from_word _ _ _ Hw).
    cbn [words_from]. change (is_space Chr.space) with true. cbv iota.
    destruct (rev w ++ []); simpl in *; lia.
Qed.

(** A truncated description has at most [n] words. *)
Lemma truncate_words_count n s :
  (length (words (truncate_words n s)) ≤ n)%nat.
Proof.
  unfold truncate_words.
  etrans; [apply words_unwords_length|].
  - apply Forall_take, words_from_spacefree. constructor.
  - rewrite length_take. lia.
Qed.

End Words.

(** Claim C9, as stated, fails in the model of the specification whatever
    the speech cleaner, the later rules and the combination rule are: the
    description is cut to ten words, and the marker line of [long_marker]
    carries twelve. *)
Lemma C9_counterexample :
  ¬ ∃ speechClean later_rules combine,
      marker_always_wins (λ _, 0%nat) speechClean later_rules combine.
Proof.
  intros (speechClean & later_rules & combine & H).
  specialize (H long_marker (lit "COMPLETED: " ++ twelve_words)
                (lit "COMPLETED: " ++ twelve_words) (lit " " ++ twelve_words)).
  assert (Completion.marker_text (λ _, 0%nat) (lit " " ++ twelve_words) = twelve_words)
    as Et by (vm_compute; reflexivity).
  rewrite Et in H.
  assert (length (Completion.words twelve_words) = 12%nat) as E12
    by (vm_compute; reflexivity).
  rewrite <- H in E12.
  - unfold Completion.extractCompletion in E12.
    pose proof (truncate_words_count 10
      (speechClean
         (Completion.override combine
            (Completion.modifications (Completion.tool_uses (Completion.turn_window long_marker)))
            (Completion.cascade (λ _, 0%nat) later_rules
               (Completion.last_assistant_text (Completion.turn_window long_marker))
               (omap Completion.describe
                  (Completion.tool_uses (Completion.turn_window long_marker))))))).
    lia.
  - vm_compute. apply elem_of_cons. by left.
  - vm_compute. apply elem_of_cons. by left.
  - vm_compute. reflexivity.
Qed.

Section Marker.

Import Completion.

Lemma skip_opt_here (p rest : jstring) : skip_opt p (p ++ rest) = rest.
Proof. unfold skip_opt. by rewrite startsWith_self, drop_app_length. Qed.

Lemma skip_opt_not (p s : jstring) : startsWith p s = false → skip_opt p s = s.
Proof. unfold skip_opt. by intros ->. Qed.

Lemma skip_opt_spec (p s : jstring) :
  ∃ b, optional p b ∧ s = b ++ skip_opt p s ∧ (b = [] → p ≠ [] → startsWith p s = false).
Proof.
  unfold skip_opt. destruct (startsWith p s) eqn:E.
  - exists p. split; [by left|]. split; [|by intros ->].
    apply startsWith_iff in E as [rest ->]. by rewrite drop_app_length.
  - exists []. split; [by right|]. by split.
Qed.

Lemma trimStart_blank (ws s : jstring) : blank ws → trimStart (ws ++ s) = trimStart s.
Proof.
  unfold trimStart. induction 1 as [|c ws Hc Hws IH]; [done|].
  cbn [app dropWhile]. by rewrite Hc.
Qed.

Lemma trimStart_split (s : jstring) : ∃ ws, blank ws ∧ s = ws ++ trimStart s.
Proof.
  exists (takeWhile is_space s). split; [apply takeWhile_all|].
  unfold trimStart. by rewrite takeWhile_dropWhile.
Qed.

(** A blank stretch does not begin with the target emoji or with markup. *)
Lemma blank_start (gap rest : jstring) (c : N) (p : jstring) :
  blank gap → is_space c = false →
  startsWith (c :: p) rest = false → startsWith (c :: p) (gap ++ rest) = false.
Proof.
  intros Hgap Hc Hrest. destruct Hgap as [|g gap Hg _]; [done|].
  cbn [app startsWith]. destruct (N.eqb_spec c g) as [->|_]; [congruence | done].
Qed.

(** What is left once the markup and the emoji in front of the label have
    been read. *)
Lemma label_reached (gap bold2 label bold3 trailing : jstring) :
  blank gap → optional (lit "**") bold2 →
  label = lit "COMPLETED:" ∨ label = lit "Done:" →
  skip_opt (lit "**") (trimStart (gap ++ bold2 ++ label ++ bold3 ++ trailing))
  = label ++ bold3 ++ trailing.
Proof.
  intros Hgap Hb2 Hlabel. rewrite (trimStart_blank _ _ Hgap).
  destruct Hb2 as [->| ->], Hlabel as [->| ->]; reflexivity.
Qed.

Lemma label_read (label bold3 trailing : jstring) :
  label = lit "COMPLETED:" ∨ label = lit "Done:" →
  optional (lit "**") bold3 →
  (bold3 = [] → startsWith (lit "**") trailing = false) →
  match_alt marker_labels (label ++ bold3 ++ trailing) = Some label
  ∧ skip_opt (lit "**") (drop (length label) (label ++ bold3 ++ trailing)) = trailing.
Proof.
  intros Hlabel Hb3 Hnot. rewrite drop_app_length.
  split; [by destruct Hlabel as [->| ->]|].
  destruct Hb3 as [->| ->]; [apply skip_opt_here|].
  apply skip_opt_not. by apply Hnot.
Qed.

(** Rule 1 reads every marker line, and the remainder it captures is the
    one of the line. *)
Lemma marker_trailing_complete (line trailing : jstring) :
  marker_line line trailing → marker_trailing line = Some trailing.
Proof.
  intros (indent & bold1 & emoji & gap & bold2 & label & bold3
          & -> & Hindent & Hb1 & Hem & Hgap & Hb2 & Hlabel & Hb3 & Hnot).
  assert (∃ gap' bold2',
    trimStart (skip_opt Emoji.target
                 (skip_opt (lit "**")
                    (trimStart (indent ++ bold1 ++ emoji ++ gap ++ bold2 ++ label
                                ++ bold3 ++ trailing))))
    = trimStart (gap' ++ bold2' ++ label ++ bold3 ++ trailing)
    ∧ blank gap' ∧ optional (lit "**") bold2') as (gap' & bold2' & E & Hgap' & Hb2').
  { rewrite (trimStart_blank _ _ Hindent).
    assert (startsWith Emoji.target (bold2 ++ label ++ bold3 ++ trailing) = false) as Hne
      by (destruct Hb2 as [->| ->], Hlabel as [->| ->]; reflexivity).
    assert (startsWith (lit "**") (label ++ bold3 ++ trailing) = false) as Hnl
      by (destruct Hlabel as [->| ->]; reflexivity).
    assert (startsWith Emoji.target (label ++ bold3 ++ trailing) = false) as Hnl'
      by (destruct Hlabel as [->| ->]; reflexivity).
    destruct Hb1 as [->| ->], Hem as [->| ->].
    - exists gap, bold2. split; [|done].
      change (trimStart (lit "**" ++ ?x)) with (lit "**" ++ x).
      by rewrite skip_opt_here, skip_opt_here.
    - exists gap, bold2. split; [|done].
      change (trimStart (lit "**" ++ ?x)) with (lit "**" ++ x).
      rewrite skip_opt_here. cbn [app].
      rewrite skip_opt_not; [done|]. by apply blank_start.
    - exists gap, bold2. split; [|done]. cbn [app].
      change (trimStart (Emoji.target ++ ?x)) with (Emoji.target ++ x).
      rewrite (skip_opt_not (lit "**")) by reflexivity.
      by rewrite skip_opt_here.
    - cbn [app]. rewrite (trimStart_blank _ _ Hgap).
      destruct Hb2 as [->| ->].
      + exists [], []. split; [|by split; [constructor | right]].
        assert (trimStart (lit "**" ++ label ++ bold3 ++ trailing)
                = lit "**" ++ label ++ bold3 ++ trailing) as -> by reflexivity.
        rewrite skip_opt_here. by rewrite skip_opt_not.
      + exists [], []. split; [|by split; [constructor | right]].
        cbn [app].
        assert (trimStart (label ++ bold3 ++ trailing) = label ++ bold3 ++ trailing) as Htrim
          by (destruct Hlabel as [->| ->]; reflexivity).
        rewrite Htrim at 1. rewrite (skip_opt_not (lit "**")) by done.
        by rewrite skip_opt_not. }
  unfold marker_trailing. cbv zeta. rewrite E.
  rewrite (label_reached _ _ _ _ _ Hgap' Hb2' Hlabel).
  destruct (label_read label bold3 trailing Hlabel Hb3 Hnot) as [-> ->]. done.
Qed.

(** Rule 1 reads marker lines only. *)
Lemma marker_trailing_sound (line trailing : jstring) :
  marker_trailing line = Some trailing → marker_line line trailing.
Proof.
  unfold marker_trailing. cbv zeta.
  destruct (trimStart_split line) as (indent & Hindent & Eline).
  destruct (skip_opt_spec (lit "**") (trimStart line)) as (bold1 & Hb1 & E1 & _).
  destruct (skip_opt_spec Emoji.target (skip_opt (lit "**") (trimStart line)))
    as (emoji & Hem & E2 & _).
  destruct (trimStart_split (skip_opt Emoji.target (skip_opt (lit "**") (trimStart line))))
    as (gap & Hgap & E3).
  set (l2 := trimStart (skip_opt Emoji.target (skip_opt (lit "**") (trimStart line)))) in *.
  destruct (skip_opt_spec (lit "**") l2) as (bold2 & Hb2 & E4 & _).
  destruct (match_alt marker_labels (skip_opt (lit "**") l2)) as [label|] eqn:El; [|done].
  intros [= <-].
  apply match_alt_sound in El as [Hin [rest Er]].
  destruct (skip_opt_spec (lit "**") (drop (length label) (skip_opt (lit "**") l2)))
    as (bold3 & Hb3 & E5 & Hnot).
  rewrite Er, drop_app_length in E5, Hnot |- *.
  exists indent, bold1, emoji, gap, bold2, label, bold3.
  split; [|split; [done|split; [done|split; [done|split; [done|split; [done|split;
           [|split; [done|]]]]]]]].
  - etrans; [exact Eline|]. f_equal. etrans; [exact E1|]. f_equal.
    etrans; [exact E2|]. f_equal. etrans; [exact E3|]. f_equal.
    etrans; [exact E4|]. f_equal. etrans; [exact Er|]. f_equal. exact E5.
  - apply elem_of_cons in Hin as [->|Hin]; [by left|].
    apply elem_of_cons in Hin as [->|Hin]; [by right|]. by apply elem_of_nil in Hin.
  - intros Hnil. rewrite Hnil in E5. cbn [app] in E5. rewrite <- E5. by apply Hnot.
Qed.

(** The first marker line of a text is the one rule 1 finds. *)
Lemma first_marker_found (before after : list jstring) (line trailing : jstring) :
  marker_line line trailing →
  Forall (λ l, ∀ tr, ¬ marker_line l tr) before →
  first_marker (before ++ line :: after) = Some trailing.
Proof.
  intros Hline. induction 1 as [|l before Hl _ IH]; cbn [app first_marker].
  - by rewrite (marker_trailing_complete _ _ Hline).
  - destruct (marker_trailing l) as [tr|] eqn:E; [|done].
    by destruct (Hl tr (marker_trailing_sound _ _ E)).
Qed.

End Marker.

Lemma cascade_marker (agent_tag_length : jstring → nat)
    (rules : jstring → list jstring → jstring) (text trailing : jstring)
    (tools : list jstring) :
  Completion.first_marker (Completion.split_lines text) = Some trailing →
  Completion.marker_text agent_tag_length trailing ≠ [] →
  Completion.cascade agent_tag_length rules text tools
  = Completion.marker_text agent_tag_length trailing.
Proof.
  intros Hfirst Hne. unfold Completion.cascade, Completion.rule_marker.
  rewrite Hfirst. simpl.
  by destruct (Completion.marker_text agent_tag_length trailing).
Qed.

(** Claim C9, amended (on the model of the specification, the hook itself
    not being among the sources).  Let [text] be the last non-empty
    assistant text of the turn window, [line] its first marker line, with
    the remainder [trailing], and [d] that remainder trimmed and without the
    agent tag in front of it, not empty.  Then the cascade yields [d]
    whatever the later rules find and whatever the tool calls are; and the
    description is [d] after speech cleaning, cut to its first ten words,
    unless file modifications were detected and [d] has less than ten code
    units: then it is made from the modifications alone. *)
Theorem C9_marker_rule_wins (agent_tag_length : jstring → nat)
    (speechClean : jstring → jstring) (later_rules : jstring → list jstring → jstring)
    (combine : list jstring → jstring) (t : Completion.transcript)
    (line trailing : jstring) :
  let w := Completion.turn_window t in
  let mods := Completion.modifications (Completion.tool_uses w) in
  let d := trim (drop (agent_tag_length (trim trailing)) (trim trailing)) in
  first_marker_line (Completion.last_assistant_text w) line trailing →
  d ≠ [] →
  (∀ rules tools,
     Completion.cascade agent_tag_length rules (Completion.last_assistant_text w) tools = d)
  ∧ (mods = [] ∨ (10 ≤ length d)%nat →
     Completion.extractCompletion agent_tag_length speechClean later_rules combine t
     = Completion.truncate_words 10 (speechClean d))
  ∧ (mods ≠ [] → (length d < 10)%nat →
     Completion.extractCompletion agent_tag_length speechClean later_rules combine t
     = Completion.truncate_words 10 (speechClean (combine mods))).
Proof.
  intros w mods d (before & after & Hlines & Hline & Hbefore) Hne.
  assert (∀ rules tools,
    Completion.cascade agent_tag_length rules (Completion.last_assistant_text w) tools = d)
    as Hc.
  { intros rules tools. apply cascade_marker; [|done].
    rewrite Hlines. by apply first_marker_found. }
  split; [done|].
  unfold Completion.extractCompletion. fold w. rewrite Hc. fold mods.
  unfold Completion.override. split.
  - intros Hov. destruct mods as [|x xs]; [done|].
    destruct Hov as [Hov|Hov]; [done|].
    by destruct (Nat.ltb_spec (length d) 10); [lia|].
  - intros Hmods Hshort. destruct mods as [|x xs]; [done|].
    by destruct (Nat.ltb_spec (length d) 10); [|lia].
Qed.

Lemma C9_witness :
  Completion.extractCompletion bracket_tag_length (λ s, s) (λ _ _, []) (λ _, [])
    tagged_marker
  = lit "Fixed the login bug in auth module".
Proof.
  refine (eq_trans
    (proj1 (proj2 (C9_marker_rule_wins bracket_tag_length (λ s, s) (λ _ _, []) (λ _, [])
              tagged_marker
              (Emoji.target
               ++ lit " COMPLETED: [AGENT:engineer] Fixed the login bug in auth module")
              (lit " [AGENT:engineer] Fixed the login bug in auth module") _ _)) _) _).
  - exists [lit "All set."], [lit "Created a follow-up note."].
    split; [vm_compute; reflexivity|]. split.
    + exists [], [], Emoji.target, (lit " "), [], (lit "COMPLETED:"), [].
      split; [reflexivity|]. split; [constructor|]. split; [by right|].
      split; [by left|]. split; [by repeat constructor|]. split; [by right|].
      split; [by left|]. split; [by right|]. reflexivity.
    + constructor; [|constructor]. intros tr Hm.
      apply marker_trailing_complete in Hm. vm_compute in Hm. discriminate Hm.
  - vm_compute. discriminate.
  - left. vm_compute. reflexivity.
  - vm_compute. reflexivity.
Defined.

(** A marker in an assistant text that is not the last one is not looked
    at, by the words of the specification. *)
Lemma overwritten_marker_ignored (agent_tag_length : jstring → nat)
    (speechClean : jstring → jstring) (later_rules : jstring → list jstring → jstring)
    (combine : list jstring → jstring) :
  Completion.extractCompletion agent_tag_length speechClean later_rules combine
    overwritten_marker
  = Completion.truncate_words 10 (speechClean (later_rules (lit "Anything else?") [])).
Proof. reflexivity. Qed.

(** * Further properties

    Properties of the server beyond the claims of the specification, read
    off the source: the theorems named [X1_...] to [X30_...]. *)

(** ** The sanitizer on every input *)

Section SanitizerBounds.

Lemma replace_from_shrinks m :
  shrinks m → ∀ s skip, (length (replace_from m skip s) ≤ length s - skip)%nat.
Proof.
  intros Hm s. induction s as [|c t IH]; intros skip; simpl; [lia|].
  destruct skip as [|k]; [|apply IH].
  destruct (m (c :: t)) as [[[|k] r]|] eqn:E.
  - simpl. specialize (IH 0%nat). lia.
  - apply Hm in E. simpl in E. rewrite length_app. specialize (IH k). lia.
  - simpl. specialize (IH 0%nat). lia.
Qed.

Lemma script_shrinks : shrinks script_closed.
Proof.
  intros s n r. unfold script_closed.
  destruct (startsWith_ci _ s) eqn:E; [|done].
  intros [= <- <-]. apply startsWith_ci_length in E. simpl in *. lia.
Qed.

Lemma dotdot_shrinks : shrinks dotdot_closed.
Proof.
  intros s n r. unfold dotdot_closed.
  destruct (startsWith _ s) eqn:E; [|done].
  intros [= <- <-]. apply startsWith_length in E. simpl in *. lia.
Qed.

Lemma shell_meta_shrinks : shrinks shell_meta_closed.
Proof.
  intros [|c t] n r; simpl; [done|].
  destruct (is_shell_meta c); [|done]. intros [= <- <-]. simpl. lia.
Qed.

Lemma delimited_shrinks d n : shrinks (delimited_closed d n).
Proof.
  intros s k r. unfold delimited_closed.
  destruct (startsWith (replicate n d) s) eqn:E1; [|done].
  destruct (takeWhile _ (drop n s)) as [|b body] eqn:Eb; [done|].
  destruct (startsWith (replicate n d) (drop _ s)) eqn:E2; [|done].
  intros [= <- <-].
  apply startsWith_length in E2. rewrite length_replicate, length_drop in E2.
  apply startsWith_length in E1. rewrite length_replicate in E1.
  assert (length (b :: body) ≤ length (drop n s))%nat as Hb.
  { rewrite <- Eb. rewrite (takeWhile_length (λ c, negb (c =? d)) (drop n s)). lia. }
  rewrite length_drop in Hb. cbn [length] in *. lia.
Qed.

Lemma heading_shrinks : shrinks heading_closed.
Proof.
  intros s n r. unfold heading_closed.
  destruct (_ && _); [|done].
  destruct (takeWhile is_space _) as [|w ws] eqn:Ew; [done|].
  intros [= <- <-].
  assert (length (w :: ws) ≤ length (drop (length (takeWhile (N.eqb Chr.hash) s)) s))%nat as Hw.
  { rewrite <- Ew. rewrite (takeWhile_length is_space (drop _ s)). lia. }
  rewrite length_drop in Hw.
  pose proof (takeWhile_length (N.eqb Chr.hash) s). cbn [length] in *. lia.
Qed.

Lemma replaceAll_length m s : shrinks m → (length (replaceAll m s) ≤ length s)%nat.
Proof. intros Hm. pose proof (replace_from_shrinks m Hm s 0). unfold replaceAll. lia. Qed.

Lemma sanitize_before_cut s :
  ∃ y, sanitizeForSpeech s = take 500 (trim y) ∧ (length (trim y) ≤ length s)%nat.
Proof.
  rewrite sanitize_closed_form. unfold sanitize_closed, substring0.
  eexists. split; [reflexivity|].
  etrans; [apply trim_length|].
  etrans; [apply replaceAll_length, heading_shrinks|].
  etrans; [apply replaceAll_length, delimited_shrinks|].
  etrans; [apply replaceAll_length, delimited_shrinks|].
  etrans; [apply replaceAll_length, delimited_shrinks|].
  etrans; [apply replaceAll_length, shell_meta_shrinks|].
  etrans; [apply replaceAll_length, dotdot_shrinks|].
  apply replaceAll_length, script_shrinks.
Qed.

Lemma sanitize_not_longer s : (length (sanitizeForSpeech s) ≤ length s)%nat.
Proof.
  destruct (sanitize_before_cut s) as (y & -> & Hy). rewrite length_take. lia.
Qed.

(** Within the limit of [validateInput] the cut at 500 never falls. *)
Lemma sanitize_trim_within s :
  (length s ≤ 500)%nat → trim (sanitizeForSpeech s) = sanitizeForSpeech s.
Proof.
  intros Hs. destruct (sanitize_before_cut s) as (y & -> & Hy).
  rewrite take_ge by lia. apply trim_idem.
Qed.

Lemma trim_head_not_space s c t : trim s = c :: t → is_space c = false.
Proof.
  unfold trim, trimStart. intros H.
  destruct (dropWhile is_space s) as [|c' t'] eqn:E; [done|].
  pose proof (dropWhile_head _ _ _ _ E) as Hc.
  rewrite (trimEnd_cons _ _ Hc) in H. by injection H as -> _.
Qed.

Lemma trimStart_fixed s : (∀ c t, s = c :: t → is_space c = false) → trimStart s = s.
Proof.
  destruct s as [|c t]; [done|]. intros H. unfold trimStart. simpl.
  by rewrite (H c t eq_refl).
Qed.

Lemma sanitize_trimStart s : trimStart (sanitizeForSpeech s) = sanitizeForSpeech s.
Proof.
  unfold sanitizeForSpeech, substring0.
  set (y := replaceAll re_heading _).
  apply trimStart_fixed. intros c t H.
  destruct (trim y) as [|c' t'] eqn:E; [done|].
  simpl in H. injection H as <- _. by eapply trim_head_not_space.
Qed.

Lemma sanitize_trim_short s :
  (length (sanitizeForSpeech s) < 500)%nat → trim (sanitizeForSpeech s) = sanitizeForSpeech s.
Proof.
  unfold sanitizeForSpeech, substring0.
  set (y := replaceAll re_heading _).
  rewrite length_take. intros H.
  rewrite take_ge by lia. apply trim_idem.
Qed.

End SanitizerBounds.

(** X1: whatever the input, the text [sanitizeForSpeech] returns holds none
    of the eight shell metacharacters and no script-tag opener in any
    letter case, has at most 500 code units, and is never longer than the
    input. *)
Theorem X1_sanitized_text_is_clean_and_bounded (input : jstring) :
  Forall (λ c, is_shell_meta c = false) (sanitizeForSpeech input)
  ∧ includes_ci (lit "<script") (sanitizeForSpeech input) = false
  ∧ (length (sanitizeForSpeech input) ≤ 500)%nat
  ∧ (length (sanitizeForSpeech input) ≤ length input)%nat.
Proof.
  pose proof (sanitize_no_shell_meta input) as H.
  split; [done|]. split; [by apply no_lt_no_script|].
  split; [apply sanitize_length | apply sanitize_not_longer].
Qed.

(** X2: the text [sanitizeForSpeech] returns never begins with white
    space; it can end with white space only where the cut at 500 code
    units fell, so a result shorter than 500 is trimmed at both ends. *)
Theorem X2_sanitized_text_is_trimmed (input : jstring) :
  trimStart (sanitizeForSpeech input) = sanitizeForSpeech input
  ∧ ((length (sanitizeForSpeech input) < 500)%nat →
     trim (sanitizeForSpeech input) = sanitizeForSpeech input)
  ∧ sanitizeForSpeech (replicate 499 97 ++ lit " b") = replicate 499 97 ++ lit " ".
Proof.
  split; [apply sanitize_trimStart|]. split; [apply sanitize_trim_short|].
  by vm_compute.
Qed.

Lemma validateInput_valid input :
  valid (validateInput input) = true →
  ∃ s, input = VString s ∧ (1 ≤ length s ≤ 500)%nat ∧ sanitizeForSpeech s ≠ [].
Proof.
  destruct input as [| |b|x|s|items|fields]; try done. simpl.
  destruct (negb (negb (bool_decide (s = [])))) eqn:E0; [done|].
  destruct (500 <? length s)%nat eqn:E1; [done|].
  destruct (length (sanitizeForSpeech s) =? 0)%nat eqn:E2; [done|]. intros _.
  exists s. apply Nat.ltb_ge in E1. apply Nat.eqb_neq in E2.
  rewrite negb_involutive in E0. apply bool_decide_eq_false in E0.
  split; [done|]. split; [|by intros E; rewrite E in E2].
  destruct s; [done|]. simpl in *. lia.
Qed.

(** X3: whatever [validateInput] accepts is a string of 1 to 500 code
    units, and the text it hands on is [sanitizeForSpeech] of it: not
    empty, trimmed at both ends (within the length limit the cut at 500
    never falls), no longer than the input and free of shell
    metacharacters.  No error message goes with it. *)
Theorem X3_accepted_input_is_sanitized (input : jsval) :
  valid (validateInput input) = true →
  ∃ s, input = VString s ∧ (1 ≤ length s ≤ 500)%nat
       ∧ validateInput input = accepted (sanitizeForSpeech s)
       ∧ sanitizeForSpeech s ≠ []
       ∧ trim (sanitizeForSpeech s) = sanitizeForSpeech s
       ∧ (length (sanitizeForSpeech s) ≤ length s)%nat
       ∧ Forall (λ c, is_shell_meta c = false) (sanitizeForSpeech s).
Proof.
  intros (s & -> & Hlen & Hne)%validateInput_valid. exists s.
  split; [done|]. split; [done|].
  split; [apply validateInput_accepts; [lia | done]|].
  split; [done|]. split; [apply sanitize_trim_within; lia|].
  split; [apply sanitize_not_longer | apply sanitize_no_shell_meta].
Qed.

Lemma X3_witness :
  ∃ s, VString (lit " `ls` | **done** ") = VString s ∧ (1 ≤ length s ≤ 500)%nat
       ∧ validateInput (VString (lit " `ls` | **done** ")) = accepted (sanitizeForSpeech s)
       ∧ sanitizeForSpeech s ≠ []
       ∧ trim (sanitizeForSpeech s) = sanitizeForSpeech s
       ∧ (length (sanitizeForSpeech s) ≤ length s)%nat
       ∧ Forall (λ c, is_shell_meta c = false) (sanitizeForSpeech s).
Proof. apply (X3_accepted_input_is_sanitized (VString (lit " `ls` | **done** "))). reflexivity. Defined.

(** ** Texts the sanitizer leaves alone, and a path sequence it leaves behind *)

Section Plain.

(** A pattern whose matches start with a code unit of a class finds nothing
    in a text without that class. *)
Lemma no_match_without (m : matcher) (P : N → bool) (s : jstring) :
  (∀ c t n r, m (c :: t) = Some (n, r) → P c = true) →
  Forall (λ c, P c = false) s → matches_somewhere m s = false.
Proof.
  intros Hm. induction 1 as [|c t Hc Ht IH]; [done|].
  cbn [matches_somewhere].
  destruct (m (c :: t)) as [[[|n] r]|] eqn:E; try done.
  apply Hm in E. congruence.
Qed.

Lemma script_starts c t n r : script_closed (c :: t) = Some (n, r) → (c =? Chr.lt) = true.
Proof.
  unfold script_closed. destruct (startsWith_ci _ _) eqn:E; [|done]. intros _.
  apply startsWith_ci_head in E. apply N.eqb_eq.
  unfold lower_ascii in E. destruct (_ && _) eqn:B; [|done].
  apply andb_prop in B as [B1%N.leb_le B2%N.leb_le].
  change (N_of_ascii "<") with 60 in E. lia.
Qed.

Lemma delimited_starts d k c t n r :
  delimited_closed d (S k) (c :: t) = Some (n, r) → (c =? d) = true.
Proof.
  unfold delimited_closed. cbn [replicate startsWith].
  destruct (d =? c) eqn:E; [|done]. intros _.
  apply N.eqb_eq in E as ->. apply N.eqb_refl.
Qed.

Lemma heading_starts c t n r : heading_closed (c :: t) = Some (n, r) → (c =? Chr.hash) = true.
Proof.
  unfold heading_closed. cbn [takeWhile].
  destruct (Chr.hash =? c) eqn:E; [|done]. intros _.
  apply N.eqb_eq in E as <-. apply N.eqb_refl.
Qed.

Lemma shell_meta_starts c t n r :
  shell_meta_closed (c :: t) = Some (n, r) → is_shell_meta c = true.
Proof. simpl. by destruct (is_shell_meta c). Qed.

Lemma markup_char_cases c :
  is_markup_char c = false →
  is_shell_meta c = false ∧ (c =? Chr.star) = false ∧ (c =? Chr.hash) = false
  ∧ (c =? Chr.lt) = false ∧ (c =? Chr.backtick) = false.
Proof.
  unfold is_markup_char, is_shell_meta.
  rewrite !orb_false_iff. intros H. tauto.
Qed.

(** The five patterns after the path pattern find nothing in a text without
    markup code units. *)
Lemma plain_no_markup s :
  Forall (λ c, is_markup_char c = false) s →
  matches_somewhere script_closed s = false
  ∧ matches_somewhere shell_meta_closed s = false
  ∧ matches_somewhere bold_closed s = false
  ∧ matches_somewhere italic_closed s = false
  ∧ matches_somewhere code_closed s = false
  ∧ matches_somewhere heading_closed s = false.
Proof.
  intros H.
  assert (∀ Q : N → bool, (∀ c, is_markup_char c = false → Q c = false) →
            Forall (λ c, Q c = false) s) as HQ.
  { intros Q HQ. eapply Forall_impl; [exact H | exact HQ]. }
  repeat split.
  - apply (no_match_without _ (λ c, c =? Chr.lt)); [apply script_starts|].
    apply HQ. intros c Hc. by apply markup_char_cases in Hc as (_ & _ & _ & ? & _).
  - apply (no_match_without _ is_shell_meta); [apply shell_meta_starts|].
    apply HQ. intros c Hc. by apply markup_char_cases in Hc as (? & _).
  - apply (no_match_without _ (λ c, c =? Chr.star)); [apply delimited_starts|].
    apply HQ. intros c Hc. by apply markup_char_cases in Hc as (_ & ? & _).
  - apply (no_match_without _ (λ c, c =? Chr.star)); [apply delimited_starts|].
    apply HQ. intros c Hc. by apply markup_char_cases in Hc as (_ & ? & _).
  - apply (no_match_without _ (λ c, c =? Chr.backtick)); [apply delimited_starts|].
    apply HQ. intros c Hc. by apply markup_char_cases in Hc as (_ & _ & _ & _ & ?).
  - apply (no_match_without _ (λ c, c =? Chr.hash)); [apply heading_starts|].
    apply HQ. intros c Hc. by apply markup_char_cases in Hc as (_ & _ & ? & _).
Qed.

Lemma trim_no_space s : Forall (λ c, is_space c = false) s → trim s = s.
Proof.
  intros H. unfold trim, trimStart, trimEnd.
  assert (∀ x : jstring, Forall (λ c, is_space c = false) x → dropWhile is_space x = x) as Hd.
  { intros [|c t] Hx; [done|]. simpl. by rewrite (Forall_inv Hx). }
  rewrite (Hd s H). rewrite Hd by (by apply Forall_rev). apply rev_involutive.
Qed.

Lemma word_is_plain c :
  is_word c = true →
  is_markup_char c = false ∧ is_space c = false ∧ (c =? Chr.dot) = false.
Proof.
  intros H. split; [|split; [by apply word_not_space|]]; revert H;
    unfold is_word, is_markup_char, is_shell_meta, Chr.underscore, Chr.semicolon, Chr.amp,
      Chr.pipe, Chr.gt, Chr.lt, Chr.backtick, Chr.dollar, Chr.backslash, Chr.star, Chr.hash,
      Chr.dot;
    rewrite !orb_true_iff, !andb_true_iff, !N.leb_le, !N.eqb_eq; intros H;
    rewrite ?orb_false_iff, ?N.eqb_neq; lia.
Qed.

Lemma space_is_plain c :
  is_space c = true → is_markup_char c = false ∧ (c =? Chr.dot) = false.
Proof.
  intros H. split; revert H;
    unfold is_space, is_markup_char, is_shell_meta, Chr.semicolon, Chr.amp,
      Chr.pipe, Chr.gt, Chr.lt, Chr.backtick, Chr.dollar, Chr.backslash, Chr.star, Chr.hash,
      Chr.dot;
    rewrite !orb_true_iff, !andb_true_iff, !N.leb_le, !N.eqb_eq; intros H;
    rewrite ?orb_false_iff, ?N.eqb_neq; lia.
Qed.

(** The path pattern, tried from the left, on a [../] wrapped around
    another one. *)
Lemma dotdot_words w : ∀ rest,
  Forall (λ c, is_word c = true) w →
  replace_from dotdot_closed 0 (w ++ rest) = w ++ replace_from dotdot_closed 0 rest.
Proof.
  induction w as [|c t IH]; intros rest Hw; [done|].
  apply Forall_cons in Hw as [Hc Ht].
  apply word_is_plain in Hc as (_ & _ & Hc).
  cbn [app replace_from]. unfold dotdot_closed at 1.
  change (lit "../") with [Chr.dot; Chr.dot; Chr.slash]. cbn [startsWith].
  rewrite (N.eqb_sym Chr.dot c), Hc. cbn [andb]. by rewrite IH.
Qed.

Lemma dotdot_nested w1 w2 :
  Forall (λ c, is_word c = true) w1 → Forall (λ c, is_word c = true) w2 →
  replaceAll dotdot_closed (w1 ++ lit "..././" ++ w2) = w1 ++ lit "../" ++ w2.
Proof.
  intros H1 H2. unfold replaceAll. rewrite dotdot_words by done. f_equal.
  change (lit "..././" ++ w2)
    with (Chr.dot :: Chr.dot :: Chr.dot :: Chr.slash :: Chr.dot :: Chr.slash :: w2).
  change (lit "../" ++ w2) with (Chr.dot :: Chr.dot :: Chr.slash :: w2).
  assert (replace_from dotdot_closed 0 w2 = w2) as Hw2.
  { rewrite <- (app_nil_r w2) at 1. rewrite dotdot_words by done. simpl.
    by rewrite app_nil_r. }
  cbn -[replace_from]. cbn [replace_from].
  unfold dotdot_closed at 1. cbn.
  unfold dotdot_closed at 1. cbn.
  unfold dotdot_closed at 1. cbn.
  unfold dotdot_closed at 1. cbn.
  by rewrite Hw2.
Qed.

Lemma nested_is_plain w1 w2 :
  Forall (λ c, is_word c = true) w1 → Forall (λ c, is_word c = true) w2 →
  Forall (λ c, is_markup_char c = false) (w1 ++ lit "..././" ++ w2)
  ∧ Forall (λ c, is_markup_char c = false ∧ is_space c = false) (w1 ++ lit "../" ++ w2).
Proof.
  intros H1 H2.
  assert (∀ w, Forall (λ c, is_word c = true) w →
               Forall (λ c, is_markup_char c = false ∧ is_space c = false) w) as Hw.
  { intros w Hw. eapply Forall_impl; [exact Hw|]. intros c Hc.
    apply word_is_plain in Hc. tauto. }
  split.
  - rewrite !Forall_app. split; [|split].
    + eapply Forall_impl; [apply (Hw w1 H1)|]. simpl. tauto.
    + by repeat constructor.
    + eapply Forall_impl; [apply (Hw w2 H2)|]. simpl. tauto.
  - rewrite !Forall_app. split; [by apply Hw|]. split; [|by apply Hw].
    by repeat constructor.
Qed.

End Plain.

(** X4: the path pattern is applied once, from the left.  A [../] wrapped
    around another one, between two words, loses the inner one and the
    outer one closes up: the text that comes out still holds [../], and
    [validateInput] accepts it. *)
Theorem X4_wrapped_path_sequence_survives (w1 w2 : jstring) :
  Forall (λ c, is_word c = true) w1 → Forall (λ c, is_word c = true) w2 →
  (length w1 + length w2 + 6 ≤ 500)%nat →
  sanitizeForSpeech (w1 ++ lit "..././" ++ w2) = w1 ++ lit "../" ++ w2
  ∧ validateInput (VString (w1 ++ lit "..././" ++ w2)) = accepted (w1 ++ lit "../" ++ w2)
  ∧ includes (lit "../") (sanitizeForSpeech (w1 ++ lit "..././" ++ w2)) = true.
Proof.
  intros H1 H2 Hlen.
  assert (sanitizeForSpeech (w1 ++ lit "..././" ++ w2) = w1 ++ lit "../" ++ w2) as Hs.
  { destruct (nested_is_plain w1 w2 H1 H2) as [Hin Hout].
    rewrite sanitize_closed_form. unfold sanitize_closed, substring0.
    destruct (plain_no_markup _ Hin) as (Hscript & _).
    rewrite (no_match_replace _ _ Hscript), dotdot_nested by done.
    assert (Forall (λ c, is_markup_char c = false) (w1 ++ lit "../" ++ w2)) as Hm.
    { eapply Forall_impl; [exact Hout|]. simpl. tauto. }
    destruct (plain_no_markup _ Hm) as (_ & Hmeta & Hbold & Hitalic & Hcode & Hheading).
    rewrite (no_match_replace _ _ Hmeta), (no_match_replace _ _ Hbold),
      (no_match_replace _ _ Hitalic), (no_match_replace _ _ Hcode),
      (no_match_replace _ _ Hheading).
    rewrite trim_no_space by (eapply Forall_impl; [exact Hout|]; simpl; tauto).
    apply take_ge. rewrite !length_app. simpl. lia. }
  split; [done|]. split.
  - rewrite <- Hs. apply validateInput_accepts.
    + rewrite !length_app. simpl. lia.
    + rewrite Hs. by destruct w1.
  - rewrite Hs. clear. induction w1 as [|c t IH]; [done|].
    cbn [app includes]. by rewrite IH, orb_true_r.
Qed.

Lemma X4_witness :
  sanitizeForSpeech (lit "cat_" ++ lit "..././" ++ lit "etc") = lit "cat_" ++ lit "../" ++ lit "etc"
  ∧ validateInput (VString (lit "cat_" ++ lit "..././" ++ lit "etc"))
    = accepted (lit "cat_" ++ lit "../" ++ lit "etc")
  ∧ includes (lit "../") (sanitizeForSpeech (lit "cat_" ++ lit "..././" ++ lit "etc")) = true.
Proof.
  apply (X4_wrapped_path_sequence_survives (lit "cat_") (lit "etc")).
  - by repeat constructor.
  - by repeat constructor.
  - simpl. lia.
Defined.

(** X5: the pattern for inline code never matches.  The backtick is
    one of the shell metacharacters, which the third replacement removes,
    and the two replacements in between bring none back: the sanitizer is
    the same function without its sixth replacement. *)
Theorem X5_code_pattern_never_matches (input : jstring) :
  sanitizeForSpeech input
  = substring0 500
      (trim
         (replaceAll re_heading
            (replaceAll re_italic
               (replaceAll re_bold
                  (replaceAll re_shell_meta
                     (replaceAll re_dotdot (replaceAll re_script input))))))).
Proof.
  unfold sanitizeForSpeech. do 3 f_equal.
  set (z := replaceAll re_dotdot (replaceAll re_script input)).
  apply no_match_replace.
  rewrite (matches_somewhere_ext re_code code_closed re_code_closed).
  apply (no_match_without _ (λ c, c =? Chr.backtick)); [apply delimited_starts|].
  assert (Forall (λ c, is_shell_meta c = false)
            (replaceAll re_italic (replaceAll re_bold (replaceAll re_shell_meta z)))) as H.
  { unfold replaceAll.
    rewrite (replace_from_ext re_italic italic_closed re_italic_closed).
    rewrite (replace_from_ext re_bold bold_closed re_bold_closed).
    rewrite (replace_from_ext re_shell_meta shell_meta_closed re_shell_meta_closed).
    do 2 (apply replace_from_Forall; [apply re_delimited_keeps|]).
    apply replace_shell_meta_clean. }
  eapply Forall_impl; [exact H|]. intros c Hc.
  unfold is_shell_meta in Hc. rewrite !orb_false_iff in Hc. tauto.
Qed.


(** ** Emotion hints and voice settings *)

Section Hints.

Lemma record_get_elem {A} (tbl : list (jstring * A)) key v :
  record_get tbl key = Some v → (key, v) ∈ tbl.
Proof.
  induction tbl as [|[k a] rest IH]; simpl; [done|].
  case_bool_decide as E.
  - intros [= ->]. subst. apply list_elem_of_here.
  - intros H. apply list_elem_of_further. by apply IH.
Qed.

(** What a hint tells about the message: the leftmost tag and the text
    around it. *)
Lemma hint_inversion message name :
  emotion (extractEmotionalMarker message) = Some name →
  ∃ pre emoji ws label post,
    first_tag message pre emoji ws label post ∧ agrees emoji label
    ∧ name = toLowerCase label
    ∧ cleaned (extractEmotionalMarker message) = trim (pre ++ post).
Proof.
  unfold extractEmotionalMarker.
  destruct (match_tag message) as [[i m]|] eqn:E; [|done].
  case_bool_decide as Hag; [|done]. simpl. intros [= <-].
  destruct (match_tag_first _ _ _ E) as (ws & post & Hft).
  destruct (first_tag_found _ _ _ _ _ _ Hft) as [Hm Hr].
  rewrite E in Hm. injection Hm as _ Hm.
  apply (f_equal tm_whole) in Hm. simpl in Hm.
  exists (take i message), (tm_emoji m), ws, (tm_label m), post.
  split; [done|]. split; [done|]. split; [done|]. by rewrite Hm, Hr.
Qed.

Lemma emoji_units emoji :
  emoji ∈ tag_emojis →
  emoji ≠ []
  ∧ Forall (λ c, is_markup_char c = false ∧ (c =? Chr.dot) = false) emoji.
Proof.
  unfold tag_emojis, emojiToEmotion. cbn [fmap list_fmap fst].
  rewrite !elem_of_cons, elem_of_nil.
  intros H. repeat (destruct H as [->|H]; [by split; [|repeat constructor]|]). done.
Qed.

End Hints.

(** X6: an emotion hint that [extractEmotionalMarker] returns is always one
    of the thirteen names of the emoji table, and each of them has an entry
    in [EMOTIONAL_PRESETS]: whenever a hint comes out, the voice settings
    are the two numbers of its preset, whatever the configuration of the
    voice says. *)
Theorem X6_emotion_hint_selects_preset (message name : jstring)
    (voiceConfig : property VoiceConfig) :
  emotion (extractEmotionalMarker message) = Some name →
  name ∈ emojiToEmotion.*2
  ∧ ∃ s b, js_get EMOTIONAL_PRESETS name = Own (Settings s b)
           ∧ voiceSettings (Some name) voiceConfig = Settings s b.
Proof.
  intros (pre & emoji & ws & label & post & _ & Hag & -> & _)%hint_inversion.
  apply record_get_elem in Hag. revert Hag. generalize (toLowerCase label). intros name.
  unfold emojiToEmotion at 1. rewrite !elem_of_cons, elem_of_nil.
  intros H.
  repeat (destruct H as [[= -> ->]|H];
          [split; [by apply (bool_decide_unpack _); vm_compute
                 | by eexists _, _; split; reflexivity]|]).
  done.
Qed.

Lemma X6_witness :
  lit "success" ∈ emojiToEmotion.*2
  ∧ ∃ s b, js_get EMOTIONAL_PRESETS (lit "success") = Own (Settings s b)
           ∧ voiceSettings (Some (lit "success")) Missing = Settings s b.
Proof.
  apply (X6_emotion_hint_selects_preset
           (lit "Build passed [" ++ Emoji.sparkles ++ lit " Success]")).
  reflexivity.
Defined.

(** X7: when no hint comes out, [extractEmotionalMarker] returns the
    message as it is; when one does, the text it returns is trimmed and at
    least five code units shorter than the message (the brackets, an emoji,
    white space and a label are gone). *)
Theorem X7_marker_result_shape (message : jstring) :
  match emotion (extractEmotionalMarker message) with
  | None => cleaned (extractEmotionalMarker message) = message
  | Some name =>
      trim (cleaned (extractEmotionalMarker message))
      = cleaned (extractEmotionalMarker message)
      ∧ (length (cleaned (extractEmotionalMarker message)) + 5 ≤ length message)%nat
  end.
Proof.
  destruct (emotion (extractEmotionalMarker message)) as [name|] eqn:E.
  - apply hint_inversion in E
      as (pre & emoji & ws & label & post & (Hm & Htag & _) & _ & _ & ->).
    split; [apply trim_idem|].
    destruct Htag as (He & Hws & _ & Hl & _). apply emoji_units in He as [He _].
    pose proof (trim_length (pre ++ post)) as Ht.
    rewrite Hm. unfold tag_text. rewrite !length_app in *. cbn [length].
    rewrite !length_app. cbn [length].
    destruct emoji; [done|]. destruct ws; [done|]. destruct label; [done|].
    cbn [length]. lia.
  - revert E. unfold extractEmotionalMarker.
    destruct (match_tag message) as [[i m]|]; [|done]. by case_bool_decide.
Qed.

Section TagOnly.

Lemma dotdot_starts c t n r : dotdot_closed (c :: t) = Some (n, r) → (c =? Chr.dot) = true.
Proof.
  unfold dotdot_closed. change (lit "../") with [Chr.dot; Chr.dot; Chr.slash].
  cbn [startsWith]. destruct (Chr.dot =? c) eqn:E; [|done]. intros _.
  apply N.eqb_eq in E as <-. apply N.eqb_refl.
Qed.

(** A text without markup code units and without dots has no unsafe
    content. *)
Lemma plain_unsafe_free s :
  Forall (λ c, is_markup_char c = false ∧ (c =? Chr.dot) = false) s → unsafe_free s = true.
Proof.
  intros H. unfold unsafe_free.
  assert (Forall (λ c, is_markup_char c = false) s) as Hm
    by (eapply Forall_impl; [exact H|]; simpl; tauto).
  destruct (plain_no_markup s Hm) as (H1 & H2 & H3 & H4 & H5 & H6).
  rewrite <- matches_script, <- matches_dotdot, <- matches_shell_meta, markup_closed.
  rewrite H1, H2, H3, H4, H5, H6.
  rewrite (no_match_without _ (λ c, c =? Chr.dot)); [done | apply dotdot_starts |].
  eapply Forall_impl; [exact H|]. simpl. tauto.
Qed.

Lemma trim_bracketed c s d :
  is_space c = false → is_space d = false → trim (c :: s ++ [d]) = c :: s ++ [d].
Proof.
  intros Hc Hd. unfold trim, trimStart, trimEnd. cbn [dropWhile]. rewrite Hc.
  cbn [rev]. rewrite rev_app_distr. cbn [rev app dropWhile]. rewrite Hd.
  change (d :: rev s ++ [c]) with ((d :: rev s) ++ [c]).
  rewrite rev_app_distr. cbn [rev app]. by rewrite rev_involutive.
Qed.

Lemma tag_is_plain emoji ws label :
  is_tag emoji ws label →
  Forall (λ c, is_markup_char c = false ∧ (c =? Chr.dot) = false) (tag_text emoji ws label).
Proof.
  intros (He & _ & Hws & _ & Hl). unfold tag_text.
  apply Forall_cons. split; [done|]. rewrite !Forall_app.
  split; [by apply emoji_units|]. split; [|split].
  - eapply Forall_impl; [exact Hws|]. intros c Hc. by apply space_is_plain.
  - eapply Forall_impl; [exact Hl|]. intros c Hc. apply word_is_plain in Hc. tauto.
  - by repeat constructor.
Qed.

End TagOnly.

(** X8: a message that is nothing but an emotion tag whose emoji and
    label agree passes [validateInput] unchanged, and
    [extractEmotionalMarker] then leaves the empty text: the check for
    empty content runs before the tag is taken out, so [sendNotification]
    hands an empty text to [generateSpeech]. *)
Theorem X8_tag_only_message_is_spoken_empty (emoji ws label : jstring) :
  is_tag emoji ws label → agrees emoji label →
  (length (tag_text emoji ws label) ≤ 500)%nat →
  validateInput (VString (tag_text emoji ws label)) = accepted (tag_text emoji ws label)
  ∧ extractEmotionalMarker (tag_text emoji ws label)
    = {| cleaned := []; emotion := Some (toLowerCase label) |}
  ∧ ∀ default_voice voicesConfig voiceId,
      sr_text (speech_request_of default_voice voicesConfig (tag_text emoji ws label) voiceId)
      = [].
Proof.
  intros Htag Hag Hlen.
  assert (sanitizeForSpeech (tag_text emoji ws label) = tag_text emoji ws label) as Hs.
  { rewrite sanitize_unsafe_free by (by apply plain_unsafe_free, tag_is_plain).
    unfold tag_text. rewrite !app_assoc.
    rewrite trim_bracketed by done. apply take_ge.
    revert Hlen. unfold tag_text. rewrite !length_cons, !length_app. simpl. lia. }
  assert (extractEmotionalMarker (tag_text emoji ws label)
          = {| cleaned := []; emotion := Some (toLowerCase label) |}) as He.
  { assert (first_tag (tag_text emoji ws label) [] emoji ws label []) as Hft.
    { split; [by rewrite app_nil_r|]. split; [done|]. intros. simpl. lia. }
    destruct (first_tag_found _ _ _ _ _ _ Hft) as [Hm Hr].
    unfold extractEmotionalMarker. rewrite Hm. cbn [tm_emoji tm_label tm_whole].
    rewrite bool_decide_eq_true_2 by done. by rewrite Hr. }
  split; [|split; [done|]].
  - rewrite <- Hs at 2. apply validateInput_accepts; [done|].
    rewrite Hs. done.
  - intros. unfold speech_request_of. cbn [sr_text]. by rewrite He.
Qed.

Lemma X8_witness :
  validateInput (VString (tag_text Emoji.siren (lit " ") (lit "Urgent")))
  = accepted (tag_text Emoji.siren (lit " ") (lit "Urgent"))
  ∧ extractEmotionalMarker (tag_text Emoji.siren (lit " ") (lit "Urgent"))
    = {| cleaned := []; emotion := Some (toLowerCase (lit "Urgent")) |}
  ∧ ∀ default_voice voicesConfig voiceId,
      sr_text (speech_request_of default_voice voicesConfig
                 (tag_text Emoji.siren (lit " ") (lit "Urgent")) voiceId)
      = [].
Proof.
  apply (X8_tag_only_message_is_spoken_empty Emoji.siren (lit " ") (lit "Urgent")).
  - split; [|split; [done|]; split; [by repeat constructor|];
             split; [done | by repeat constructor]].
    unfold tag_emojis, emojiToEmotion. cbn [fmap list_fmap fst].
    rewrite !elem_of_cons. tauto.
  - reflexivity.
  - simpl. lia.
Defined.

(** ** The cascade *)

Section Cascade.

Variables (cfg : config) (e : env).

Ltac not_listed :=
  let H := fresh in
  intros H; repeat (apply elem_of_cons in H as [H|H]; [discriminate H|]);
  by apply elem_of_nil in H.

Lemma attempt_return p k n s :
  attempt cfg e p k = (n, Return s) →
  speech_provider s = p ∧ speech_format s = format_of p
  ∧ match p with
    | elevenlabs => elevenlabs_reply e = ElAudio (speech_audio s) ∧ n = 0%nat
    | piper =>
        generateSpeechPiper cfg (piper_model_present e) (piper_reply e)
        = Return (speech_audio s)
    | macos => generateSpeechMacOS (say_reply e) = Return (speech_audio s)
    end.
Proof.
  destruct p; simpl.
  - unfold generateSpeechElevenLabs.
    destruct (negb (api_key_set cfg)); [done|].
    destruct (elevenlabs_reply e) as [a|err|status txt|status err|err]; simpl; try done.
    by intros [= <- <-].
  - destruct (generateSpeechPiper _ _ _) as [a|err]; simpl; [|done]. by intros [= <- <-].
  - destruct (generateSpeechMacOS _) as [a|err]; simpl; [|done]. by intros [= <- <-].
Qed.

(** Whether a provider fails does not depend on the failure counter. *)
Lemma attempt_outcome p k k' :
  (attempt cfg e p k).2 = (attempt cfg e p k').2.
Proof.
  destruct p; simpl; try done.
  unfold generateSpeechElevenLabs. destruct (negb (api_key_set cfg)); [done|].
  by destruct (elevenlabs_reply e) as [a|err|status txt|status err|err].
Qed.

Lemma cascade_return ps : ∀ last k n s,
  cascade cfg e ps last k = (n, Return s) →
  ∃ before after k0,
    ps = before ++ speech_provider s :: after
    ∧ (∀ q k', q ∈ before → ∃ err, (attempt cfg e q k').2 = Throw err)
    ∧ attempt cfg e (speech_provider s) k0 = (n, Return s).
Proof.
  induction ps as [|p rest IH]; intros last k n s; simpl; [done|].
  destruct (attempt cfg e p k) as [n1 [s1|err]] eqn:E.
  - intros [= <- <-]. exists [], rest, k.
    destruct (attempt_return _ _ _ _ E) as (<- & _).
    split; [done|]. split; [|done]. intros q k' Hq. by apply elem_of_nil in Hq.
  - intros H. apply IH in H as (before & after & k0 & -> & Hb & Ha).
    exists (p :: before), after, k0. split; [done|]. split; [|done].
    intros q k' [->|Hq]%elem_of_cons; [|by apply Hb].
    exists err. by rewrite (attempt_outcome _ k' k), E.
Qed.

Lemma cascade_throws_last ps err : ∀ last k,
  (cascade cfg e (ps ++ [macos]) last k).2 = Throw err →
  generateSpeechMacOS (say_reply e) = Throw err.
Proof.
  induction ps as [|p rest IH]; intros last k; cbn [app cascade].
  - cbn [attempt]. destruct (generateSpeechMacOS (say_reply e)) as [a|er]; simpl; [done|].
    by intros [= ->].
  - destruct (attempt cfg e p k) as [n1 [s1|er]]; [done|]. apply IH.
Qed.

Lemma cascade_returns_with_macos ps a : ∀ last k,
  generateSpeechMacOS (say_reply e) = Return a →
  ∃ s, (cascade cfg e (ps ++ [macos]) last k).2 = Return s.
Proof.
  intros last k Ha. revert last k.
  induction ps as [|p rest IH]; intros last k; cbn [app cascade].
  - cbn [attempt]. rewrite Ha. simpl. by eexists.
  - destruct (attempt cfg e p k) as [n1 [s1|er]]; [by eexists | apply IH].
Qed.

Lemma build_providers_macos_last present k :
  ∃ ps, build_providers cfg present k = ps ++ [macos] ∧ macos ∉ ps.
Proof.
  unfold build_providers. eexists. rewrite app_assoc. split; [reflexivity|].
  destruct (_ && _ && _), (_ && _); simpl; not_listed.
Qed.

Lemma cascade_ignores_cloud r ps : ∀ last k,
  elevenlabs ∉ ps →
  cascade cfg (with_elevenlabs_reply e r) ps last k = cascade cfg e ps last k.
Proof.
  induction ps as [|p rest IH]; intros last k Hp; [done|].
  apply not_elem_of_cons in Hp as [Hp Hrest].
  cbn [cascade].
  assert (attempt cfg (with_elevenlabs_reply e r) p k = attempt cfg e p k) as ->
    by (by destruct p).
  destruct (attempt cfg e p k) as [n1 [s1|er]]; [done|]. by apply IH.
Qed.

Lemma cloud_not_listed present k :
  TTS_PROVIDER cfg ≠ lit "elevenlabs" ∨ api_key_set cfg = false
  ∨ (ELEVENLABS_MAX_FAILS ≤ k)%nat →
  elevenlabs ∉ build_providers cfg present k.
Proof.
  intros H. unfold build_providers.
  assert (bool_decide (TTS_PROVIDER cfg = lit "elevenlabs") && api_key_set cfg
          && (k <? ELEVENLABS_MAX_FAILS)%nat = false) as ->.
  { destruct H as [H|[H|H]].
    - by rewrite bool_decide_eq_false_2.
    - rewrite H. by rewrite andb_false_r.
    - apply Nat.ltb_ge in H. rewrite H. by rewrite andb_false_r. }
  destruct (_ && _); simpl; not_listed.
Qed.

Lemma cloud_listed present k :
  TTS_PROVIDER cfg = lit "elevenlabs" → api_key_set cfg = true →
  (k < ELEVENLABS_MAX_FAILS)%nat →
  ∃ rest, build_providers cfg present k = elevenlabs :: rest ∧ elevenlabs ∉ rest.
Proof.
  intros H1 H2 H3%Nat.ltb_lt. unfold build_providers.
  rewrite bool_decide_eq_true_2, H2, H3 by done. eexists. split; [reflexivity|].
  destruct (_ && _); simpl; not_listed.
Qed.

End Cascade.

(** X9: when [generateSpeech] returns audio, it is what the first provider
    of the list that did not fail produced, every provider before it in the
    list having thrown, and the format goes with the provider: mp3 from
    ElevenLabs (whose success also puts the failure counter back to 0),
    wav from Piper, aiff from macOS say. *)
Theorem X9_speech_comes_from_first_working_provider (cfg : config) (e : env)
    (failCount n : nat) (s : speech) :
  generateSpeech cfg e failCount = (n, Return s) →
  speech_format s = format_of (speech_provider s)
  ∧ (∃ before after,
       build_providers cfg (piper_model_present e) failCount
       = before ++ speech_provider s :: after
       ∧ ∀ q k, q ∈ before → ∃ err, (attempt cfg e q k).2 = Throw err)
  ∧ match speech_provider s with
    | elevenlabs => elevenlabs_reply e = ElAudio (speech_audio s) ∧ n = 0%nat
    | piper =>
        generateSpeechPiper cfg (piper_model_present e) (piper_reply e)
        = Return (speech_audio s)
    | macos => generateSpeechMacOS (say_reply e) = Return (speech_audio s)
    end.
Proof.
  unfold generateSpeech.
  intros (before & after & k0 & Hps & Hb & Ha)%cascade_return.
  apply attempt_return in Ha as (_ & Hf & Hp).
  split; [done|]. split; [|done]. by exists before, after.
Qed.

Lemma X9_witness :
  speech_format {| speech_audio := [4; 5]; speech_provider := piper; speech_format := wav |}
  = format_of piper
  ∧ (∃ before after,
       build_providers cloud_config true 0 = before ++ piper :: after
       ∧ ∀ q k, q ∈ before →
           ∃ err, (attempt cloud_config
                     (with_elevenlabs_reply all_up (ElRefused 500 (lit "down"))) q k).2
                  = Throw err)
  ∧ generateSpeechPiper cloud_config true (ProcExit (Some 0%Z) [] (Return [4; 5]))
    = Return [4; 5].
Proof.
  apply (X9_speech_comes_from_first_working_provider cloud_config
           (with_elevenlabs_reply all_up (ElRefused 500 (lit "down"))) 0 1
           {| speech_audio := [4; 5]; speech_provider := piper; speech_format := wav |}).
  reflexivity.
Defined.

(** X10: macOS say is the last provider of every list, so it decides
    failure: an error thrown by [generateSpeech] is the error of macOS say
    (the message for an empty list of providers is never used), and
    whenever macOS say works [generateSpeech] returns audio, whatever the
    configuration, the counter and the other providers do. *)
Theorem X10_macos_say_decides_failure (cfg : config) (e : env) (failCount : nat) :
  (∀ err, (generateSpeech cfg e failCount).2 = Throw err →
          generateSpeechMacOS (say_reply e) = Throw err)
  ∧ (∀ a, generateSpeechMacOS (say_reply e) = Return a →
          ∃ s, (generateSpeech cfg e failCount).2 = Return s).
Proof.
  unfold generateSpeech.
  destruct (build_providers_macos_last cfg (piper_model_present e) failCount)
    as (ps & -> & _).
  split.
  - intros err. apply cascade_throws_last.
  - intros a. apply cascade_returns_with_macos.
Qed.

(** X11: when another provider than ElevenLabs is preferred, when no API
    key is configured, or when the failure counter has reached its
    maximum, a call of [generateSpeech] does not depend on what ElevenLabs
    would answer, leaves the counter as it is, and its audio is not from
    ElevenLabs. *)
Theorem X11_cloud_left_out (cfg : config) (e : env) (failCount : nat) (r : el_reply) :
  TTS_PROVIDER cfg ≠ lit "elevenlabs" ∨ api_key_set cfg = false
  ∨ (ELEVENLABS_MAX_FAILS ≤ failCount)%nat →
  generateSpeech cfg (with_elevenlabs_reply e r) failCount = generateSpeech cfg e failCount
  ∧ (generateSpeech cfg e failCount).1 = failCount
  ∧ ∀ s, (generateSpeech cfg e failCount).2 = Return s → speech_provider s ≠ elevenlabs.
Proof.
  intros H. pose proof (cloud_not_listed cfg (piper_model_present e) failCount H) as Hn.
  unfold generateSpeech. split; [|split].
  - by apply cascade_ignores_cloud.
  - by apply cascade_local.
  - intros s Hs.
    destruct (cascade cfg e _ None failCount) as [n o] eqn:E. simpl in Hs. subst o.
    apply cascade_return in E as (before & after & k0 & Hps & _).
    intros Hp. apply Hn. rewrite Hps, Hp.
    apply elem_of_app. right. apply list_elem_of_here.
Qed.

Lemma X11_witness :
  generateSpeech
    {| ELEVENLABS_API_KEY := None; TTS_PROVIDER := lit "elevenlabs";
       PIPER_MODEL_PATH := lit "/m.onnx" |}
    (with_elevenlabs_reply all_up (ElRefused 429 [])) 0
  = generateSpeech
      {| ELEVENLABS_API_KEY := None; TTS_PROVIDER := lit "elevenlabs";
         PIPER_MODEL_PATH := lit "/m.onnx" |} all_up 0
  ∧ (generateSpeech
       {| ELEVENLABS_API_KEY := None; TTS_PROVIDER := lit "elevenlabs";
          PIPER_MODEL_PATH := lit "/m.onnx" |} all_up 0).1 = 0%nat
  ∧ ∀ s, (generateSpeech
            {| ELEVENLABS_API_KEY := None; TTS_PROVIDER := lit "elevenlabs";
               PIPER_MODEL_PATH := lit "/m.onnx" |} all_up 0).2 = Return s →
         speech_provider s ≠ elevenlabs.
Proof.
  apply (X11_cloud_left_out
           {| ELEVENLABS_API_KEY := None; TTS_PROVIDER := lit "elevenlabs";
              PIPER_MODEL_PATH := lit "/m.onnx" |} all_up 0 (ElRefused 429 [])).
  right. left. reflexivity.
Defined.

Section Strikes.

Variable cfg : config.
Hypothesis preferred : TTS_PROVIDER cfg = lit "elevenlabs".
Hypothesis key_set : api_key_set cfg = true.

Lemma transient_failure_counts e k :
  transient (elevenlabs_reply e) = true → (k < ELEVENLABS_MAX_FAILS)%nat →
  (generateSpeech cfg e k).1 = S k.
Proof.
  intros Ht Hk. unfold generateSpeech.
  destruct (cloud_listed cfg (piper_model_present e) k preferred key_set Hk)
    as (rest & -> & Hrest).
  cbn [cascade attempt]. unfold generateSpeechElevenLabs. rewrite key_set. cbn [negb].
  destruct (elevenlabs_reply e) as [a|err|status txt|status err|err]; simpl in Ht;
    try done; cbn [elevenlabs_settle].
  - apply negb_true_iff in Ht. rewrite Ht. simpl.
    by rewrite cascade_local.
  - simpl. by rewrite cascade_local.
  - simpl. by rewrite cascade_local.
Qed.

Lemma speak_all_transient es : ∀ k,
  Forall (λ e, transient (elevenlabs_reply e) = true) es →
  (k ≤ ELEVENLABS_MAX_FAILS)%nat →
  speak_all cfg es k = ((k + length es) `min` ELEVENLABS_MAX_FAILS)%nat.
Proof.
  induction es as [|e rest IH]; intros k Hes Hk; cbn [speak_all length].
  - rewrite Nat.add_0_r. lia.
  - apply Forall_cons in Hes as [He Hrest].
    destruct (decide (k < ELEVENLABS_MAX_FAILS)%nat) as [Hlt|Hge].
    + rewrite transient_failure_counts by done. rewrite IH by (done || lia). lia.
    + rewrite generateSpeech_capped by lia. rewrite IH by done. lia.
Qed.

End Strikes.

(** X12: with ElevenLabs preferred and its key set, each call of
    [generateSpeech] that meets a failure of ElevenLabs without quota
    signal adds one to the failure counter until it stands at 3: after
    calls made one after the other from a counter of 0, ElevenLabs is
    still in the provider list exactly when fewer than three of them were
    made. *)
Theorem X12_three_failures_switch_cloud_off (cfg : config) (es : list env) :
  TTS_PROVIDER cfg = lit "elevenlabs" → api_key_set cfg = true →
  Forall (λ e, transient (elevenlabs_reply e) = true) es →
  speak_all cfg es 0 = (length es `min` 3)%nat
  ∧ ∀ present,
      elevenlabs ∈ build_providers cfg present (speak_all cfg es 0) ↔ (length es < 3)%nat.
Proof.
  intros Hp Hk Hes.
  pose proof (speak_all_transient cfg Hp Hk es 0 Hes) as Hn.
  unfold ELEVENLABS_MAX_FAILS in Hn. rewrite Hn by lia. cbn [Nat.add].
  split; [done|]. intros present. split.
  - intros Hin. destruct (decide (length es < 3)%nat) as [|Hge]; [done|].
    exfalso. revert Hin. apply cloud_not_listed. right. right.
    unfold ELEVENLABS_MAX_FAILS. lia.
  - intros Hlt.
    destruct (cloud_listed cfg present (length es `min` 3) Hp Hk) as (rest & -> & _).
    + unfold ELEVENLABS_MAX_FAILS. lia.
    + apply list_elem_of_here.
Qed.

Lemma X12_witness :
  speak_all cloud_config [all_down; all_down; all_down; all_down] 0
  = (length [all_down; all_down; all_down; all_down] `min` 3)%nat
  ∧ ∀ present,
      elevenlabs ∈ build_providers cloud_config present
                     (speak_all cloud_config [all_down; all_down; all_down; all_down] 0)
      ↔ (length [all_down; all_down; all_down; all_down] < 3)%nat.
Proof.
  apply (X12_three_failures_switch_cloud_off cloud_config
           [all_down; all_down; all_down; all_down]).
  - reflexivity.
  - reflexivity.
  - by repeat constructor.
Defined.

(** ** Notifications and responses *)

Section Notification.

Variable cfg : config.

(** [sendNotification] with the outcome of speech and playback named. *)
Lemma sendNotification_spec e title message enabled st :
  sendNotification cfg e title message enabled st
  = if negb (valid (validateInput title)) then
      (st, Throw (Error (lit "Invalid title: "
                         ++ or_undefined (error (validateInput title)))))
    else if negb (valid (validateInput message)) then
      (st, Throw (Error (lit "Invalid message: "
                         ++ or_undefined (error (validateInput message)))))
    else if enabled then
      let n := (generateSpeech cfg e (elevenLabsFailCount st)).1 in
      match spoken cfg e (elevenLabsFailCount st) with
      | Return _ =>
          ({| requestCounts := requestCounts st; elevenLabsFailCount := n;
              error_log := error_log st |}, Return tt)
      | Throw err =>
          match log_write e with
          | LogWritten =>
              ({| requestCounts := requestCounts st; elevenLabsFailCount := n;
                  error_log :=
                    [errorLog_entry (iso_time e) err
                       (cleaned (extractEmotionalMarker
                                   (or_undefined (sanitized (validateInput message)))))] |},
               Return tt)
          | LogWriteFails werr remains =>
              ({| requestCounts := requestCounts st; elevenLabsFailCount := n;
                  error_log := remains |}, Throw werr)
          end
      end
    else (st, Return tt).
Proof.
  unfold sendNotification, spoken.
  destruct (negb (valid (validateInput title))); [done|].
  destruct (negb (valid (validateInput message))); [done|].
  destruct enabled; [|done].
  by destruct (generateSpeech _ _ _) as [n g].
Qed.

(** When the error log can be written, the outcome is decided by the
    validation alone. *)
Lemma sendNotification_outcome e title message enabled st :
  log_write e = LogWritten →
  (sendNotification cfg e title message enabled st).2
  = if negb (valid (validateInput title)) then
      Throw (Error (lit "Invalid title: " ++ or_undefined (error (validateInput title))))
    else if negb (valid (validateInput message)) then
      Throw (Error (lit "Invalid message: " ++ or_undefined (error (validateInput message))))
    else Return tt.
Proof.
  intros Hw. rewrite sendNotification_spec, Hw.
  destruct (negb (valid (validateInput title))); [done|].
  destruct (negb (valid (validateInput message))); [done|].
  destruct enabled; [|done]. cbv zeta.
  by destruct (spoken _ _ _).
Qed.

Lemma sendNotification_counts e title message enabled st :
  requestCounts (sendNotification cfg e title message enabled st).1 = requestCounts st.
Proof.
  rewrite sendNotification_spec.
  destruct (negb (valid (validateInput title))); [done|].
  destruct (negb (valid (validateInput message))); [done|].
  destruct enabled; [|done]. cbv zeta.
  destruct (spoken _ _ _); [done|]. by destruct (log_write e).
Qed.

(** What the error log holds after [sendNotification]: what it held, or
    the chunk of this failure alone, or what a rejected write left. *)
Lemma sendNotification_log e title message enabled st :
  error_log (sendNotification cfg e title message enabled st).1 = error_log st
  ∨ (log_write e = LogWritten
     ∧ ∃ err m, error_log (sendNotification cfg e title message enabled st).1
                = [errorLog_entry (iso_time e) err m])
  ∨ ∃ werr, log_write e
            = LogWriteFails werr
                (error_log (sendNotification cfg e title message enabled st).1).
Proof.
  rewrite sendNotification_spec.
  destruct (negb (valid (validateInput title))); [by left|].
  destruct (negb (valid (validateInput message))); [by left|].
  destruct enabled; [|by left]. cbv zeta.
  destruct (spoken _ _ _) as [u|err]; [by left|]. right.
  destruct (log_write e) as [|werr remains]; cbn [fst error_log].
  - left. split; [done|]. by eexists _, _.
  - right. by exists werr.
Qed.

Lemma get_prop_view e e' data key :
  msg_null_property e = msg_null_property e' → get_prop e data key = get_prop e' data key.
Proof. intros H. unfold get_prop. by rewrite H. Qed.

Lemma notify_args_view e e' req :
  msg_null_property e = msg_null_property e' →
  msg_not_primitive e = msg_not_primitive e' →
  msg_not_a_function e = msg_not_a_function e' →
  notify_args e req = notify_args e' req.
Proof.
  intros H1 H2 H3. unfold notify_args.
  destruct (json_body req) as [data|err]; [|done]. simpl.
  rewrite !(get_prop_view e e' data) by done. by rewrite H2, H3.
Qed.

Lemma notify_counts e req st :
  requestCounts (notify cfg e req st).1 = requestCounts st.
Proof.
  unfold notify. destruct (notify_args e req) as [[[title message] enabled]|err]; [|done].
  apply sendNotification_counts.
Qed.

Lemma notify_log e req st :
  error_log (notify cfg e req st).1 = error_log st
  ∨ (log_write e = LogWritten
     ∧ ∃ err m, error_log (notify cfg e req st).1 = [errorLog_entry (iso_time e) err m])
  ∨ ∃ werr, log_write e = LogWriteFails werr (error_log (notify cfg e req st).1).
Proof.
  unfold notify. destruct (notify_args e req) as [[[title message] enabled]|err].
  - apply sendNotification_log.
  - by left.
Qed.

Lemma notify_outcome_view e e' req st st' :
  msg_null_property e = msg_null_property e' →
  msg_not_primitive e = msg_not_primitive e' →
  msg_not_a_function e = msg_not_a_function e' →
  log_write e = LogWritten → log_write e' = LogWritten →
  (notify cfg e req st).2 = (notify cfg e' req st').2.
Proof.
  intros H1 H2 H3 Hw Hw'. unfold notify. rewrite (notify_args_view e e') by done.
  destruct (notify_args e' req) as [[[title message] enabled]|err]; [|done].
  by rewrite !sendNotification_outcome.
Qed.

(** The three ways in which the processing of a notification throws: while
    the request is read, at the validation, and at the write of the error
    log. *)
Lemma notify_throws e req st err :
  (notify cfg e req st).2 = Throw err →
  (notify_args e req = Throw err ∧ (notify cfg e req st).1 = st)
  ∨ (includes (lit "Invalid") (err_message err) = true
     ∧ (notify cfg e req st).1 = st
     ∧ ∃ title message enabled,
         notify_args e req = Return (title, message, enabled)
         ∧ (valid (validateInput title) = false ∨ valid (validateInput message) = false))
  ∨ (∃ title message serr remains,
       notify_args e req = Return (title, message, true)
       ∧ valid (validateInput title) = true ∧ valid (validateInput message) = true
       ∧ spoken cfg e (elevenLabsFailCount st) = Throw serr
       ∧ log_write e = LogWriteFails err remains
       ∧ error_log (notify cfg e req st).1 = remains).
Proof.
  unfold notify. destruct (notify_args e req) as [[[title message] enabled]|er].
  - rewrite sendNotification_spec. intros H. right.
    destruct (valid (validateInput title)) eqn:Et; cbn [negb] in *.
    + destruct (valid (validateInput message)) eqn:Em; cbn [negb] in *.
      * destruct enabled; [|done]. cbv zeta in *.
        destruct (spoken cfg e (elevenLabsFailCount st)) as [u|serr] eqn:Es; [done|].
        destruct (log_write e) as [|werr remains] eqn:Ew; [done|].
        cbn [snd] in H. injection H as ->. right.
        by exists title, message, serr, remains.
      * cbn [snd] in H. injection H as <-. left. split; [done|]. split; [done|].
        exists title, message, enabled. auto.
    + cbn [snd] in H. injection H as <-. left. split; [done|]. split; [done|].
      exists title, message, enabled. auto.
  - cbn [snd]. intros [= ->]. by left.
Qed.

Lemma checkRateLimit_denied t ip counts :
  (checkRateLimit t ip counts).1 = false → (checkRateLimit t ip counts).2 = counts.
Proof.
  unfold checkRateLimit. destruct (counts !! ip) as [r|]; [|done].
  destruct (resetTime r <? t)%Z; [done|]. by destruct (RATE_LIMIT <=? count r)%nat.
Qed.

(** The five ways a request is answered. *)
Lemma fetch_cases e req st :
  let allowed := (checkRateLimit (now e) (client_ip req) (requestCounts st)).1 in
  let st1 := admitted_state e req st in
  (method req = lit "OPTIONS"
   ∧ fetch cfg e req st
     = ({| resp_status := 204; resp_headers := corsHeaders; resp_body := NoBody |}, st))
  ∨ (method req ≠ lit "OPTIONS" ∧ allowed = false
     ∧ fetch cfg e req st = (too_many_requests, st))
  ∨ (method req = lit "POST" ∧ pathname req = lit "/notify" ∧ allowed = true
     ∧ (∃ u, (notify cfg e req st1).2 = Return u)
     ∧ fetch cfg e req st = (notification_sent, (notify cfg e req st1).1))
  ∨ (method req = lit "POST" ∧ pathname req = lit "/notify" ∧ allowed = true
     ∧ ∃ err, (notify cfg e req st1).2 = Throw err
         ∧ fetch cfg e req st = (error_response err, (notify cfg e req st1).1))
  ∨ (method req ≠ lit "OPTIONS" ∧ allowed = true
     ∧ ¬ (method req = lit "POST" ∧ pathname req = lit "/notify")
     ∧ resp_status (fetch cfg e req st).1 = 200
     ∧ (fetch cfg e req st).2 = st1).
Proof.
  intros allowed st1. subst allowed st1. unfold fetch, admitted_state.
  case_bool_decide as Hm; [by left|]. right.
  pose proof (checkRateLimit_denied (now e) (client_ip req) (requestCounts st)) as Hd.
  destruct (checkRateLimit _ _ _) as [[|] c1]; simpl negb; cbv iota; cbn [fst snd] in *.
  - right.
    case_bool_decide as Hpath; case_bool_decide as Hpost; cbn [andb].
    + destruct (notify _ _ _ _) as [st2 [u|err]]; cbn [fst snd] in *.
      * left. split; [done|]. split; [done|]. split; [done|]. split; [by exists u | done].
      * right. left. split; [done|]. split; [done|]. split; [done|].
        by exists err.
    + right. right. split; [done|]. split; [done|]. split; [tauto|].
      by destruct (bool_decide (pathname req = lit "/health")).
    + right. right. split; [done|]. split; [done|]. split; [tauto|].
      by destruct (bool_decide (pathname req = lit "/health")).
    + right. right. split; [done|]. split; [done|]. split; [tauto|].
      by destruct (bool_decide (pathname req = lit "/health")).
  - left. rewrite Hd by done. split; [done|]. split; [done|]. by destruct st.
Qed.

End Notification.

(** X13: [sendNotification] throws in two cases only.  The title or the
    message does not pass [validateInput]: then nothing has been done (the
    state is as before) and the text of the error holds the word that makes
    the handler answer with status 400.  Or the voice is enabled, speech or
    playback failed and the write of the error log was rejected: then what
    the write threw is thrown, and the log holds what the write left.  In
    every other case it returns: the voice is disabled, or speech was
    played, or the error log took the chunk. *)
Theorem X13_when_a_notification_throws (cfg : config) (e : env)
    (title message : jsval) (voiceEnabled : bool) (st : server_state) :
  match (sendNotification cfg e title message voiceEnabled st).2 with
  | Throw err =>
      ((sendNotification cfg e title message voiceEnabled st).1 = st
       ∧ error_status err = 400
       ∧ (valid (validateInput title) = false ∨ valid (validateInput message) = false))
      ∨ (valid (validateInput title) = true ∧ valid (validateInput message) = true
         ∧ voiceEnabled = true
         ∧ (∃ serr, spoken cfg e (elevenLabsFailCount st) = Throw serr)
         ∧ ∃ remains,
             log_write e = LogWriteFails err remains
             ∧ error_log (sendNotification cfg e title message voiceEnabled st).1 = remains)
  | Return _ =>
      valid (validateInput title) = true ∧ valid (validateInput message) = true
      ∧ (voiceEnabled = false
         ∨ (∃ u, spoken cfg e (elevenLabsFailCount st) = Return u)
         ∨ log_write e = LogWritten)
  end.
Proof.
  rewrite sendNotification_spec.
  destruct (valid (validateInput title)) eqn:Et; cbn [negb].
  - destruct (valid (validateInput message)) eqn:Em; cbn [negb].
    + destruct voiceEnabled; cbn [snd]; [|by auto]. cbv zeta.
      destruct (spoken cfg e (elevenLabsFailCount st)) as [u|serr] eqn:Es; cbn [snd].
      * split; [done|]. split; [done|]. right. left. by exists u.
      * destruct (log_write e) as [|werr remains] eqn:Ew; cbn [fst snd error_log].
        -- split; [done|]. split; [done|]. by right; right.
        -- right. split; [done|]. split; [done|]. split; [done|].
           split; [by exists serr|]. by exists remains.
    + cbn [fst snd]. left. split; [done|]. split; [done|]. by right.
  - cbn [fst snd]. left. split; [done|]. split; [done|]. by left.
Qed.

(** X14: as long as the error log can be written, what a client is
    answered, and what the limiter records, does not depend on the outcome
    of speech: two such worlds that agree on the clock, on the presence of
    the Piper model and on the error texts of the runtime give the same
    response, whatever ElevenLabs, Piper, macOS say and the player do in
    each. *)
Theorem X14_response_hides_speech_outcome (cfg : config) (e e' : env) (req : request)
    (st : server_state) :
  now e = now e' → piper_model_present e = piper_model_present e' →
  msg_null_property e = msg_null_property e' →
  msg_not_primitive e = msg_not_primitive e' →
  msg_not_a_function e = msg_not_a_function e' →
  log_write e = LogWritten → log_write e' = LogWritten →
  (fetch cfg e req st).1 = (fetch cfg e' req st).1
  ∧ requestCounts (fetch cfg e req st).2 = requestCounts (fetch cfg e' req st).2.
Proof.
  intros Hnow Hpiper Hnull Hprim Hfun Hw Hw'. unfold fetch. rewrite <- Hnow, <- Hpiper.
  destruct (bool_decide (method req = lit "OPTIONS")); [done|].
  destruct (checkRateLimit _ _ _) as [[|] c1]; simpl negb; cbv iota; [|done].
  destruct (_ && _).
  - set (st1 := {| requestCounts := c1; elevenLabsFailCount := elevenLabsFailCount st;
                   error_log := error_log st |}).
    pose proof (notify_outcome_view cfg e e' req st1 st1 Hnull Hprim Hfun Hw Hw') as Ho.
    pose proof (notify_counts cfg e req st1) as Hc.
    pose proof (notify_counts cfg e' req st1) as Hc'.
    destruct (notify cfg e req st1) as [s2 o], (notify cfg e' req st1) as [s2' o'].
    cbn [fst snd] in *. subst o. destruct o'; cbn [fst snd]; split; congruence.
  - by destruct (bool_decide (pathname req = lit "/health")).
Qed.

Lemma X14_witness :
  (fetch cloud_config all_up (post_notify (VObject [])) initial_state).1
  = (fetch cloud_config all_down (post_notify (VObject [])) initial_state).1
  ∧ requestCounts (fetch cloud_config all_up (post_notify (VObject [])) initial_state).2
    = requestCounts (fetch cloud_config all_down (post_notify (VObject [])) initial_state).2.
Proof.
  apply (X14_response_hides_speech_outcome cloud_config all_up all_down
           (post_notify (VObject [])) initial_state); reflexivity.
Defined.

(** X15: the handler answers with one of five status codes.  204 is the
    answer to [OPTIONS] and to nothing else.  500 is only given to a POST
    /notify, for an error whose text does not hold [Invalid]: either
    reading the request threw it (the body is not JSON, or a field has no
    string form or the wrong type), or speech failed and the write of the
    error log threw it.  400 is only given when the notification was
    refused with an error whose text holds [Invalid]. *)
Theorem X15_status_codes (cfg : config) (e : env) (req : request) (st : server_state) :
  resp_status (fetch cfg e req st).1 ∈ [200; 204; 400; 429; 500]
  ∧ (resp_status (fetch cfg e req st).1 = 204 ↔ method req = lit "OPTIONS")
  ∧ (resp_status (fetch cfg e req st).1 = 500 →
     method req = lit "POST" ∧ pathname req = lit "/notify"
     ∧ ∃ err, includes (lit "Invalid") (err_message err) = false
              ∧ (notify_args e req = Throw err
                 ∨ ((∃ serr, spoken cfg e (elevenLabsFailCount st) = Throw serr)
                    ∧ ∃ remains, log_write e = LogWriteFails err remains)))
  ∧ (resp_status (fetch cfg e req st).1 = 400 →
     method req = lit "POST" ∧ pathname req = lit "/notify"
     ∧ ∃ err, (notify cfg e req (admitted_state e req st)).2 = Throw err
              ∧ includes (lit "Invalid") (err_message err) = true).
Proof.
  destruct (fetch_cases cfg e req st)
    as [(Hm & ->)|[(Hm & _ & ->)|[(Hpost & Hpath & _ & _ & ->)
       |[(Hpost & Hpath & _ & err & Herr & ->)|(Hm & _ & Hn & Hs & _)]]]];
    cbn [fst resp_status error_response].
  - split; [rewrite !elem_of_cons; tauto|]. by repeat split.
  - split; [rewrite !elem_of_cons; tauto|]. by repeat split.
  - assert (method req ≠ lit "OPTIONS") as Hm by (by rewrite Hpost).
    split; [rewrite !elem_of_cons; tauto|]. by repeat split.
  - assert (method req ≠ lit "OPTIONS") as Hm by (by rewrite Hpost).
    unfold error_status.
    destruct (includes (lit "Invalid") (err_message err)) eqn:Ei.
    + split; [rewrite !elem_of_cons; tauto|]. split; [by split|]. split; [done|].
      intros _. split; [done|]. split; [done|]. by exists err.
    + split; [rewrite !elem_of_cons; tauto|]. split; [by split|]. split; [|done].
      intros _. split; [done|]. split; [done|]. exists err. split; [done|].
      apply notify_throws in Herr
        as [[H _]|[[H _]|(title & message & serr & remains & _ & _ & _ & Hs & Hw & _)]].
      * by left.
      * congruence.
      * right. split; [by exists serr | by exists remains].
  - rewrite Hs. split; [rewrite !elem_of_cons; tauto|]. by repeat split.
Qed.

(** X16: a request that is not answered with status 200 leaves the
    failure counter and the error log as they were, no speech having been
    attempted for it; the one exception is the request whose speech failed
    and whose write of the error log was rejected: it is answered with the
    error of the write, and the log holds what the write left. *)
Theorem X16_refused_request_attempts_no_speech (cfg : config) (e : env) (req : request)
    (st : server_state) :
  resp_status (fetch cfg e req st).1 ≠ 200 →
  (elevenLabsFailCount (fetch cfg e req st).2 = elevenLabsFailCount st
   ∧ error_log (fetch cfg e req st).2 = error_log st)
  ∨ ∃ serr werr remains,
      spoken cfg e (elevenLabsFailCount st) = Throw serr
      ∧ log_write e = LogWriteFails werr remains
      ∧ (fetch cfg e req st).1 = error_response werr
      ∧ error_log (fetch cfg e req st).2 = remains.
Proof.
  destruct (fetch_cases cfg e req st)
    as [(Hm & ->)|[(Hm & _ & ->)|[(Hpost & Hpath & _ & _ & ->)
       |[(Hpost & Hpath & _ & err & Herr & ->)|(Hm & _ & Hn & Hs & ->)]]]];
    cbn [fst snd resp_status]; try done; try by left.
  intros _.
  apply notify_throws in Herr
    as [[_ ->]|[(_ & -> & _)|(title & message & serr & remains & _ & _ & _ & Hs & Hw & Hl)]];
    [by left | by left |].
  right. by exists serr, err, remains.
Qed.

Lemma X16_witness :
  (elevenLabsFailCount
     (fetch cloud_config all_down (post_notify (VObject [(lit "title", VNumber 7)]))
        initial_state).2 = elevenLabsFailCount initial_state
   ∧ error_log
       (fetch cloud_config all_down (post_notify (VObject [(lit "title", VNumber 7)]))
          initial_state).2 = error_log initial_state)
  ∨ ∃ serr werr remains,
      spoken cloud_config all_down (elevenLabsFailCount initial_state) = Throw serr
      ∧ log_write all_down = LogWriteFails werr remains
      ∧ (fetch cloud_config all_down (post_notify (VObject [(lit "title", VNumber 7)]))
           initial_state).1 = error_response werr
      ∧ error_log
          (fetch cloud_config all_down (post_notify (VObject [(lit "title", VNumber 7)]))
             initial_state).2 = remains.
Proof.
  apply (X16_refused_request_attempts_no_speech cloud_config all_down
           (post_notify (VObject [(lit "title", VNumber 7)])) initial_state).
  by vm_compute.
Defined.

Section Log.

Variable cfg : config.

Lemma fetch_log e req st :
  error_log (fetch cfg e req st).2 = error_log st
  ∨ (log_write e = LogWritten
     ∧ ∃ err m, error_log (fetch cfg e req st).2 = [errorLog_entry (iso_time e) err m])
  ∨ ∃ werr, log_write e = LogWriteFails werr (error_log (fetch cfg e req st).2).
Proof.
  destruct (fetch_cases cfg e req st)
    as [(Hm & ->)|[(Hm & _ & ->)|[(Hpost & Hpath & _ & _ & ->)
       |[(Hpost & Hpath & _ & err & Herr & ->)|(Hm & _ & Hn & Hs & ->)]]]];
    cbn [fst snd]; try (by left); apply (notify_log cfg e req (admitted_state e req st)).
Qed.

End Log.

(** X17: the error log does not accumulate.  After any sequence of
    requests, served one after the other, the log is what it was before,
    or it holds the one chunk that a request of the sequence wrote, with
    the time stamp of that request, or what a rejected write of a request
    of the sequence left. *)
Theorem X17_error_log_holds_one_entry (cfg : config) (reqs : list (env * request))
    (st : server_state) :
  error_log (serve cfg reqs st).2 = error_log st
  ∨ ∃ e req,
      (e, req) ∈ reqs
      ∧ ((log_write e = LogWritten
          ∧ ∃ err m, error_log (serve cfg reqs st).2 = [errorLog_entry (iso_time e) err m])
         ∨ ∃ werr, log_write e = LogWriteFails werr (error_log (serve cfg reqs st).2)).
Proof.
  revert st. induction reqs as [|[e req] rest IH]; intros st; [by left|].
  cbn [serve]. pose proof (fetch_log cfg e req st) as Hf.
  destruct (fetch cfg e req st) as [r st1]. cbn [snd] in Hf.
  specialize (IH st1).
  destruct (serve cfg rest st1) as [rs st2]. cbn [snd] in *.
  destruct IH as [IH|(e' & req' & Hin & IH)].
  - rewrite IH. destruct Hf as [Hf|Hf]; [by left|].
    right. exists e, req. split; [apply list_elem_of_here | done].
  - right. exists e', req'. split; [by apply list_elem_of_further | done].
Qed.

Section Fields.

Variables (cfg : config) (e : env).

Lemma get_prop_object fields key :
  get_prop e (VObject fields) key
  = Return (from_option id VUndefined (record_get fields (lit key))).
Proof. done. Qed.

End Fields.

(** X18: a message that is truthy and not a string (a number, an
    object) is not refused by validation: with no voice named, the handler
    fails on its log line, before [sendNotification] is called, and the
    answer is 500 with the error text of the runtime (taken not to hold
    [Invalid]): the text for a title without a string form when the title
    is one, and the text for the call of [message.substring] otherwise.
    Nothing is spoken and nothing is logged. *)
Theorem X18_non_string_message_is_a_server_error (cfg : config) (e : env) (req : request)
    (st : server_state) (fields : list (jstring * jsval)) (v : jsval) :
  let title := js_or (from_option id VUndefined (record_get fields (lit "title")))
                 (VString (lit "PAI Notification")) in
  let text := if throws_on_ToString title then msg_not_primitive e title
              else msg_not_a_function e v in
  method req = lit "POST" → pathname req = lit "/notify" →
  (checkRateLimit (now e) (client_ip req) (requestCounts st)).1 = true →
  json_body req = Return (VObject fields) →
  record_get fields (lit "voice_id") = None →
  record_get fields (lit "voice_name") = None →
  record_get fields (lit "message") = Some v →
  truthy v = true → is_string v = false →
  includes (lit "Invalid") text = false →
  fetch cfg e req st
  = ({| resp_status := 500; resp_headers := jsonHeaders;
        resp_body := StatusJson (lit "error")
                       (match text with
                        | [] => lit "Internal server error"
                        | msg => msg
                        end) |}, admitted_state e req st).
Proof.
  intros title text Hpost Hpath Hok Hbody Hvid Hvname Hm Htruthy Hstr Hinv.
  rewrite (fetch_notify cfg e req st Hpost Hpath Hok).
  unfold notify.
  rewrite (notify_args_fields e req (VObject fields) _ _ _ _ _ Hbody
             (get_prop_object e fields "title") (get_prop_object e fields "message")
             (get_prop_object e fields "voice_enabled")
             (get_prop_object e fields "voice_id")
             (get_prop_object e fields "voice_name")).
  rewrite Hvid, Hvname, Hm. cbv zeta. fold title.
  cbn [from_option id].
  assert (js_or v (VString (lit "Task completed")) = v) as ->
    by (unfold js_or; by rewrite Htruthy).
  change (truthy (js_or (js_or VUndefined VUndefined) VNull)
          && negb (is_string (js_or (js_or VUndefined VUndefined) VNull))) with false.
  cbv iota. rewrite Hstr. cbn [negb]. subst text. revert Hinv.
  destruct (throws_on_ToString title); intros Hinv;
    unfold error_status; cbn [err_message TypeError]; rewrite Hinv.
  - by destruct (msg_not_primitive e title).
  - by destruct (msg_not_a_function e v).
Qed.

Lemma X18_witness :
  fetch cloud_config all_up
    (post_notify (VObject [(lit "title", VString (lit "Build")); (lit "message", VNumber 42)]))
    initial_state
  = ({| resp_status := 500; resp_headers := jsonHeaders;
        resp_body := StatusJson (lit "error") (lit "message.substring is not a function") |},
     admitted_state all_up
       (post_notify (VObject [(lit "title", VString (lit "Build"));
                              (lit "message", VNumber 42)]))
       initial_state).
Proof.
  apply (X18_non_string_message_is_a_server_error cloud_config all_up
           (post_notify (VObject [(lit "title", VString (lit "Build"));
                                  (lit "message", VNumber 42)])) initial_state
           [(lit "title", VString (lit "Build")); (lit "message", VNumber 42)]
           (VNumber 42)); reflexivity.
Defined.

(** X30: when every provider of the list throws for a notification that
    passed validation, the error of the last one, macOS, is caught and a
    chunk with the time stamp, the message of that error and the text that
    was to be spoken is written.  If the write succeeds, the chunk is all
    the error log holds and the handler answers with status 200 and
    [{status: "success"}]; if it is rejected, the handler answers with the
    error of the write. *)
Theorem X30_failed_speech_is_logged (cfg : config) (e : env) (req : request)
    (st : server_state) (title message : jsval) (m : jstring) (err_last : js_error) :
  method req = lit "POST" → pathname req = lit "/notify" →
  (checkRateLimit (now e) (client_ip req) (requestCounts st)).1 = true →
  notify_args e req = Return (title, message, true) →
  valid (validateInput title) = true →
  validateInput message = accepted m →
  (∀ p n, p ∈ build_providers cfg (piper_model_present e) (elevenLabsFailCount st) →
          ∃ err, (attempt cfg e p n).2 = Throw err) →
  generateSpeechMacOS (say_reply e) = Throw err_last →
  match log_write e with
  | LogWritten =>
      (fetch cfg e req st).1 = notification_sent
      ∧ error_log (fetch cfg e req st).2
        = [errorLog_entry (iso_time e) err_last (cleaned (extractEmotionalMarker m))]
  | LogWriteFails werr remains =>
      (fetch cfg e req st).1 = error_response werr
      ∧ error_log (fetch cfg e req st).2 = remains
  end.
Proof.
  intros Hm Hp Hok Hargs Htitle Hmsg Hall Hmac.
  rewrite (fetch_notify cfg e req st Hm Hp Hok).
  unfold notify. rewrite Hargs. rewrite sendNotification_spec.
  rewrite Htitle, Hmsg. simpl negb. cbv iota zeta.
  cbn [sanitized accepted or_undefined from_option id].
  unfold spoken, generateSpeech. cbn [admitted_state elevenLabsFailCount].
  assert (∀ p k, p ∈ removelast (build_providers cfg (piper_model_present e) (elevenLabsFailCount st)) →
                 ∃ err, (attempt cfg e p k).2 = Throw err) as Hall'.
  { intros p k Hin. apply Hall. unfold build_providers in *.
    rewrite app_assoc in *. rewrite removelast_last in Hin.
    apply elem_of_app. by left. }
  assert (build_providers cfg (piper_model_present e) (elevenLabsFailCount st)
          = removelast (build_providers cfg (piper_model_present e) (elevenLabsFailCount st))
            ++ [macos]) as Hsplit.
  { unfold build_providers. rewrite app_assoc. by rewrite removelast_last. }
  rewrite Hsplit.
  destruct (cascade_all_fail cfg e err_last _ None (elevenLabsFailCount st) Hmac Hall')
    as [n' ->].
  cbn [snd mbind outcome_bind]. by destruct (log_write e).
Qed.

Lemma X30_witness :
  (fetch cloud_config all_down (post_message "Build done") initial_state).1
  = notification_sent
  ∧ error_log (fetch cloud_config all_down (post_message "Build done") initial_state).2
    = [ lit "2025-12-31T10:00:00.000Z - TTS Error: macOS say exited with code 1"
        ++ [Chr.newline] ++ lit "Message: Build done" ++ [Chr.newline; Chr.newline] ].
Proof.
  refine (X30_failed_speech_is_logged cloud_config all_down
            (post_message "Build done")
            initial_state (VString (lit "PAI Notification")) (VString (lit "Build done"))
            (lit "Build done") (Error (lit "macOS say exited with code 1"))
            eq_refl eq_refl eq_refl eq_refl eq_refl eq_refl _ eq_refl).
  intros p n Hin. vm_compute in Hin.
  apply elem_of_cons in Hin as [->|Hin]; [vm_compute; eauto|].
  apply elem_of_cons in Hin as [->|Hin]; [vm_compute; eauto|].
  apply elem_of_cons in Hin as [->|Hin]; [vm_compute; eauto|].
  by apply elem_of_nil in Hin.
Defined.

(** ** The limiter over the life of the server *)

Section Limiter.

Lemma checkRateLimit_bounded t ip counts :
  counts_bounded counts → counts_bounded (checkRateLimit t ip counts).2.
Proof.
  intros Hb ip' r'. unfold checkRateLimit.
  destruct (counts !! ip) as [r|] eqn:E.
  - destruct (resetTime r <? t)%Z.
    + cbn [snd]. intros [[_ <-]|[_ H]]%lookup_insert_Some; [|by eapply Hb].
      unfold RATE_LIMIT. simpl. lia.
    + destruct (RATE_LIMIT <=? count r)%nat eqn:El; cbn [snd]; [by apply Hb|].
      intros [[_ <-]|[_ H]]%lookup_insert_Some; [|by eapply Hb].
      apply Nat.leb_gt in El. simpl. lia.
  - cbn [snd]. intros [[_ <-]|[_ H]]%lookup_insert_Some; [|by eapply Hb].
    unfold RATE_LIMIT. simpl. lia.
Qed.

Lemma fetch_counts cfg e req st :
  requestCounts (fetch cfg e req st).2
  = if bool_decide (method req = lit "OPTIONS") then requestCounts st
    else (checkRateLimit (now e) (client_ip req) (requestCounts st)).2.
Proof.
  case_bool_decide as Hm.
  - unfold fetch. by rewrite (bool_decide_eq_true_2 _ Hm).
  - by apply fetch_limiter.
Qed.

Lemma serve_bounded cfg reqs : ∀ st,
  counts_bounded (requestCounts st) → counts_bounded (requestCounts (serve cfg reqs st).2).
Proof.
  induction reqs as [|[e req] rest IH]; intros st Hb; [done|].
  cbn [serve]. pose proof (fetch_counts cfg e req st) as Hf.
  destruct (fetch cfg e req st) as [r st1]. cbn [snd] in Hf.
  specialize (IH st1). destruct (serve cfg rest st1) as [rs st2]. cbn [snd] in *.
  apply IH. rewrite Hf. case_bool_decide; [done|]. by apply checkRateLimit_bounded.
Qed.

(** The answer to a request and the record it leaves depend on the record
    of its own address only. *)
Lemma checkRateLimit_local t ip c c' :
  c !! ip = c' !! ip →
  (checkRateLimit t ip c).1 = (checkRateLimit t ip c').1
  ∧ (checkRateLimit t ip c).2 !! ip = (checkRateLimit t ip c').2 !! ip.
Proof.
  intros H. unfold checkRateLimit. rewrite <- H.
  destruct (c !! ip) as [r|] eqn:E.
  - destruct (resetTime r <? t)%Z; cbn [fst snd].
    + by rewrite !lookup_insert_eq.
    + destruct (RATE_LIMIT <=? count r)%nat; cbn [fst snd]; [split; congruence|].
      by rewrite !lookup_insert_eq.
  - cbn [fst snd]. by rewrite !lookup_insert_eq.
Qed.

Lemma limiter_isolated ip reqs : ∀ c c',
  c !! ip = c' !! ip →
  answers_for ip reqs (limiter_run reqs c).1
  = (limiter_run (filter (λ r, r.2 = ip) reqs) c').1.
Proof.
  induction reqs as [|[t ip'] rest IH]; intros c c' H; [done|].
  cbn [limiter_run].
  destruct (decide (ip' = ip)) as [->|Hne].
  - rewrite filter_cons_True by done. cbn [limiter_run].
    destruct (checkRateLimit_local t ip c c' H) as [H1 H2].
    destruct (checkRateLimit t ip c) as [ok c1], (checkRateLimit t ip c') as [ok' c1'].
    cbn [fst snd] in *. subst ok'.
    specialize (IH c1 c1' H2).
    destruct (limiter_run rest c1) as [oks c2].
    destruct (limiter_run (filter _ rest) c1') as [oks' c2'].
    cbn [fst snd answers_for] in *. rewrite bool_decide_eq_true_2 by done. by rewrite IH.
  - rewrite filter_cons_False by done.
    pose proof (checkRateLimit_other t ip ip' c Hne) as Ho.
    destruct (checkRateLimit t ip' c) as [ok c1]. cbn [snd] in Ho.
    assert (c1 !! ip = c' !! ip) as H1 by (by rewrite Ho).
    specialize (IH c1 c' H1).
    destruct (limiter_run rest c1) as [oks c2].
    cbn [fst answers_for] in *. by rewrite bool_decide_eq_false_2.
Qed.

Lemma checkRateLimit_dom t ip counts :
  dom (checkRateLimit t ip counts).2 = {[ip]} ∪ dom counts.
Proof.
  unfold checkRateLimit.
  destruct (counts !! ip) as [r|] eqn:E.
  - assert ({[ip]} ∪ dom counts = dom counts) as Hin.
    { apply subseteq_union_1_L, singleton_subseteq_l. by apply elem_of_dom_2 in E. }
    destruct (resetTime r <? t)%Z; cbn [snd]; [by rewrite dom_insert_L|].
    destruct (RATE_LIMIT <=? count r)%nat; cbn [snd]; [done|]. by rewrite dom_insert_L.
  - cbn [snd]. by rewrite dom_insert_L.
Qed.

End Limiter.

(** X19: at every moment of the server's life each record of the limiter
    holds a count between 1 and 10: a refused request is not counted, and
    a record is never left at 0. *)
Theorem X19_limiter_counts_stay_bounded (cfg : config) (reqs : list (env * request)) :
  counts_bounded (requestCounts (serve cfg reqs initial_state).2).
Proof.
  apply serve_bounded. unfold initial_state. cbn [requestCounts].
  intros ip r H. by rewrite lookup_empty in H.
Qed.

(** X20: the limiter treats each client address on its own.  The answers
    an address gets are those it would get if its requests were the only
    ones: requests of other addresses, at any time and in any number,
    change nothing for it. *)
Theorem X20_limiter_isolates_addresses (ip : jstring) (reqs : list (Z * jstring))
    (counts : gmap jstring rate_record) :
  answers_for ip reqs (limiter_run reqs counts).1
  = (limiter_run (filter (λ r, r.2 = ip) reqs) counts).1.
Proof. by apply limiter_isolated. Qed.

(** X21: a record of the limiter is never removed.  After any sequence
    of requests the addresses on record are those that were there before
    and the address of every request that reached the limiter, however
    long ago its window ended. *)
Theorem X21_limiter_never_forgets (cfg : config) (reqs : list (env * request))
    (st : server_state) :
  dom (requestCounts (serve cfg reqs st).2)
  = dom (requestCounts st) ∪ list_to_set (counted_addresses reqs).
Proof.
  revert st.
  induction reqs as [|[e req] rest IH]; intros st.
  - simpl. by rewrite union_empty_r_L.
  - cbn [serve counted_addresses]. pose proof (fetch_counts cfg e req st) as Hf.
    destruct (fetch cfg e req st) as [r st1]. cbn [snd] in Hf.
    specialize (IH st1). destruct (serve cfg rest st1) as [rs st2]. cbn [snd] in *.
    rewrite IH, Hf. case_bool_decide; [done|].
    rewrite checkRateLimit_dom. cbn [list_to_set].
    rewrite (union_comm_L {[client_ip req]} (dom (requestCounts st))).
    by rewrite <- union_assoc_L.
Qed.

(** X22: the limit is per value of the [x-forwarded-for] header, which
    the client chooses: requests that each carry an address not used
    before are never answered with status 429, however many they are and
    however fast they come. *)
Theorem X22_fresh_addresses_are_never_limited (cfg : config) (reqs : list (env * request))
    (st : server_state) :
  NoDup (counted_addresses reqs) →
  (∀ ip, ip ∈ counted_addresses reqs → requestCounts st !! ip = None) →
  Forall (λ r, resp_status r ≠ 429) (serve cfg reqs st).1.
Proof.
  revert st.
  induction reqs as [|[e req] rest IH]; intros st Hnd Hfresh; [by constructor|].
  cbn [serve]. cbn [counted_addresses] in Hnd, Hfresh.
  pose proof (fetch_counts cfg e req st) as Hf.
  pose proof (fetch_not_limited cfg e req st) as Hok.
  destruct (fetch cfg e req st) as [r st1]. cbn [fst snd] in Hf, Hok.
  specialize (IH st1). destruct (serve cfg rest st1) as [rs st2]. cbn [fst] in *.
  case_bool_decide as Hm.
  - constructor; [by apply Hok; left|]. apply IH; [done|]. by rewrite Hf.
  - apply NoDup_cons in Hnd as [Hnew Hnd].
    assert (requestCounts st !! client_ip req = None) as Hnone
      by (apply Hfresh, list_elem_of_here).
    assert (checkRateLimit (now e) (client_ip req) (requestCounts st)
            = (true, <[client_ip req := {| count := 1;
                                           resetTime := (now e + RATE_WINDOW)%Z |}]>
                       (requestCounts st))) as Hc
      by (apply checkRateLimit_fresh; unfold no_window; by rewrite Hnone).
    constructor; [apply Hok; right; by rewrite Hc|].
    apply IH; [done|]. intros ip Hip. rewrite Hf, Hc. cbn [snd].
    assert (client_ip req ≠ ip) as Hne by (intros Heq; apply Hnew; by rewrite Heq).
    rewrite lookup_insert_ne by done.
    by apply Hfresh, list_elem_of_further.
Qed.

Lemma X22_witness :
  Forall (λ r, resp_status r ≠ 429)
    (serve cloud_config
       [ (all_up, {| method := lit "GET"; pathname := lit "/health";
                     x_forwarded_for := Some (lit "10.0.0.1"); json_body := Return VNull |});
         (all_up, {| method := lit "GET"; pathname := lit "/health";
                     x_forwarded_for := Some (lit "10.0.0.2"); json_body := Return VNull |}) ]
       {| requestCounts := {[ lit "localhost" := {| count := 10; resetTime := 5000 |} ]};
          elevenLabsFailCount := 0; error_log := [] |}).1.
Proof.
  apply (X22_fresh_addresses_are_never_limited cloud_config
    [ (all_up, {| method := lit "GET"; pathname := lit "/health";
                  x_forwarded_for := Some (lit "10.0.0.1"); json_body := Return VNull |});
      (all_up, {| method := lit "GET"; pathname := lit "/health";
                  x_forwarded_for := Some (lit "10.0.0.2"); json_body := Return VNull |}) ]
    {| requestCounts := {[ lit "localhost" := {| count := 10; resetTime := 5000 |} ]};
       elevenLabsFailCount := 0; error_log := [] |}).
  - by apply (bool_decide_unpack _); vm_compute.
  - intros ip Hip. cbn in Hip. apply elem_of_cons in Hip as [->|Hip]; [reflexivity|].
    apply elem_of_cons in Hip as [->|Hip]; [reflexivity|]. by apply elem_of_nil in Hip.
Defined.

(** ** The environment file *)

Section EnvFile.

Lemma forallb_dropWhile p (s : jstring) : forallb p s = true ↔ dropWhile p s = [].
Proof.
  induction s as [|c t IH]; simpl; [done|].
  destruct (p c); simpl; [done|]. split; done.
Qed.

Lemma forallb_takeWhile p (s : jstring) : forallb p s = true → takeWhile p s = s.
Proof.
  induction s as [|c t IH]; simpl; [done|].
  destruct (p c); simpl; [|done]. intros H. by rewrite IH.
Qed.

Lemma forallb_Forall p (s : jstring) : forallb p s = true ↔ Forall (λ c, p c = true) s.
Proof.
  induction s as [|c t IH]; simpl; [by split; [constructor|]|].
  rewrite andb_true_iff, Forall_cons. tauto.
Qed.

(** The second group and the end of the line: all of the rest, when no
    line terminator is in it. *)
Lemma exec_value_group v caps :
  exec (RGroup (RAlt (RPlus any_char) REps)) v caps
    (λ rest caps', if bool_decide (rest = []) then Some caps' else None)
  = if forallb any_char v then Some (caps ++ [v]) else None.
Proof.
  cbn [exec].
  rewrite plus_reject by (intros c t _; by rewrite bool_decide_eq_false_2).
  destruct (forallb any_char v) eqn:Ev.
  - rewrite (forallb_takeWhile _ _ Ev). apply forallb_dropWhile in Ev. rewrite Ev.
    destruct v as [|c t]; simpl; [done|].
    by rewrite firstn_all.
  - assert (dropWhile any_char v ≠ []) as Hd
      by (intros H; apply forallb_dropWhile in H; congruence).
    assert (v ≠ []) as Hv by (by intros ->).
    destruct (takeWhile any_char v).
    + by rewrite bool_decide_eq_false_2.
    + rewrite bool_decide_eq_false_2 by done. by rewrite bool_decide_eq_false_2.
Qed.

(** The pattern of line 24 without search. *)
Lemma env_match_closed line :
  env_match line
  = match takeWhile is_key_char line, dropWhile is_key_char line with
    | _ :: _, c :: v =>
        if (c =? EnvChr.equals) && forallb any_char v
        then Some (takeWhile is_key_char line, v) else None
    | _, _ => None
    end.
Proof.
  unfold env_match, rx_env_line. cbn [exec].
  rewrite plus_reject.
  2:{ intros c t Hc. unfold is_key_char in Hc.
      apply negb_true_iff, orb_false_iff in Hc as [_ Hc].
      by rewrite N.eqb_sym, Hc. }
  pose proof (takeWhile_dropWhile is_key_char line) as Hsplit.
  pose proof (takeWhile_length is_key_char line) as Hlen.
  destruct (takeWhile is_key_char line) as [|k0 k] eqn:Ek; [done|].
  destruct (dropWhile is_key_char line) as [|c v] eqn:Ed; [done|].
  rewrite (N.eqb_sym EnvChr.equals c).
  destruct (c =? EnvChr.equals); cbn [andb]; [|done].
  pose proof (exec_value_group v
    ([] ++ [take (length line - length (c :: v)) line])) as Hg.
  cbn [exec] in Hg. rewrite Hg.
  destruct (forallb any_char v); [|done].
  replace (length line - length (c :: v))%nat with (length (k0 :: k)) by lia.
  rewrite <- Hsplit at 1. by rewrite take_app_length.
Qed.

Lemma key_chars_takeWhile k (c : N) v :
  Forall (λ c, is_key_char c = true) k → is_key_char c = false →
  takeWhile is_key_char (k ++ c :: v) = k ∧ dropWhile is_key_char (k ++ c :: v) = c :: v.
Proof.
  intros Hk Hc. induction Hk as [|a k Ha Hk [IH1 IH2]]; simpl.
  - by rewrite Hc.
  - by rewrite Ha, IH1, IH2.
Qed.

Lemma env_line_defines line key value :
  env_line line = Some (key, value) →
  ∃ k v, line = k ++ EnvChr.equals :: v ∧ k ≠ []
         ∧ Forall (λ c, is_key_char c = true) k
         ∧ Forall (λ c, is_line_terminator c = false) v
         ∧ key = trim k ∧ value = strip_quotes (trim v).
Proof.
  unfold env_line. rewrite env_match_closed.
  pose proof (takeWhile_dropWhile is_key_char line) as Hsplit.
  pose proof (takeWhile_all is_key_char line) as Hall.
  destruct (takeWhile is_key_char line) as [|k0 k] eqn:Ek; [done|].
  destruct (dropWhile is_key_char line) as [|c v] eqn:Ed; [done|].
  destruct (c =? EnvChr.equals) eqn:Ec; cbn [andb]; [|done].
  destruct (forallb any_char v) eqn:Ev; [|done].
  intros [= <- <-]. apply N.eqb_eq in Ec as ->.
  exists (k0 :: k), v. split; [done|]. split; [done|]. split; [done|].
  split; [|done].
  apply forallb_Forall in Ev. eapply Forall_impl; [exact Ev|].
  intros c Hc. unfold any_char in Hc. by destruct (is_line_terminator c).
Qed.

Lemma env_line_of_parts k v :
  k ≠ [] → Forall (λ c, is_key_char c = true) k →
  Forall (λ c, is_line_terminator c = false) v →
  env_line (k ++ EnvChr.equals :: v) = Some (trim k, strip_quotes (trim v)).
Proof.
  intros Hne Hk Hv. unfold env_line. rewrite env_match_closed.
  destruct (key_chars_takeWhile k EnvChr.equals v Hk eq_refl) as [-> ->].
  destruct k as [|k0 k]; [done|]. rewrite N.eqb_refl. cbn [andb].
  assert (forallb any_char v = true) as ->; [|done].
  apply forallb_Forall. eapply Forall_impl; [exact Hv|].
  intros c Hc. unfold any_char. by rewrite Hc.
Qed.

Lemma env_line_without_equals line : EnvChr.equals ∉ line → env_line line = None.
Proof.
  intros Hno. destruct (env_line line) as [[key value]|] eqn:E; [|done].
  apply env_line_defines in E as (k & v & -> & _). exfalso. apply Hno.
  apply elem_of_app. right. apply list_elem_of_here.
Qed.

(** Past the start of the text the replacement of line 27 only finds a
    quote at the end. *)
Lemma strip_quotes_inner s : strip_quotes_from false s = without_last_quote s.
Proof.
  unfold without_last_quote. induction s as [|c t IH]; [done|].
  cbn [strip_quotes_from orb rev]. destruct t as [|d t'].
  - rewrite bool_decide_eq_true_2 by done. rewrite andb_true_r. cbn [rev app].
    by destruct (is_quote c).
  - rewrite bool_decide_eq_false_2 by done. rewrite andb_false_r, IH.
    destruct (rev (d :: t')) as [|x r] eqn:E.
    + by apply (f_equal (@length N)) in E; rewrite length_rev in E.
    + cbn [app]. destruct (is_quote x); [|done].
      by rewrite rev_app_distr.
Qed.

Lemma strip_quotes_closed s :
  strip_quotes s = without_last_quote (without_first_quote s).
Proof.
  unfold strip_quotes, without_first_quote. destruct s as [|c t]; [done|].
  cbn [strip_quotes_from orb]. rewrite andb_true_r.
  destruct (is_quote c) eqn:E; [apply strip_quotes_inner|].
  rewrite strip_quotes_inner. unfold without_last_quote.
  cbn [rev]. destruct t as [|d t']; cbn [rev app]; [by rewrite E|].
  destruct (rev t' ++ [d]) as [|x r] eqn:Er; [by destruct (rev t')|].
  cbn [app]. destruct (is_quote x); [|done]. by rewrite rev_app_distr.
Qed.

Lemma env_line_comment rest : env_line (Chr.hash :: rest) = None.
Proof. unfold env_line. by rewrite env_match_closed. Qed.

End EnvFile.

(** X23: a line of the environment file defines a variable exactly when
    it is a non-empty run of code units other than [#] and [=], then [=],
    then a rest without line terminator (a carriage return is one); the
    key is the run, trimmed, and the value is the rest, trimmed and then
    without its first code unit if that is a quote and without its last
    one if that is a quote (so unmatched quotes go as well).  A line that
    begins with [#] or holds no [=] defines nothing. *)
Theorem X23_env_line_shape (line : jstring) :
  (∀ key value, env_line line = Some (key, value) ↔
     ∃ k v, line = k ++ EnvChr.equals :: v ∧ k ≠ []
            ∧ Forall (λ c, is_key_char c = true) k
            ∧ Forall (λ c, is_line_terminator c = false) v
            ∧ key = trim k
            ∧ value = without_last_quote (without_first_quote (trim v)))
  ∧ (head line = Some Chr.hash → env_line line = None)
  ∧ (EnvChr.equals ∉ line → env_line line = None).
Proof.
  split; [|split].
  - intros key value. split.
    + intros (k & v & H & Hne & Hk & Hv & -> & ->)%env_line_defines.
      exists k, v. by rewrite <- strip_quotes_closed.
    + intros (k & v & -> & Hne & Hk & Hv & -> & ->). rewrite <- strip_quotes_closed.
      by apply env_line_of_parts.
  - destruct line as [|c rest]; [done|]. intros [= ->]. apply env_line_comment.
  - apply env_line_without_equals.
Qed.

Section EnvLoad.

Lemma env_has_lookup penv key v : penv !! key = Some v → v ≠ [] → env_has penv key = true.
Proof. intros H Hv. unfold env_has. rewrite H. by rewrite bool_decide_eq_false_2. Qed.

(** A line changes at most the variable it names, and only one that reads
    as unset. *)
Lemma load_line_lookup penv line key :
  load_line penv line !! key = penv !! key
  ∨ (∃ value, env_line line = Some (key, value) ∧ key ≠ [] ∧ env_has penv key = false
              ∧ load_line penv line !! key = Some value).
Proof.
  unfold load_line. destruct (env_line line) as [[key' value]|] eqn:E; [|by left].
  case_bool_decide as Hk; cbn [negb andb]; [by left|].
  destruct (env_has penv key') eqn:Eh; cbn [negb]; [by left|].
  destruct (decide (key' = key)) as [->|Hne].
  - right. exists value. by rewrite lookup_insert_eq.
  - left. by rewrite lookup_insert_ne.
Qed.

Lemma load_line_keeps penv line key :
  env_has penv key = true → load_line penv line !! key = penv !! key.
Proof.
  intros H. destruct (load_line_lookup penv line key) as [?|(v & _ & _ & Hf & _)]; [done|].
  congruence.
Qed.

Lemma load_lines_keeps lines : ∀ penv key v,
  penv !! key = Some v → v ≠ [] → foldl load_line penv lines !! key = Some v.
Proof.
  induction lines as [|l rest IH]; intros penv key v H Hv; [done|].
  cbn [foldl]. apply IH; [|done].
  rewrite load_line_keeps; [done | by eapply env_has_lookup].
Qed.

Lemma load_line_reserved penv line key :
  key = [] ∨ (key ∈ object_prototype_names ∧ penv !! key ≠ Some []) →
  load_line penv line !! key = penv !! key.
Proof.
  intros Hk.
  destruct (load_line_lookup penv line key) as [H|(v & _ & Hne & Hf & _)]; [done|].
  destruct Hk as [->|[Hk Hown]]; [done|]. exfalso.
  unfold env_has in Hf. destruct (penv !! key) as [v0|].
  - apply negb_false_iff, bool_decide_eq_true in Hf. by subst v0.
  - by rewrite bool_decide_eq_true_2 in Hf.
Qed.

Lemma load_lines_reserved lines : ∀ penv key,
  key = [] ∨ (key ∈ object_prototype_names ∧ penv !! key ≠ Some []) →
  foldl load_line penv lines !! key = penv !! key.
Proof.
  induction lines as [|l rest IH]; intros penv key Hk; [done|].
  cbn [foldl]. pose proof (load_line_reserved penv l key Hk) as Hl.
  rewrite IH; [done|]. destruct Hk as [->|[Hk Hown]]; [by left|].
  right. split; [done|]. by rewrite Hl.
Qed.

Lemma load_lines_origin lines : ∀ penv key v,
  foldl load_line penv lines !! key = Some v →
  penv !! key = Some v ∨ ∃ line, line ∈ lines ∧ env_line line = Some (key, v).
Proof.
  induction lines as [|l rest IH]; intros penv key v H; [by left|].
  cbn [foldl] in H. apply IH in H as [H|(line & Hin & Hl)].
  - destruct (load_line_lookup penv l key) as [Hs|(v' & Hl & _ & _ & Hs)].
    + left. congruence.
    + right. exists l. split; [apply list_elem_of_here|]. congruence.
  - right. exists line. split; [by apply list_elem_of_further | done].
Qed.

(** Lines that give [key] nothing but the empty value leave it unset. *)
Lemma load_lines_open lines : ∀ penv key,
  env_has penv key = false →
  (∀ l v, l ∈ lines → env_line l = Some (key, v) → v = []) →
  env_has (foldl load_line penv lines) key = false.
Proof.
  induction lines as [|l rest IH]; intros penv key Hf Hl; [done|].
  cbn [foldl]. apply IH.
  - destruct (load_line_lookup penv l key) as [Hs|(v & Hv & _ & _ & Hs)].
    + unfold env_has in *. by rewrite Hs.
    + rewrite (Hl l v) in Hs by (done || apply list_elem_of_here).
      unfold env_has. rewrite Hs. by rewrite bool_decide_eq_true_2.
  - intros l' v Hin. apply Hl. by apply list_elem_of_further.
Qed.

Lemma load_line_defines penv line key value :
  env_line line = Some (key, value) → key ≠ [] → env_has penv key = false →
  load_line penv line !! key = Some value.
Proof.
  intros Hl Hk Hf. unfold load_line. rewrite Hl, Hf.
  rewrite bool_decide_eq_false_2 by done. cbn [negb andb]. by rewrite lookup_insert_eq.
Qed.

Lemma split_on_line (l rest : jstring) :
  Chr.newline ∉ l →
  split_on Chr.newline (l ++ Chr.newline :: rest) = l :: split_on Chr.newline rest.
Proof.
  induction l as [|c t IH]; intros Hl; cbn [app split_on].
  - by rewrite N.eqb_refl.
  - apply not_elem_of_cons in Hl as [Hc Ht].
    assert ((c =? Chr.newline) = false) as -> by (by apply N.eqb_neq).
    by rewrite IH.
Qed.

Lemma split_on_crlf lines :
  Forall (λ l, Chr.newline ∉ l) lines →
  split_on Chr.newline (crlf_text lines) = ((λ l, l ++ [EnvChr.cr]) <$> lines) ++ [[]].
Proof.
  unfold crlf_text. induction 1 as [|l rest Hl Hrest IH]; [done|].
  cbn [fmap list_fmap mjoin list_join app].
  change (l ++ [EnvChr.cr; Chr.newline]) with (l ++ [EnvChr.cr] ++ [Chr.newline]).
  rewrite app_assoc, <- (app_assoc (l ++ [EnvChr.cr])). cbn [app].
  rewrite split_on_line.
  - f_equal. exact IH.
  - intros [H|H]%elem_of_app; [done|]. apply elem_of_cons in H as [H|H]; [done|].
    by apply elem_of_nil in H.
Qed.

Lemma dropWhile_app_found q (s y : jstring) c v :
  dropWhile q s = c :: v → dropWhile q (s ++ y) = c :: v ++ y.
Proof.
  induction s as [|a t IH]; simpl; [done|].
  destruct (q a); [done|]. by intros [= <- <-].
Qed.

(** A line that ends with a carriage return defines nothing. *)
Lemma env_line_cr l : env_line (l ++ [EnvChr.cr]) = None.
Proof.
  destruct (env_line (l ++ [EnvChr.cr])) as [[key value]|] eqn:E; [|done].
  apply env_line_defines in E as (k & v & Hsplit & _ & Hk & Hv & _). exfalso.
  destruct (decide (v = [])) as [->|Hne].
  - apply (f_equal (@last N)) in Hsplit.
    rewrite last_snoc in Hsplit.
    rewrite last_snoc in Hsplit. done.
  - destruct (exists_last Hne) as (v' & c & ->).
    rewrite app_comm_cons, app_assoc in Hsplit.
    apply app_inj_tail in Hsplit as [_ <-].
    apply Forall_app in Hv as [_ Hc]. by apply Forall_inv in Hc.
Qed.

End EnvLoad.

(** X24: reading the environment file never changes a variable that the
    process already has with a non-empty value, never defines a variable
    with an empty name, nor one with a name that every object inherits
    (unless the process has it, empty, as a variable of its own), and
    every variable found afterwards comes from the environment or from a
    line of the file. *)
Theorem X24_env_file_fills_gaps_only (envContent : jstring) (penv : gmap jstring jstring) :
  (∀ key v, penv !! key = Some v → v ≠ [] → load_env envContent penv !! key = Some v)
  ∧ (∀ key, key = [] ∨ (key ∈ object_prototype_names ∧ penv !! key ≠ Some []) →
            load_env envContent penv !! key = penv !! key)
  ∧ (∀ key v, load_env envContent penv !! key = Some v →
       penv !! key = Some v
       ∨ ∃ line, line ∈ split_on Chr.newline envContent ∧ env_line line = Some (key, v)).
Proof.
  unfold load_env. split; [|split].
  - intros key v. apply load_lines_keeps.
  - intros key. apply load_lines_reserved.
  - intros key v. apply load_lines_origin.
Qed.

(** X25: among the lines of the file that name a variable, the first one
    with a non-empty value decides, when the process does not have the
    variable yet: lines before it that give the variable the empty value
    do not count, and no line after it changes it. *)
Theorem X25_first_value_in_env_file_wins (envContent : jstring)
    (penv : gmap jstring jstring) (before after : list jstring)
    (line key value : jstring) :
  split_on Chr.newline envContent = before ++ line :: after →
  env_line line = Some (key, value) → key ≠ [] → value ≠ [] →
  env_has penv key = false →
  (∀ l v, l ∈ before → env_line l = Some (key, v) → v = []) →
  load_env envContent penv !! key = Some value.
Proof.
  intros Hsplit Hl Hk Hv Hf Hbefore. unfold load_env. rewrite Hsplit.
  rewrite foldl_app. cbn [foldl].
  apply load_lines_keeps; [|done].
  apply load_line_defines; [done | done |]. by apply load_lines_open.
Qed.

Lemma X25_witness :
  load_env (lit "# voice" ++ [Chr.newline] ++ lit "TTS_PROVIDER=" ++ [Chr.newline]
            ++ lit "TTS_PROVIDER = 'piper'" ++ [Chr.newline] ++ lit "TTS_PROVIDER=macos")
    ∅ !! lit "TTS_PROVIDER" = Some (lit "piper").
Proof.
  apply (X25_first_value_in_env_file_wins _ ∅
           [lit "# voice"; lit "TTS_PROVIDER="] [lit "TTS_PROVIDER=macos"]
           (lit "TTS_PROVIDER = 'piper'") (lit "TTS_PROVIDER") (lit "piper")).
  - reflexivity.
  - reflexivity.
  - done.
  - done.
  - reflexivity.
  - intros l v Hin. apply elem_of_cons in Hin as [->|Hin]; [done|].
    apply elem_of_cons in Hin as [->|Hin]; [by intros [= <-]|].
    by apply elem_of_nil in Hin.
Defined.

(** X26: a file whose lines all end with a carriage return and a line
    feed defines nothing at all: the carriage return stays at the end of
    each line, and the pattern of line 24 does not let a value hold one. *)
Theorem X26_crlf_env_file_defines_nothing (lines : list jstring)
    (penv : gmap jstring jstring) :
  Forall (λ l, Chr.newline ∉ l) lines →
  load_env (crlf_text lines) penv = penv.
Proof.
  intros Hl. unfold load_env. rewrite split_on_crlf by done.
  rewrite foldl_app. cbn [foldl].
  assert (foldl load_line penv ((λ l, l ++ [EnvChr.cr]) <$> lines) = penv) as ->.
  { clear Hl. revert penv. induction lines as [|l rest IH]; intros penv; [done|].
    cbn [fmap list_fmap foldl]. unfold load_line at 2. rewrite env_line_cr. apply IH. }
  done.
Qed.

Lemma X26_witness :
  load_env (crlf_text [lit "ELEVENLABS_API_KEY=sk_live"; lit "TTS_PROVIDER=piper"]) ∅ = ∅.
Proof.
  apply (X26_crlf_env_file_defines_nothing
           [lit "ELEVENLABS_API_KEY=sk_live"; lit "TTS_PROVIDER=piper"] ∅).
  repeat constructor; by apply (bool_decide_unpack _); vm_compute.
Defined.

(** ** Start-up and voices *)

(** X27: a line [TTS_PROVIDER=macos] in the environment file, when the
    process does not have the variable and no earlier line gives it a
    value, makes every call of [generateSpeech] run macOS say and nothing
    else: neither an API key nor a Piper model brings the other providers
    into the list. *)
Theorem X27_env_file_can_select_macos_only (homedir : jstring)
    (join : list jstring → jstring) (penv0 : gmap jstring jstring)
    (envContent : jstring) (before after : list jstring) (line : jstring) :
  split_on Chr.newline envContent = before ++ line :: after →
  env_line line = Some (lit "TTS_PROVIDER", lit "macos") →
  env_has penv0 (lit "TTS_PROVIDER") = false →
  (∀ l v, l ∈ before → env_line l = Some (lit "TTS_PROVIDER", v) → v = []) →
  ∀ e failCount,
    generateSpeech (startup_config homedir join penv0 (Some envContent)) e failCount
    = (failCount,
       a ← generateSpeechMacOS (say_reply e);
       Return {| speech_audio := a; speech_provider := macos; speech_format := aiff |}).
Proof.
  intros Hsplit Hl Hf Hbefore e failCount.
  assert (load_env envContent penv0 !! lit "TTS_PROVIDER" = Some (lit "macos")) as Hp.
  { unfold load_env. rewrite Hsplit, foldl_app. cbn [foldl].
    apply load_lines_keeps; [|done].
    apply load_line_defines; [done | done |]. by apply load_lines_open. }
  unfold generateSpeech, build_providers, startup_config, startup_env.
  cbn [TTS_PROVIDER]. unfold env_or. rewrite Hp.
  change (lit "macos") with (109 :: lit "acos").
  rewrite (bool_decide_eq_false_2 (109 :: lit "acos" = lit "elevenlabs")) by done.
  rewrite (bool_decide_eq_true_2 (109 :: lit "acos" = 109 :: lit "acos")) by done.
  cbn [andb negb app cascade attempt].
  by destruct (generateSpeechMacOS (say_reply e)).
Qed.

Lemma X27_witness :
  generateSpeech
    (startup_config (lit "/Users/kai") (λ parts, mjoin parts)
       {[ lit "ELEVENLABS_API_KEY" := lit "sk_live" ]}
       (Some (lit "# local voice only" ++ [Chr.newline] ++ lit "TTS_PROVIDER=macos")))
    all_up 0
  = (0%nat,
     a ← generateSpeechMacOS (say_reply all_up);
     Return {| speech_audio := a; speech_provider := macos; speech_format := aiff |}).
Proof.
  apply (X27_env_file_can_select_macos_only (lit "/Users/kai") (λ parts, mjoin parts)
           {[ lit "ELEVENLABS_API_KEY" := lit "sk_live" ]}
           (lit "# local voice only" ++ [Chr.newline] ++ lit "TTS_PROVIDER=macos")
           [lit "# local voice only"] [] (lit "TTS_PROVIDER=macos")).
  - reflexivity.
  - reflexivity.
  - reflexivity.
  - intros l v Hin. apply elem_of_cons in Hin as [->|Hin]; [done|].
    by apply elem_of_nil in Hin.
Defined.

(** X28: the volume handed to the player is always a number between 0
    and 1.  A configured default that is a number in that range is the
    volume; in every other case (no configuration, no number, a number out
    of range, not a number at all) the volume is 0.8. *)
Theorem X28_volume_setting (voicesConfig : option VoicesConfig) :
  PrimFloat.leb 0 (getVolumeSetting voicesConfig) = true
  ∧ PrimFloat.leb (getVolumeSetting voicesConfig) 1 = true
  ∧ (∀ vc vol,
       voicesConfig = Some vc → default_volume vc = VNumber vol →
       PrimFloat.leb 0 vol = true → PrimFloat.leb vol 1 = true →
       getVolumeSetting voicesConfig = vol)
  ∧ ((∀ vc vol,
        voicesConfig = Some vc → default_volume vc = VNumber vol →
        PrimFloat.leb 0 vol && PrimFloat.leb vol 1 = false) →
     getVolumeSetting voicesConfig = 0.8%float).
Proof.
  unfold getVolumeSetting.
  destruct voicesConfig as [vc|]; [|by repeat split].
  destruct (default_volume vc) as [| |b|vol|s|items|fields] eqn:E;
    try (split; [done|]; split; [done|]; split; [by intros ? ? [= <-]; rewrite E|done]).
  destruct (PrimFloat.leb 0 vol) eqn:E1.
  - destruct (PrimFloat.leb vol 1) eqn:E2; cbn [andb].
    + split; [done|]. split; [done|]. split.
      * intros vc' vol' [= <-] Hv _ _. rewrite E in Hv. by injection Hv as <-.
      * intros H. specialize (H vc vol eq_refl E). rewrite E1, E2 in H. done.
    + split; [done|]. split; [done|]. split; [|done].
      intros vc' vol' [= <-] Hv _ H2. rewrite E in Hv. injection Hv as <-. congruence.
  - cbn [andb]. split; [done|]. split; [done|]. split; [|done].
    intros vc' vol' [= <-] Hv H1 _. rewrite E in Hv. injection Hv as <-. congruence.
Qed.

Section Voices.

Lemma record_get_NoDup {A} (tbl : list (jstring * A)) key v :
  NoDup tbl.*1 → (key, v) ∈ tbl → record_get tbl key = Some v.
Proof.
  induction tbl as [|[k a] rest IH]; intros Hnd Hin; [by apply elem_of_nil in Hin|].
  cbn [fmap list_fmap fst] in Hnd. apply NoDup_cons in Hnd as [Hk Hnd].
  cbn [record_get]. apply elem_of_cons in Hin as [[= <- <-]|Hin].
  - by rewrite bool_decide_eq_true_2.
  - rewrite bool_decide_eq_false_2; [by apply IH|].
    intros ->. apply Hk. apply list_elem_of_fmap. by exists (key, v).
Qed.

Lemma record_get_None {A} (tbl : list (jstring * A)) key :
  key ∉ tbl.*1 → record_get tbl key = None.
Proof.
  induction tbl as [|[k a] rest IH]; intros Hk; [done|].
  cbn [fmap list_fmap fst] in Hk. apply not_elem_of_cons in Hk as [Hne Hk].
  cbn [record_get]. rewrite bool_decide_eq_false_2 by done. by apply IH.
Qed.

Lemma find_voice_none (cs : list VoiceConfig) identifier :
  (∀ c, c ∈ cs → voice_id c ≠ identifier) →
  find (λ c, bool_decide (voice_id c = identifier)) cs = None.
Proof.
  induction cs as [|c rest IH]; intros H; [done|]. cbn [find].
  rewrite bool_decide_eq_false_2 by (apply H, list_elem_of_here).
  apply IH. intros c' Hc'. by apply H, list_elem_of_further.
Qed.

Lemma find_voice_some (cs : list VoiceConfig) identifier c :
  find (λ c, bool_decide (voice_id c = identifier)) cs = Some c →
  c ∈ cs ∧ voice_id c = identifier.
Proof.
  induction cs as [|c' rest IH]; [done|]. cbn [find].
  case_bool_decide as E.
  - intros [= <-]. split; [apply list_elem_of_here | done].
  - intros [H1 H2]%IH. split; [by apply list_elem_of_further | done].
Qed.

End Voices.

(** X29: the voice handed to [generateSpeech] is the identifier as the
    request gave it, also when it is the key of a configured personality
    and the personality names another voice id.  Without emotion hint the
    settings are those of the personality found under that key, those of
    a personality with that voice id when the identifier is no key (and no
    inherited name), and 0.5 and 0.5 when nothing is found. *)
Theorem X29_voice_and_settings_of_a_request (default_voice : jstring)
    (vc : VoicesConfig) (message identifier : jstring) :
  identifier ≠ [] → emotion (extractEmotionalMarker message) = None →
  NoDup (voices vc).*1 →
  let r := speech_request_of default_voice (Some vc) message (Some identifier) in
  sr_voice r = identifier
  ∧ sr_text r = message
  ∧ (∀ c, (identifier, c) ∈ voices vc →
          sr_settings r = Settings (stability c) (similarity_boost c))
  ∧ (identifier ∉ (voices vc).*1 → identifier ∉ object_prototype_names →
     (∃ c, c ∈ (voices vc).*2 ∧ voice_id c = identifier
           ∧ sr_settings r = Settings (stability c) (similarity_boost c))
     ∨ ((∀ c, c ∈ (voices vc).*2 → voice_id c ≠ identifier)
        ∧ sr_settings r = Settings 0.5 0.5)).
Proof.
  intros Hid Hem Hnd r. subst r. unfold speech_request_of.
  cbn [sr_voice sr_text sr_settings]. rewrite Hem.
  destruct identifier as [|i0 i]; [done|]. split; [done|]. split.
  { revert Hem. unfold extractEmotionalMarker.
    destruct (match_tag message) as [[j m]|]; [|done]. by case_bool_decide. }
  cbn [voiceSettings]. unfold getVoiceConfig, js_get. split.
  - intros c Hc. by rewrite (record_get_NoDup _ _ _ Hnd Hc).
  - intros Hkey Hproto. rewrite (record_get_None _ _ Hkey).
    rewrite bool_decide_eq_false_2 by done.
    destruct (find _ _) as [c|] eqn:E.
    + left. apply find_voice_some in E as [Hin Hv]. by exists c.
    + right. split; [|done]. intros c Hc Hv.
      assert (find (λ c, bool_decide (voice_id c = i0 :: i)) (voices vc).*2 ≠ None) as Hne.
      { clear E. induction (voices vc).*2 as [|c' rest IH]; [by apply elem_of_nil in Hc|].
        cbn [find]. case_bool_decide as Ec; [done|].
        apply elem_of_cons in Hc as [->|Hc]; [done | by apply IH]. }
      done.
Qed.

Lemma X29_witness :
  let vc := {| default_volume := VUndefined;
               voices := [ (lit "kai",
                            {| voice_id := lit "s3TPKV1kjDlVtZbl4Ksh"; voice_name := lit "Kai";
                               stability := 0.4; similarity_boost := 0.7;
                               description := lit "calm" |}) ] |} in
  let r := speech_request_of (lit "s3TPKV1kjDlVtZbl4Ksh") (Some vc) (lit "Build done")
             (Some (lit "kai")) in
  sr_voice r = lit "kai"
  ∧ sr_text r = lit "Build done"
  ∧ (∀ c, (lit "kai", c) ∈ voices vc →
          sr_settings r = Settings (stability c) (similarity_boost c))
  ∧ (lit "kai" ∉ (voices vc).*1 → lit "kai" ∉ object_prototype_names →
     (∃ c, c ∈ (voices vc).*2 ∧ voice_id c = lit "kai"
           ∧ sr_settings r = Settings (stability c) (similarity_boost c))
     ∨ ((∀ c, c ∈ (voices vc).*2 → voice_id c ≠ lit "kai")
        ∧ sr_settings r = Settings 0.5 0.5)).
Proof.
  apply (X29_voice_and_settings_of_a_request (lit "s3TPKV1kjDlVtZbl4Ksh")
           {| default_volume := VUndefined;
              voices := [ (lit "kai",
                           {| voice_id := lit "s3TPKV1kjDlVtZbl4Ksh"; voice_name := lit "Kai";
                              stability := 0.4; similarity_boost := 0.7;
                              description := lit "calm" |}) ] |}
           (lit "Build done") (lit "kai")).
  - done.
  - reflexivity.
  - cbn. apply NoDup_singleton.
Defined.
